(** * English to Hindi Text Transformer: the transliteration and
      romanization engines of [src/app.py]

    The development embeds the pure text transducers of [TextTransformer]
    ([english_to_devanagari_transliteration], [_transliterate_word_advanced],
    [_clean_romanization], [_enhanced_manual_hindi_to_roman] and
    [hindi_to_roman_transliteration]) and proves the properties the
    specification states about them.  It then covers the rest of the class:
    [_manual_hindi_to_roman], the translation step with its two services,
    [transform_text] and the choice of the service in [__init__], with
    further properties read off the code.

    A Python [str] is a sequence of Unicode code points; it is modelled as a
    [list N].  The string methods the program calls ([lower], [upper],
    [strip], [split], [replace], [join], ...) are modelled after CPython.
    The part of the Unicode character database that concerns ASCII is written
    out; the rest of the database is a parameter ([UnicodeData]). *)

From Stdlib Require Import String Ascii List NArith Arith Bool Lia.
Import ListNotations.

Open Scope N_scope.

(** ** Python strings *)

Definition pystr := list N.

(** Decoder for the UTF-8 bytes of a string literal of this file, so that
    the tables below can be written with the characters of the source. *)
Fixpoint utf8 (bs : list N) : pystr :=
  match bs with
  | [] => []
  | b0 :: r0 =>
    if b0 <? 128 then b0 :: utf8 r0
    else
      match r0 with
      | [] => []
      | b1 :: r1 =>
        if b0 <? 224 then ((b0 mod 32) * 64 + b1 mod 64) :: utf8 r1
        else
          match r1 with
          | [] => []
          | b2 :: r2 =>
            if b0 <? 240
            then ((b0 mod 16) * 4096 + (b1 mod 64) * 64 + b2 mod 64) :: utf8 r2
            else
              match r2 with
              | [] => []
              | b3 :: r3 =>
                ((b0 mod 8) * 262144 + (b1 mod 64) * 4096
                 + (b2 mod 64) * 64 + b3 mod 64) :: utf8 r3
              end
          end
      end
  end.

Definition py (s : string) : pystr :=
  utf8 (map N_of_ascii (list_ascii_of_string s)).

(** The double quote character, U+0022. *)
Definition dquote : N := 34.

(** The string made of a line feed, ['\n']. *)
Definition newline : pystr := [10].

Fixpoint str_eqb (a b : pystr) : bool :=
  match a, b with
  | [], [] => true
  | x :: a', y :: b' => (x =? y) && str_eqb a' b'
  | _, _ => false
  end.

(** [c in chars] for a one-character string [c]. *)
Definition in_str (c : N) (chars : pystr) : bool :=
  existsb (N.eqb c) chars.

(** [s.startswith(p)] *)
Fixpoint is_prefix (p s : pystr) : bool :=
  match p, s with
  | [], _ => true
  | x :: p', y :: s' => (x =? y) && is_prefix p' s'
  | _ :: _, [] => false
  end.

(** [s[i:j]] for [0 <= i <= j]. *)
Definition slice (s : pystr) (i j : nat) : pystr :=
  firstn (j - i) (skipn i s).

Fixpoint drop_while (p : N -> bool) (s : pystr) : pystr :=
  match s with
  | [] => []
  | c :: rest => if p c then drop_while p rest else s
  end.

(** [sep.join(parts)] *)
Fixpoint join (sep : pystr) (parts : list pystr) : pystr :=
  match parts with
  | [] => []
  | [p] => p
  | p :: rest => p ++ sep ++ join sep rest
  end.

(** [s.split(sep)] for a non-empty [sep]: the pieces between the
    non-overlapping occurrences of [sep], found from left to right.  [skip]
    counts the characters of a matched separator still to be passed over and
    [cur] holds the current piece, reversed. *)
Fixpoint split_aux (sep : pystr) (skip : nat) (cur : pystr) (s : pystr)
  : list pystr :=
  match s with
  | [] => [rev cur]
  | c :: rest =>
    match skip with
    | S k => split_aux sep k cur rest
    | O =>
      if is_prefix sep s
      then rev cur :: split_aux sep (length sep - 1) [] rest
      else split_aux sep 0 (c :: cur) rest
    end
  end.

Definition split (sep s : pystr) : list pystr := split_aux sep 0 [] s.

(** [s.replace(old, new)]: every non-overlapping occurrence of [old], from
    left to right.  With an empty [old] Python puts [new] before every
    character and at the end. *)
Fixpoint replace_aux (old new : pystr) (skip : nat) (s : pystr) : pystr :=
  match s with
  | [] => []
  | c :: rest =>
    match skip with
    | S k => replace_aux old new k rest
    | O =>
      if is_prefix old s
      then new ++ replace_aux old new (length old - 1) rest
      else c :: replace_aux old new 0 rest
    end
  end.

Definition replace (old new s : pystr) : pystr :=
  match old with
  | [] => new ++ flat_map (fun c => c :: new) s
  | _ :: _ => replace_aux old new 0 s
  end.

(** Whitespace, as [str.isspace], [str.strip()] and [str.split()] see it
    (CPython's [_PyUnicode_IsWhitespace]). *)
Definition isspace (c : N) : bool :=
  ((9 <=? c) && (c <=? 13)) || ((28 <=? c) && (c <=? 32))
  || (c =? 133) || (c =? 160) || (c =? 5760)
  || ((8192 <=? c) && (c <=? 8202))
  || (c =? 8232) || (c =? 8233) || (c =? 8239) || (c =? 8287)
  || (c =? 12288).

Definition lstrip (s : pystr) : pystr := drop_while isspace s.
Definition rstrip (s : pystr) : pystr := rev (drop_while isspace (rev s)).

(** [s.strip()] *)
Definition strip (s : pystr) : pystr := rstrip (lstrip s).

(** [s.split()]: the maximal runs of non-whitespace characters.  [cur] is
    the run being read, reversed. *)
Fixpoint split_ws_aux (cur : pystr) (s : pystr) : list pystr :=
  match s with
  | [] => match cur with [] => [] | _ :: _ => [rev cur] end
  | c :: rest =>
    if isspace c
    then match cur with
         | [] => split_ws_aux [] rest
         | _ :: _ => rev cur :: split_ws_aux [] rest
         end
    else split_ws_aux (c :: cur) rest
  end.

Definition split_ws (s : pystr) : list pystr := split_ws_aux [] s.

(** ** The Unicode character database

    What the string methods read from the database, per code point.  The
    functions below consult it for code points from 128 on; ASCII is written
    out. *)
Record UnicodeData := {
  ToLowerFull : N -> pystr;
  ToUpperFull : N -> pystr;
  IsLowercase : N -> bool;
  IsUppercase : N -> bool;
  IsAlpha : N -> bool;
  IsCased : N -> bool;
  IsCaseIgnorable : N -> bool
}.

Definition is_ascii (c : N) : bool := c <? 128.
Definition ascii_upper_letter (c : N) : bool := (65 <=? c) && (c <=? 90).
Definition ascii_lower_letter (c : N) : bool := (97 <=? c) && (c <=? 122).
Definition ascii_letter (c : N) : bool :=
  ascii_upper_letter c || ascii_lower_letter c.

(** GREEK CAPITAL LETTER SIGMA and its two lower-case forms. *)
Definition capital_sigma : N := 931.
Definition final_small_sigma : N := 962.
Definition small_sigma : N := 963.

Section Unicode.

Context (db : UnicodeData).

Definition to_lower_full (c : N) : pystr :=
  if is_ascii c then [if ascii_upper_letter c then c + 32 else c]
  else ToLowerFull db c.

Definition to_upper_full (c : N) : pystr :=
  if is_ascii c then [if ascii_lower_letter c then c - 32 else c]
  else ToUpperFull db c.

(** [c.islower()], [c.isupper()] and [c.isalpha()] for one character. *)
Definition islower (c : N) : bool :=
  if is_ascii c then ascii_lower_letter c else IsLowercase db c.

Definition isupper (c : N) : bool :=
  if is_ascii c then ascii_upper_letter c else IsUppercase db c.

Definition isalpha (c : N) : bool :=
  if is_ascii c then ascii_letter c else IsAlpha db c.

Definition is_cased (c : N) : bool :=
  if is_ascii c then ascii_letter c else IsCased db c.

Definition is_case_ignorable (c : N) : bool :=
  if is_ascii c
  then (c =? 39) || (c =? 46) || (c =? 58) || (c =? 94) || (c =? 96)
  else IsCaseIgnorable db c.

(** CPython's [handle_capital_sigma]: [before] holds the characters that
    precede the sigma, nearest first, and [after] those that follow. *)
Definition cased_before (before : pystr) : bool :=
  match drop_while is_case_ignorable before with
  | [] => false
  | c :: _ => is_cased c
  end.

Definition uncased_after (after : pystr) : bool :=
  match drop_while is_case_ignorable after with
  | [] => true
  | c :: _ => negb (is_cased c)
  end.

Definition handle_capital_sigma (before after : pystr) : N :=
  if cased_before before && uncased_after after
  then final_small_sigma else small_sigma.

Definition lower_ucs4 (before : pystr) (c : N) (after : pystr) : pystr :=
  if c =? capital_sigma then [handle_capital_sigma before after]
  else to_lower_full c.

(** [do_lower], over the part [s] of a string that has [before] (nearest
    first) in front of it and [after] behind it. *)
Fixpoint lower_ctx (before s after : pystr) : pystr :=
  match s with
  | [] => []
  | c :: rest =>
    lower_ucs4 before c (rest ++ after) ++ lower_ctx (c :: before) rest after
  end.

(** [s.lower()] *)
Definition lower (s : pystr) : pystr := lower_ctx [] s [].

(** [s.upper()] *)
Definition upper (s : pystr) : pystr := flat_map to_upper_full s.

End Unicode.

(** ** Dictionaries

    A [dict] whose keys and values are strings, as the list of the pairs of
    its literal, in the order of the source.  A key written twice keeps the
    value written last. *)
Definition dict := list (pystr * pystr).

Definition dict_get (k : pystr) (d : dict) : option pystr :=
  fold_left (fun found kv => if str_eqb k (fst kv) then Some (snd kv) else found)
            d None.

(** [k in d] *)
Definition dict_mem (k : pystr) (d : dict) : bool :=
  match dict_get k d with Some _ => true | None => false end.

Definition entries (l : list (string * string)) : dict :=
  map (fun kv => (py (fst kv), py (snd kv))) l.

(** ** The phonetic table, [self.eng_to_dev_map] *)
Definition eng_to_dev_map : dict := entries [
  (* Single letters *)
  ("a", "अ"); ("b", "ब"); ("c", "क"); ("d", "द"); ("e", "ई"); ("f", "फ");
  ("g", "ग"); ("h", "ह"); ("i", "आई"); ("j", "ज"); ("k", "क"); ("l", "ल");
  ("m", "म"); ("n", "न"); ("o", "ओ"); ("p", "प"); ("q", "क्यू"); ("r", "आर");
  ("s", "एस"); ("t", "ट"); ("u", "यू"); ("v", "वी"); ("w", "डब्ल्यू");
  ("x", "एक्स"); ("y", "वाई"); ("z", "जेड");
  (* Common consonant combinations *)
  ("th", "थ"); ("sh", "श"); ("ch", "च"); ("ph", "फ"); ("gh", "घ");
  ("kh", "ख"); ("dh", "ध"); ("bh", "भ"); ("jh", "झ"); ("ng", "ंग");
  ("ck", "क"); ("st", "स्ट"); ("sp", "स्प"); ("sc", "स्क"); ("sk", "स्क");
  (* Vowel combinations and sounds *)
  ("aa", "आ"); ("ee", "ई"); ("ii", "ई"); ("oo", "ऊ"); ("uu", "ऊ");
  ("ai", "ऐ"); ("ay", "ए"); ("au", "औ"); ("aw", "ऑ"); ("ey", "ए");
  ("ou", "ओ"); ("ow", "आउ"); ("oy", "ऑय"); ("ea", "ई"); ("ie", "आई");
  ("oa", "ओ"); ("ue", "यू"); ("ui", "यूआई"); ("eu", "यू");
  (* Common words *)
  ("the", "द"); ("and", "एंड"); ("are", "आर"); ("you", "यू"); ("for", "फॉर");
  ("not", "नॉट"); ("but", "बट"); ("can", "कैन"); ("all", "ऑल"); ("any", "एनी");
  ("had", "हैड"); ("her", "हर"); ("was", "वॉज़"); ("one", "वन"); ("our", "आवर");
  ("out", "आउट"); ("day", "डे"); ("get", "गेट"); ("has", "हैज़"); ("him", "हिम");
  ("his", "हिज़"); ("how", "हाउ"); ("man", "मैन"); ("new", "न्यू"); ("now", "नाउ");
  ("old", "ओल्ड"); ("see", "सी"); ("two", "टू"); ("way", "वे"); ("who", "हू");
  ("boy", "बॉय"); ("did", "डिड"); ("its", "इट्स"); ("let", "लेट"); ("put", "पुट");
  ("say", "से"); ("she", "शी"); ("too", "टू"); ("use", "यूज़"); ("what", "व्हाट");
  ("when", "व्हेन"); ("where", "व्हेयर"); ("why", "व्हाई"); ("with", "विथ");
  ("will", "विल"); ("were", "वर"); ("been", "बीन"); ("have", "हैव");
  ("this", "दिस"); ("that", "दैट"); ("they", "दे"); ("them", "देम");
  ("there", "देयर"); ("then", "देन"); ("than", "दैन"); ("these", "दीज़");
  ("those", "दोज़"); ("think", "थिंक"); ("through", "थ्रू"); ("time", "टाइम");
  ("take", "टेक"); ("tell", "टेल"); ("turn", "टर्न"); ("try", "ट्राई");
  (* Story-specific words *)
  ("first", "फर्स्ट"); ("wife", "वाइफ"); ("wedding", "वेडिंग"); ("night", "नाइट");
  ("lying", "लाइंग"); ("bed", "बेड"); ("quietly", "क्वाइटली"); ("said", "सेड");
  ("die", "डाई"); ("died", "डाइड"); ("life", "लाइफ"); ("born", "बॉर्न");
  ("married", "मैरिड"); ("marry", "मैरी"); ("guess", "गेस"); ("forgot", "फॉरगॉट");
  ("about", "अबाउट"); ("need", "नीड"); ("needing", "नीडिंग"); ("kid", "किड");
  ("child", "चाइल्ड"); ("suppose", "सपोज़"); ("might", "माइट"); ("led", "लेड");
  ("live", "लिव"); ("lived", "लिव्ड"); ("long", "लॉन्ग"); ("care", "केयर");
  ("take", "टेक"); ("daughter", "डॉटर"); ("remember", "रिमेम्बर"); ("mother", "मदर");
  ("even", "ईवन"); ("well", "वेल"); ("too", "टू"); ("doesnt", "डज़न्ट");
  (* Contractions and common patterns *)
  ("don't", "डोन्ट"); ("doesn't", "डज़न्ट"); ("didn't", "डिडन्ट");
  ("won't", "वोन्ट"); ("can't", "कान्ट"); ("isn't", "इज़न्ट");
  ("aren't", "आरन्ट"); ("wasn't", "वॉज़न्ट"); ("weren't", "वरन्ट");
  ("i'm", "आइम"); ("you're", "यूआर"); ("we're", "वीआर");
  ("they're", "देयर"); ("it's", "इट्स"); ("that's", "दैट्स");
  ("what's", "व्हाट्स"); ("where's", "व्हेयर्स"); ("who's", "हूज़");
  (* Common endings *)
  ("ing", "इंग"); ("tion", "शन"); ("sion", "शन"); ("er", "र"); ("ed", "ड");
  ("ly", "ली"); ("ty", "टी"); ("ry", "री"); ("al", "ल"); ("le", "ल");
  ("ment", "मेंट"); ("ness", "नेस"); ("able", "एबल"); ("ible", "इबल")
]%string.

(** ** The transliteration engine *)

(** The characters stripped in front of a word and behind it. *)
Definition leading_chars : pystr := dquote :: py "'(".
Definition trailing_chars : pystr := py ".,!?;:)'" ++ dquote :: py "…".

(** [while clean_word and clean_word[0] in leading_chars]: returns
    [(prefix, clean_word)]. *)
Fixpoint extract_leading (prefix clean_word : pystr) : pystr * pystr :=
  match clean_word with
  | [] => (prefix, [])
  | c :: rest =>
    if in_str c leading_chars then extract_leading (prefix ++ [c]) rest
    else (prefix, clean_word)
  end.

(** [while clean_word and clean_word[-1] in trailing_chars], over the
    reversed word: returns the reversed [clean_word] and [suffix]. *)
Fixpoint extract_trailing_rev (rev_word suffix : pystr) : pystr * pystr :=
  match rev_word with
  | [] => ([], suffix)
  | c :: rest =>
    if in_str c trailing_chars then extract_trailing_rev rest (c :: suffix)
    else (rev_word, suffix)
  end.

Definition extract_trailing (clean_word : pystr) : pystr * pystr :=
  let (rev_word, suffix) := extract_trailing_rev (rev clean_word) [] in
  (rev rev_word, suffix).

(** The branch one iteration of the loop of [_transliterate_word_advanced]
    takes; recorded next to the result, the result does not depend on it. *)
Inductive branch :=
| Matched (length : nat)   (* a substring of that length is in the table *)
| YRule                    (* 'y' after position 0 *)
| WRule                    (* 'w' before a vowel *)
| SingleChar               (* the character alone is in the table *)
| PassAlpha                (* alphabetic, not in the table: kept *)
| PassOther.               (* not alphabetic: kept *)

Definition is_matched (b : branch) : Prop := exists len, b = Matched len.

(** [for length in range(start, 0, -1)]: the first length whose substring
    at [i] is in the table, with the mapped value. *)
Fixpoint try_lengths (word : pystr) (i length : nat) : option (nat * pystr) :=
  match length with
  | O => None
  | S shorter =>
    if (i + length <=? List.length word)%nat
    then
      let substring := slice word i (i + length) in
      match dict_get substring eng_to_dev_map with
      | Some mapped => Some (length, mapped)
      | None => try_lengths word i shorter
      end
    else try_lengths word i shorter
  end.

Section Transliteration.

Context (db : UnicodeData).

(** One iteration of [while i < len(word)], for [i < len(word)]: the branch
    taken, the text appended to [result] and the increment of [i]. *)
Definition iteration (word : pystr) (i : nat) : branch * pystr * nat :=
  match try_lengths word i (Nat.min 8 (List.length word - i)) with
  | Some (length, mapped) => (Matched length, mapped, length)
  | None =>
    let char := nth i word 0 in
    if isalpha db char then
      if (char =? 121 (* 'y' *)) && (0 <? i)%nat then (YRule, py "ी", 1%nat)
      else if (char =? 119 (* 'w' *)) && (i <? List.length word - 1)%nat
              && in_str (nth (i + 1) word 0) (py "aeiou")
      then (WRule, py "व", 1%nat)
      else
        match dict_get [char] eng_to_dev_map with
        | Some mapped => (SingleChar, mapped, 1%nat)
        | None => (PassAlpha, [char], 1%nat)
        end
    else (PassOther, [char], 1%nat)
  end.

(** The loop, bounded by [fuel] iterations. *)
Fixpoint while_loop (fuel : nat) (word : pystr) (i : nat)
         (result : pystr) (trace : list branch) : pystr * list branch :=
  match fuel with
  | O => (result, trace)
  | S fuel' =>
    if (i <? List.length word)%nat then
      match iteration word i with
      | (b, out, step) =>
        while_loop fuel' word (i + step) (result ++ out) (trace ++ [b])
      end
    else (result, trace)
  end.

(** Every iteration advances [i], so [len(word)] iterations suffice
    ([while_loop_fuel] below). *)
Definition run_word (word : pystr) : pystr * list branch :=
  while_loop (List.length word) word 0 [] [].

Definition _transliterate_word_advanced (word : pystr) : pystr :=
  fst (run_word word).

(** The branches [_transliterate_word_advanced] goes through on [word]. *)
Definition branches_taken (word : pystr) : list branch :=
  snd (run_word word).

(** A word, split as the loop over [words] splits it. *)
Record token := {
  tok_prefix : pystr;
  tok_core : pystr;
  tok_suffix : pystr
}.

Definition tokenize (word : pystr) : token :=
  let clean_word := lower db word in
  let (prefix, clean_word) := extract_leading [] clean_word in
  let (clean_word, suffix) := extract_trailing clean_word in
  {| tok_prefix := prefix; tok_core := clean_word; tok_suffix := suffix |}.

(** The body of [for word in words]: what is appended to [result_words]. *)
Definition transliterate_word (word : pystr) : pystr :=
  let t := tokenize word in
  match tok_core t with
  | [] => word
  | _ :: _ =>
    match dict_get (tok_core t) eng_to_dev_map with
    | Some mapped => tok_prefix t ++ mapped ++ tok_suffix t
    | None =>
      tok_prefix t ++ _transliterate_word_advanced (tok_core t) ++ tok_suffix t
    end
  end.

(** The body of [for line in lines]: what is appended to [result_lines]. *)
Definition transliterate_line (line : pystr) : pystr :=
  match strip line with
  | [] => []
  | _ :: _ => join (py " ") (map transliterate_word (split_ws line))
  end.

Definition english_to_devanagari_transliteration (text : pystr) : pystr :=
  join newline (map transliterate_line (split newline text)).

End Transliteration.

(** ** The romanization engine *)

(** [replacements] of [_clean_romanization], in the order of the literal,
    which is the order [replacements.items()] yields. *)
Definition replacements : dict :=
  entries [
    (* Better vowel representations *)
    ("aa", "aa"); ("ii", "ee"); ("uu", "oo"); ("R^i", "ri"); ("RRi", "ri");
    (* Better consonant combinations *)
    ("kh", "kh"); ("gh", "gh"); ("ch", "ch"); ("jh", "jh"); ("ñ", "ny");
    ("th", "th"); ("dh", "dh"); ("ph", "ph"); ("bh", "bh"); ("sh", "sh");
    (* Fix common transliteration issues *)
    ("M", "m"); ("H", "h"); (".n", "n"); (".m", "m"); (".h", "h");
    (".t", "t"); (".d", "d"); (".s", "s"); (".r", "r"); (".l", "l");
    (* Better word endings *)
    ("ti", "ti"); ("te", "te"); ("ta", "ta"); ("tu", "tu");
    ("ni", "ni"); ("ne", "ne"); ("na", "na"); ("nu", "nu");
    (* Fix spacing issues *)
    (" .", "."); (" ,", ","); (" !", "!"); (" ?", "?");
    (" ;", ";"); (" :", ":")
  ]%string
  ++ [ (py "' ", py "'"); ([32; dquote], [dquote]) ].

(** One of the symbols [_clean_romanization] removes: ^, | or ~. *)
Definition is_symbol (c : N) : bool := (94 =? c) || (124 =? c) || (126 =? c).

(** [text.replace('~', '').replace('|', '').replace('^', '')] *)
Definition remove_symbols (text : pystr) : pystr :=
  replace (py "^") [] (replace (py "|") [] (replace (py "~") [] text)).

(** [for old, new in replacements.items(): text = text.replace(old, new)] *)
Definition apply_replacements (text : pystr) : pystr :=
  fold_left (fun text kv => replace (fst kv) (snd kv) text) replacements text.

(** The sentence separator of [_clean_romanization]. *)
Definition sentence_sep : pystr := py ". ".

(** [enhanced_map] of [_enhanced_manual_hindi_to_roman]. *)
Definition enhanced_map : dict := entries [
  (* Vowels *)
  ("अ", "a"); ("आ", "aa"); ("इ", "i"); ("ई", "ee"); ("उ", "u"); ("ऊ", "oo");
  ("ए", "e"); ("ऐ", "ai"); ("ओ", "o"); ("औ", "au"); ("अं", "an"); ("अः", "ah");
  (* Consonants *)
  ("क", "k"); ("ख", "kh"); ("ग", "g"); ("घ", "gh"); ("ङ", "ng");
  ("च", "ch"); ("छ", "chh"); ("ज", "j"); ("झ", "jh"); ("ञ", "ny");
  ("ट", "t"); ("ठ", "th"); ("ड", "d"); ("ढ", "dh"); ("ण", "n");
  ("त", "t"); ("थ", "th"); ("द", "d"); ("ध", "dh"); ("न", "n");
  ("प", "p"); ("फ", "ph"); ("ब", "b"); ("भ", "bh"); ("म", "m");
  ("य", "y"); ("र", "r"); ("ल", "l"); ("व", "v"); ("श", "sh");
  ("ष", "sh"); ("स", "s"); ("ह", "h"); ("क्ष", "ksh"); ("त्र", "tr");
  ("ज्ञ", "gya"); ("ऋ", "ri"); ("ॐ", "om");
  (* Matras (vowel signs) *)
  ("ा", "aa"); ("ि", "i"); ("ी", "ee"); ("ु", "u"); ("ू", "oo");
  ("े", "e"); ("ै", "ai"); ("ो", "o"); ("ौ", "au"); ("ं", "n"); ("ः", "h");
  ("्", ""); ("ँ", "n")
]%string.

(** Exceptions and effects of [hindi_to_roman_transliteration]: a call
    either returns or raises; [st.error] and the calls of the two
    romanization paths are recorded in a log. *)
Definition exception := pystr.

Inductive outcome (A : Type) :=
| Returned (a : A)
| Raised (e : exception).

Arguments Returned {A} a.
Arguments Raised {A} e.

Inductive event :=
| PrimaryCalled (hindi_text : pystr)
| ErrorReported (message : pystr)
| FallbackCalled (hindi_text : pystr).

Definition M (A : Type) : Type := list event -> outcome A * list event.

Definition ret {A} (a : A) : M A := fun log => (Returned a, log).

Definition bind {A B} (m : M A) (k : A -> M B) : M B :=
  fun log =>
    match m log with
    | (Returned a, log') => k a log'
    | (Raised e, log') => (Raised e, log')
    end.

Definition emit (ev : event) : M unit := fun log => (Returned tt, log ++ [ev]).

(** [try: body  except Exception as e: handler(e)] *)
Definition try_except {A} (body : M A) (handler : exception -> M A) : M A :=
  fun log =>
    match body log with
    | (Returned a, log') => (Returned a, log')
    | (Raised e, log') => handler e log'
    end.

Notation "x <- m ;; k" := (bind m (fun x => k))
  (at level 61, m at next level, right associativity).
Notation "m ;;; k" := (bind m (fun _ => k))
  (at level 61, right associativity).

Section Romanization.

Context (db : UnicodeData).

(** The body of [for sentence in sentences]: what is appended to
    [capitalized]. *)
Definition capitalize_sentence (sentence : pystr) : pystr :=
  match sentence with
  | [] => []
  | _ :: _ =>
    match strip sentence with
    | [] => []
    | c :: rest =>
      if (1 <? List.length (c :: rest))%nat
      then upper db [c] ++ rest
      else upper db (c :: rest)
    end
  end.

(** [if result and result[0].islower(): result = result[0].upper() + result[1:]] *)
Definition ensure_first_upper (result : pystr) : pystr :=
  match result with
  | [] => []
  | c :: rest => if islower db c then upper db [c] ++ rest else result
  end.

(** The last stage of [_clean_romanization], from [text.split('. ')] on. *)
Definition capitalize (text : pystr) : pystr :=
  ensure_first_upper
    (join sentence_sep (map capitalize_sentence (split sentence_sep text))).

Definition _clean_romanization (text : pystr) : pystr :=
  capitalize (apply_replacements (remove_symbols text)).

(** The body of [for char in hindi_text]: what is added to [result]. *)
Definition romanize_char (char : N) : pystr :=
  match dict_get [char] enhanced_map with
  | Some roman => roman
  | None => if isspace char || negb (isalpha db char) then [char] else [char]
  end.

(** [result] when the loop of [_enhanced_manual_hindi_to_roman] is over. *)
Definition manual_loop (hindi_text : pystr) : pystr :=
  fold_left (fun result char => result ++ romanize_char char) hindi_text [].

Definition _enhanced_manual_hindi_to_roman (hindi_text : pystr) : pystr :=
  _clean_romanization (manual_loop hindi_text).

(** [transliterate(hindi_text, sanscript.DEVANAGARI, sanscript.ITRANS)] of
    the indic_transliteration library: returns a string or raises. *)
Context (transliterate : pystr -> outcome pystr).

Definition call_transliterate (hindi_text : pystr) : M pystr :=
  emit (PrimaryCalled hindi_text) ;;;
  (fun log => (transliterate hindi_text, log)).

Definition call_fallback (hindi_text : pystr) : M pystr :=
  emit (FallbackCalled hindi_text) ;;;
  ret (_enhanced_manual_hindi_to_roman hindi_text).

Definition hindi_to_roman_transliteration (hindi_text : pystr) : M pystr :=
  try_except
    (roman_text <- call_transliterate hindi_text ;;
     ret (_clean_romanization roman_text))
    (fun e =>
       emit (ErrorReported (py "Romanization error: " ++ e)) ;;;
       call_fallback hindi_text).

End Romanization.

(** ** A database for ASCII and Devanagari text

    The entries of the Unicode character database for the Devanagari block
    (U+0900 to U+097F), whose characters have no case: letters are the code
    points of categories Lo and Lm, and the non-spacing marks and the
    modifier letter are case-ignorable.  Code points outside ASCII and the
    block are given no property. *)
Definition devanagari_letter (c : N) : bool :=
  ((2308 <=? c) && (c <=? 2361)) || (c =? 2365) || (c =? 2384)
  || ((2392 <=? c) && (c <=? 2401)) || ((2417 <=? c) && (c <=? 2431)).

Definition devanagari_ignorable (c : N) : bool :=
  ((2304 <=? c) && (c <=? 2306)) || (c =? 2362) || (c =? 2364)
  || ((2369 <=? c) && (c <=? 2376)) || (c =? 2381)
  || ((2385 <=? c) && (c <=? 2391)) || (c =? 2402) || (c =? 2403)
  || (c =? 2417).

Definition devanagari_db : UnicodeData := {|
  ToLowerFull := fun c => [c];
  ToUpperFull := fun c => [c];
  IsLowercase := fun _ => false;
  IsUppercase := fun _ => false;
  IsAlpha := devanagari_letter;
  IsCased := fun _ => false;
  IsCaseIgnorable := devanagari_ignorable
|}.

(** ** Assumptions on the character database

    Facts of the Unicode character database the proofs below rely on, for
    the code points the database is consulted for. *)

(** [sep] occurs nowhere in [s]. *)
Definition sep_free (sep s : pystr) : Prop :=
  forall p, is_prefix sep (skipn p s) = false.

(** [tail] is what may follow a part in a string joined with [sep]. *)
Definition follows (sep tail : pystr) : Prop :=
  tail = [] \/ is_prefix sep tail = true.

(** A character lower-casing leaves as it is, in any context. *)
Definition lowered (db : UnicodeData) (d : N) : Prop :=
  d <> capital_sigma /\ to_lower_full db d = [d].

(** A character the transliteration strips from the ends of a word. *)
Definition stripped_char (d : N) : Prop :=
  In d (leading_chars ++ trailing_chars).

(** Lower-casing: a mapping is never empty; it keeps whitespace and does
    not produce any; what it produces is lower-cased already; it produces
    none of the punctuation marks the engine strips from words; whitespace
    is neither cased nor case-ignorable. *)
Record lower_sound (db : UnicodeData) : Prop := {
  lower_nonempty :
    forall c, is_ascii c = false -> ToLowerFull db c <> [];
  lower_space :
    forall c, is_ascii c = false -> isspace c = true -> ToLowerFull db c = [c];
  lower_nospace :
    forall c d, is_ascii c = false -> isspace c = false ->
                In d (ToLowerFull db c) -> isspace d = false;
  lower_stable :
    forall c d, is_ascii c = false -> c <> capital_sigma ->
                In d (ToLowerFull db c) ->
                d <> capital_sigma /\ to_lower_full db d = [d];
  sigma_stable :
    ToLowerFull db final_small_sigma = [final_small_sigma]
    /\ ToLowerFull db small_sigma = [small_sigma];
  lower_punct :
    forall c, is_ascii c = false ->
              Forall stripped_char (ToLowerFull db c) ->
              ToLowerFull db c = [c];
  space_uncased :
    forall c, is_ascii c = false -> isspace c = true ->
              IsCased db c = false /\ IsCaseIgnorable db c = false
}.

(** Upper-casing: a mapping is never empty; it produces no whitespace from
    a character that is none, no full stop and none of the symbols the
    cleanup removes; its first character is upper-cased already. *)
Record upper_sound (db : UnicodeData) : Prop := {
  upper_nonempty :
    forall c, is_ascii c = false -> ToUpperFull db c <> [];
  upper_nospace :
    forall c d, is_ascii c = false -> isspace c = false ->
                In d (ToUpperFull db c) -> isspace d = false;
  upper_nodot :
    forall c d, is_ascii c = false -> In d (ToUpperFull db c) -> d <> 46;
  upper_nosymbol :
    forall c d, is_ascii c = false -> In d (ToUpperFull db c) ->
                is_symbol d = false;
  upper_stable :
    forall c d rest, is_ascii c = false -> ToUpperFull db c = d :: rest ->
                     to_upper_full db d = [d]
}.

(** Case analysis on the comparisons of code points in the goal. *)
Ltac code_point_cases :=
  repeat match goal with
         | |- context [N.leb ?a ?b] => destruct (N.leb_spec a b)
         | |- context [N.ltb ?a ?b] => destruct (N.ltb_spec a b)
         end;
  cbn [andb orb negb] in *.

(** ** Further notions for the properties of the engines *)

(** The Devanagari block, U+0900 to U+097F. *)
Definition in_devanagari_block (c : N) : bool := (2304 <=? c) && (c <=? 2431).

(** A stretch of a word as the loop of [_transliterate_word_advanced] reads
    it: a key of the phonetic table, which the loop replaces by the value
    mapped to it, or a character that is no key, which the loop keeps. *)
Inductive piece :=
| KeyPiece (key mapped : pystr)
| CharPiece (char : N).

Definition piece_source (p : piece) : pystr :=
  match p with
  | KeyPiece key _ => key
  | CharPiece char => [char]
  end.

Definition piece_output (p : piece) : pystr :=
  match p with
  | KeyPiece _ mapped => mapped
  | CharPiece char => [char]
  end.

Definition piece_valid (p : piece) : Prop :=
  match p with
  | KeyPiece key mapped =>
    dict_get key eng_to_dev_map = Some mapped
    /\ (1 <= List.length key <= 8)%nat
  | CharPiece char => dict_get [char] eng_to_dev_map = None
  end.

(** What the table guarantees of an entry: the key has one to eight
    characters and starts with a lower-case ASCII letter, the value is not
    empty and is written in the Devanagari block. *)
Definition entry_ok (kv : pystr * pystr) : bool :=
  (1 <=? List.length (fst kv))%nat && (List.length (fst kv) <=? 8)%nat
  && match fst kv with
     | [] => false
     | c :: _ => ascii_lower_letter c
     end
  && negb (Nat.eqb (List.length (snd kv)) 0)
  && forallb in_devanagari_block (snd kv).

(** The characters of the Devanagari block have no case: lower-casing
    leaves each of them as it is. *)
Definition devanagari_caseless (db : UnicodeData) : Prop :=
  forall c, in_devanagari_block c = true -> ToLowerFull db c = [c].

(** ** The basic romanization table and [_manual_hindi_to_roman] *)

(** [self.hindi_to_roman_map] *)
Definition hindi_to_roman_map : dict := entries [
  ("अ", "a"); ("आ", "aa"); ("इ", "i"); ("ई", "ee"); ("उ", "u"); ("ऊ", "oo");
  ("ए", "e"); ("ऐ", "ai"); ("ओ", "o"); ("औ", "au"); ("अं", "an"); ("अः", "ah");
  ("क", "k"); ("ख", "kh"); ("ग", "g"); ("घ", "gh"); ("ङ", "ng");
  ("च", "ch"); ("छ", "chh"); ("ज", "j"); ("झ", "jh"); ("ञ", "ny");
  ("ट", "t"); ("ठ", "th"); ("ड", "d"); ("ढ", "dh"); ("ण", "n");
  ("त", "t"); ("थ", "th"); ("द", "d"); ("ध", "dh"); ("न", "n");
  ("प", "p"); ("फ", "ph"); ("ब", "b"); ("भ", "bh"); ("म", "m");
  ("य", "y"); ("र", "r"); ("ल", "l"); ("व", "v"); ("श", "sh");
  ("ष", "sh"); ("स", "s"); ("ह", "h"); ("क्ष", "ksh"); ("त्र", "tr");
  ("ज्ञ", "gya"); ("ऋ", "ri"); ("ॐ", "om")
]%string.

(** The entries of a table a lookup of one character can reach. *)
Definition single_character_entries (d : dict) : dict :=
  filter (fun kv => Nat.eqb (List.length (fst kv)) 1) d.

Definition option_str_eqb (a b : option pystr) : bool :=
  match a, b with
  | Some x, Some y => str_eqb x y
  | None, None => true
  | _, _ => false
  end.

Section ManualRomanization.

Context (db : UnicodeData).

(** [_PyUnicode_ToTitleFull] outside ASCII. *)
Context (ToTitleFull : N -> pystr).

Definition to_title_full (c : N) : pystr :=
  if is_ascii c then [if ascii_lower_letter c then c - 32 else c]
  else ToTitleFull c.

(** CPython's [do_title], over the part [s] of a string that has [before]
    (nearest first) in front of it: a character is lower-cased after a
    cased character and title-cased otherwise. *)
Fixpoint title_from (previous_is_cased : bool) (before s : pystr) : pystr :=
  match s with
  | [] => []
  | c :: rest =>
    (if previous_is_cased then lower_ucs4 db before c rest
     else to_title_full c)
    ++ title_from (is_cased db c) (c :: before) rest
  end.

(** [s.title()] *)
Definition title (s : pystr) : pystr := title_from false [] s.

(** The body of [for char in hindi_text] in [_manual_hindi_to_roman]. *)
Definition romanize_char_basic (char : N) : pystr :=
  match dict_get [char] hindi_to_roman_map with
  | Some roman => roman
  | None => if isspace char || negb (isalpha db char) then [char] else [char]
  end.

(** [result] when the loop of [_manual_hindi_to_roman] is over. *)
Definition basic_loop (hindi_text : pystr) : pystr :=
  fold_left (fun result char => result ++ romanize_char_basic char)
            hindi_text [].

Definition _manual_hindi_to_roman (hindi_text : pystr) : pystr :=
  title (basic_loop hindi_text).

End ManualRomanization.

(** ** The translation step and the pipeline *)

(** The prompt of [english_to_hindi_translation], up to the text. *)
Definition prompt_head : pystr :=
  concat [
    newline;
    py "You are an expert English to Hindi translator with deep knowledge of both languages.";
    newline;
    py "Your task is to translate the given English text to natural, fluent Hindi.";
    newline;
    newline;
    py "Guidelines:";
    newline;
    py "- Provide accurate and contextually appropriate Hindi translation";
    newline;
    py "- Maintain the original meaning and tone";
    newline;
    py "- Use proper Hindi grammar and sentence structure";
    newline;
    py "- Keep the same paragraph structure and line breaks as the original";
    newline;
    py "- Return only the Hindi translation without any explanations";
    newline;
    newline;
    py "English Text to Translate:";
    newline
  ].

(** The prompt of [english_to_hindi_translation], after the text. *)
Definition prompt_tail : pystr :=
  concat [
    newline;
    newline;
    py "Hindi Translation:";
    newline
  ].

(** The calls of [english_to_hindi_translation] and [transform_text] to the
    services they use, and the errors they show, in the order they occur;
    the log of the romanization is kept as it is. *)
Inductive call :=
| GeminiCalled (prompt : pystr)
| TranslatorCalled (text src dest : pystr)
| ErrorShown (message : pystr)
| RomanizerLogged (ev : event).

Definition P (A : Type) : Type := list call -> outcome A * list call.

Definition p_ret {A} (a : A) : P A := fun log => (Returned a, log).

Definition p_bind {A B} (m : P A) (k : A -> P B) : P B :=
  fun log =>
    match m log with
    | (Returned a, log') => k a log'
    | (Raised e, log') => (Raised e, log')
    end.

Definition p_emit (c : call) : P unit := fun log => (Returned tt, log ++ [c]).

(** [try: body  except Exception as e: handler(e)] *)
Definition p_try {A} (body : P A) (handler : exception -> P A) : P A :=
  fun log =>
    match body log with
    | (Returned a, log') => (Returned a, log')
    | (Raised e, log') => handler e log'
    end.

(** A call of the romanization inside the pipeline. *)
Definition lift_romanizer {A} (m : M A) : P A :=
  fun log =>
    match m [] with
    | (result, events) => (result, log ++ map RomanizerLogged events)
    end.

(** What [transform_text] returns: the dictionary [results] with its three
    keys. *)
Record results := {
  english_devanagari : pystr;
  hindi_devanagari : pystr;
  hindi_roman : pystr
}.

Section Pipeline.

Context (db : UnicodeData).

(** [self.use_gemini], as [__init__] leaves it. *)
Context (use_gemini : bool).

(** [self.model.generate_content(prompt).text]: returns the text of the
    response or raises. *)
Context (generate_content : pystr -> outcome pystr).

(** [self.translator.translate(text, src=..., dest=...).text] *)
Context (translate : pystr -> pystr -> pystr -> outcome pystr).

(** [transliterate] of the indic_transliteration library. *)
Context (transliterate : pystr -> outcome pystr).

Definition call_gemini (prompt : pystr) : P pystr :=
  p_bind (p_emit (GeminiCalled prompt))
         (fun _ log => (generate_content prompt, log)).

Definition call_translator (text src dest : pystr) : P pystr :=
  p_bind (p_emit (TranslatorCalled text src dest))
         (fun _ log => (translate text src dest, log)).

Definition _translate_with_googletrans (text : pystr) : P pystr :=
  p_try
    (call_translator text (py "en") (py "hi"))
    (fun e =>
       p_bind (p_emit (ErrorShown (py "Translation error: " ++ e)))
              (fun _ => p_ret (py "Translation failed"))).

Definition english_to_hindi_translation (text : pystr) : P pystr :=
  if use_gemini then
    p_try
      (p_bind (call_gemini (prompt_head ++ text ++ prompt_tail))
              (fun response_text => p_ret (strip response_text)))
      (fun e =>
         p_bind (p_emit (ErrorShown (py "Gemini API error: " ++ e)))
                (fun _ => _translate_with_googletrans text))
  else _translate_with_googletrans text.

Definition get_gemini_response (input_prompt : pystr) : P pystr :=
  p_try
    (call_gemini input_prompt)
    (fun e =>
       p_bind (p_emit (ErrorShown (py "Gemini API Error: " ++ e)))
              (fun _ => p_ret (py "Error getting response from Gemini API"))).

(** [transform_text]; the spinner shown meanwhile is left out. *)
Definition transform_text (input_text : pystr) : P results :=
  let eng_devanagari := english_to_devanagari_transliteration db input_text in
  p_bind (english_to_hindi_translation input_text) (fun hindi =>
  p_bind (lift_romanizer
            (hindi_to_roman_transliteration db transliterate hindi))
         (fun roman =>
  p_ret {| english_devanagari := eng_devanagari;
           hindi_devanagari := hindi;
           hindi_roman := roman |})).

End Pipeline.

(** ** The choice of the translation service in [__init__] *)

(** [model_names] *)
Definition model_names : list pystr :=
  [py "gemini-1.5-flash"; py "gemini-1.5-pro"; py "gemini-pro";
   py "gemini-1.0-pro"].

(** The calls [__init__] makes to the Gemini library and the messages it
    shows. *)
Inductive init_event :=
| ConfigureCalled (api_key : pystr)
| ModelConstructed (model_name : pystr)
| ModelTested (model_name : pystr)
| SuccessShown (message : pystr)
| WarningShown (message : pystr)
| InfoShown (message : pystr).

(** [self.use_gemini] and the name of the model [self.model] was built
    for, when the attribute is set. *)
Record transformer := {
  self_use_gemini : bool;
  self_model : option pystr
}.

(** [api_key and api_key.strip() and not api_key.startswith('your_')] *)
Definition key_usable (api_key : option pystr) : bool :=
  match api_key with
  | None => false
  | Some key =>
    match key with
    | [] => false
    | _ :: _ =>
      match strip key with
      | [] => false
      | _ :: _ => negb (is_prefix (py "your_") key)
      end
    end
  end.

Section Init.

(** [genai.configure(api_key=...)] *)
Context (configure : pystr -> outcome unit).

(** [genai.GenerativeModel(model_name)] *)
Context (GenerativeModel : pystr -> outcome unit).

(** [self.model.generate_content("Test")] for the model of that name. *)
Context (test_model : pystr -> outcome unit).

(** The model can be built and answers the test. *)
Definition model_works (model_name : pystr) : bool :=
  match GenerativeModel model_name, test_model model_name with
  | Returned _, Returned _ => true
  | _, _ => false
  end.

(** [for model_name in model_names]: whether [self.use_gemini] was set,
    [self.model] and the log when the loop is left. *)
Fixpoint try_models (names : list pystr) (model : option pystr)
         (log : list init_event) : bool * option pystr * list init_event :=
  match names with
  | [] => (false, model, log)
  | model_name :: rest =>
    match GenerativeModel model_name with
    | Raised _ => try_models rest model (log ++ [ModelConstructed model_name])
    | Returned _ =>
      match test_model model_name with
      | Raised _ =>
        try_models rest (Some model_name)
                   (log ++ [ModelConstructed model_name; ModelTested model_name])
      | Returned _ =>
        (true, Some model_name,
         log ++ [ModelConstructed model_name; ModelTested model_name;
                 SuccessShown
                   (py "✅ Google Gemini API connected successfully with model: "
                    ++ model_name)])
      end
    end
  end.

Definition key_issue (e : exception) : init_event :=
  WarningShown (py "⚠️ Google API key issue: " ++ e
                ++ py ". Using Google Translate as fallback.").

(** The part of [__init__] that sets [self.use_gemini] and [self.model],
    for the value [api_key] of [os.getenv('GOOGLE_API_KEY')]. *)
Definition __init__ (api_key : option pystr) : transformer * list init_event :=
  match api_key with
  | Some key =>
    if key_usable api_key then
      match configure key with
      | Raised e =>
        ({| self_use_gemini := false; self_model := None |},
         [ConfigureCalled key; key_issue e])
      | Returned _ =>
        match try_models model_names None [ConfigureCalled key] with
        | (true, model, log) =>
          ({| self_use_gemini := true; self_model := model |}, log)
        | (false, model, log) =>
          ({| self_use_gemini := false; self_model := model |},
           log ++ [key_issue (py "No working Gemini model found")])
        end
      end
    else
      ({| self_use_gemini := false; self_model := None |},
       [match key with
        | [] => InfoShown (py "ℹ️ No Google API key found in .env file. Using Google Translate.")
        | _ :: _ => WarningShown (py "⚠️ Invalid Google API key format. Using Google Translate as fallback.")
        end])
  | None =>
    ({| self_use_gemini := false; self_model := None |},
     [InfoShown (py "ℹ️ No Google API key found in .env file. Using Google Translate.")])
  end.

End Init.

(** * Properties *)

(** ** Strings and dictionaries *)

Lemma str_eqb_eq (a b : pystr) : str_eqb a b = true <-> a = b.
Proof.
  revert b; induction a as [|x a IH]; intros [|y b]; simpl; split;
    try congruence; try reflexivity.
  - intros H. apply andb_true_iff in H as [Hx Hab].
    apply N.eqb_eq in Hx. apply IH in Hab. congruence.
  - intros H. injection H as -> ->.
    apply andb_true_iff. split; [apply N.eqb_refl | now apply IH].
Qed.

Lemma str_eqb_refl (a : pystr) : str_eqb a a = true.
Proof. now apply str_eqb_eq. Qed.

Lemma in_str_In (c : N) (chars : pystr) : in_str c chars = true <-> In c chars.
Proof.
  unfold in_str. rewrite existsb_exists. split.
  - intros (x & Hx & Heq). apply N.eqb_eq in Heq. now subst.
  - intros H. exists c. split; [assumption | apply N.eqb_refl].
Qed.

Lemma slice_length (s : pystr) (i len : nat) :
  (i + len <= List.length s)%nat -> List.length (slice s i (i + len)) = len.
Proof.
  intros H. unfold slice. rewrite length_firstn, length_skipn. lia.
Qed.

Lemma slice_one (s : pystr) (i : nat) :
  (i < List.length s)%nat -> slice s i (i + 1) = [nth i s 0].
Proof.
  unfold slice. replace (i + 1 - i)%nat with 1%nat by lia.
  revert i; induction s as [|c s IH]; intros i H; simpl in H; [lia|].
  destruct i as [|i]; [reflexivity|].
  simpl skipn. simpl nth. apply IH. lia.
Qed.

(** ** The loop of [_transliterate_word_advanced] *)

Lemma try_lengths_some (word : pystr) (i n len : nat) (mapped : pystr) :
  try_lengths word i n = Some (len, mapped) ->
  (1 <= len <= n)%nat /\ (i + len <= List.length word)%nat
  /\ dict_get (slice word i (i + len)) eng_to_dev_map = Some mapped
  /\ forall l, (len < l <= n)%nat -> (i + l <= List.length word)%nat ->
       dict_get (slice word i (i + l)) eng_to_dev_map = None.
Proof.
  induction n as [|n IH]; cbn [try_lengths]; [discriminate|].
  destruct (Nat.leb_spec (i + S n) (List.length word)) as [Hle|Hgt].
  - destruct (dict_get (slice word i (i + S n)) eng_to_dev_map) as [m|] eqn:Hget.
    + intros H. injection H as <- <-.
      repeat split; try lia; try assumption.
    + intros H. destruct (IH H) as (Hlen & Hin & Hmap & Hmax).
      repeat split; try lia; try assumption.
      intros l Hl Hfit. destruct (Nat.eq_dec l (S n)) as [->|Hne];
        [assumption | apply Hmax; lia].
  - intros H. destruct (IH H) as (Hlen & Hin & Hmap & Hmax).
    repeat split; try lia; try assumption.
    intros l Hl Hfit. apply Hmax; lia.
Qed.

Lemma try_lengths_none (word : pystr) (i n : nat) :
  try_lengths word i n = None ->
  forall l, (1 <= l <= n)%nat -> (i + l <= List.length word)%nat ->
    dict_get (slice word i (i + l)) eng_to_dev_map = None.
Proof.
  induction n as [|n IH]; cbn [try_lengths]; intros H l Hl Hfit; [lia|].
  destruct (Nat.leb_spec (i + S n) (List.length word)) as [Hle|Hgt].
  - destruct (dict_get (slice word i (i + S n)) eng_to_dev_map) as [m|] eqn:Hget;
      [discriminate|].
    destruct (Nat.eq_dec l (S n)) as [->|Hne]; [assumption | apply IH; [assumption|lia|assumption]].
  - apply IH; [assumption|lia|assumption].
Qed.

(** The longest length at most [n] whose substring is in the table is the
    one [try_lengths] returns. *)
Lemma try_lengths_longest (word : pystr) (i n len : nat) (mapped : pystr) :
  (1 <= len <= n)%nat -> (i + len <= List.length word)%nat ->
  dict_get (slice word i (i + len)) eng_to_dev_map = Some mapped ->
  (forall l, (len < l <= n)%nat -> (i + l <= List.length word)%nat ->
     dict_get (slice word i (i + l)) eng_to_dev_map = None) ->
  try_lengths word i n = Some (len, mapped).
Proof.
  intros Hlen Hfit Hmap Hmax.
  destruct (try_lengths word i n) as [[len' mapped']|] eqn:Htry.
  - destruct (try_lengths_some _ _ _ _ _ Htry) as (Hlen' & Hfit' & Hmap' & Hmax').
    destruct (Nat.lt_trichotomy len len') as [Hlt|[->|Hlt]].
    + rewrite (Hmax len') in Hmap' by lia. discriminate.
    + congruence.
    + rewrite (Hmax' len) in Hmap by lia. discriminate.
  - rewrite (try_lengths_none _ _ _ Htry len) in Hmap by lia. discriminate.
Qed.

Section TransliterationLoop.

Context (db : UnicodeData).

Lemma iteration_advances (word : pystr) (i : nat) :
  (1 <= snd (iteration db word i))%nat.
Proof.
  unfold iteration.
  destruct (try_lengths word i (Nat.min 8 (List.length word - i)))
    as [[len mapped]|] eqn:Htry.
  - apply try_lengths_some in Htry. simpl. lia.
  - repeat match goal with
           | |- context [if ?b then _ else _] => destruct b
           | |- context [match ?o with Some _ => _ | None => _ end] => destruct o
           end; simpl; lia.
Qed.

Lemma while_loop_fuel_irrelevant (fuel fuel' : nat) (word : pystr) (i : nat)
      (result : pystr) (trace : list branch) :
  (List.length word - i <= fuel)%nat -> (List.length word - i <= fuel')%nat ->
  while_loop db fuel word i result trace
  = while_loop db fuel' word i result trace.
Proof.
  revert fuel' i result trace.
  induction fuel as [|fuel IH]; intros [|fuel'] i result trace Hfuel Hfuel';
    cbn [while_loop]; try reflexivity;
    destruct (Nat.ltb_spec i (List.length word)) as [Hlt|Hge];
    try reflexivity; try lia.
  pose proof (iteration_advances word i) as Hadv.
  destruct (iteration db word i) as [[b out] step]. simpl in Hadv.
  apply IH; lia.
Qed.

(** More fuel than [len(word) - i] is never used: the loop is left because
    its condition fails. *)
Lemma while_loop_fuel (fuel : nat) (word : pystr) (i : nat)
      (result : pystr) (trace : list branch) :
  (List.length word - i <= fuel)%nat ->
  while_loop db fuel word i result trace
  = while_loop db (List.length word - i) word i result trace.
Proof.
  intros H. apply while_loop_fuel_irrelevant; lia.
Qed.

Lemma while_loop_exit (fuel : nat) (word : pystr) (i : nat)
      (result : pystr) (trace : list branch) :
  (List.length word <= i)%nat ->
  while_loop db fuel word i result trace = (result, trace).
Proof.
  intros H. destruct fuel; simpl; [reflexivity|].
  destruct (Nat.ltb_spec i (List.length word)); [lia|reflexivity].
Qed.

(** One turn of the loop, when there is fuel for the rest of the word. *)
Lemma while_loop_turn (fuel : nat) (word : pystr) (i : nat)
      (result : pystr) (trace : list branch) :
  (i < List.length word)%nat -> (List.length word - i <= fuel)%nat ->
  while_loop db fuel word i result trace
  = let '(b, out, step) := iteration db word i in
    while_loop db fuel word (i + step) (result ++ out) (trace ++ [b]).
Proof.
  intros Hlt Hfuel.
  rewrite (while_loop_fuel_irrelevant fuel (S fuel)) by lia.
  cbn [while_loop]. destruct (Nat.ltb_spec i (List.length word)); [|lia].
  reflexivity.
Qed.

End TransliterationLoop.

(** ** Splitting a word into prefix, core and suffix *)

Lemma extract_leading_spec (prefix clean_word prefix' core : pystr) :
  extract_leading prefix clean_word = (prefix', core) ->
  exists stripped,
    prefix' = prefix ++ stripped /\ clean_word = stripped ++ core
    /\ Forall (fun c => in_str c leading_chars = true) stripped
    /\ (forall c rest, core = c :: rest -> in_str c leading_chars = false).
Proof.
  revert prefix; induction clean_word as [|c w IH]; intros prefix; cbn [extract_leading].
  - intros H; injection H as <- <-. exists []. rewrite app_nil_r.
    repeat split; [constructor | discriminate].
  - destruct (in_str c leading_chars) eqn:Hc.
    + intros H. destruct (IH _ H) as (stripped & -> & -> & Hall & Hmax).
      exists (c :: stripped). rewrite <- app_assoc. repeat split; auto.
    + intros H; injection H as <- <-. exists []. rewrite app_nil_r.
      repeat split; [constructor|]. intros c' rest Heq. congruence.
Qed.

Lemma extract_trailing_rev_spec (rev_word suffix rev_core suffix' : pystr) :
  extract_trailing_rev rev_word suffix = (rev_core, suffix') ->
  exists stripped,
    suffix' = stripped ++ suffix /\ rev rev_word = rev rev_core ++ stripped
    /\ Forall (fun c => in_str c trailing_chars = true) stripped
    /\ (forall c rest, rev_core = c :: rest -> in_str c trailing_chars = false).
Proof.
  revert suffix; induction rev_word as [|c w IH]; intros suffix;
    cbn [extract_trailing_rev].
  - intros H; injection H as <- <-. exists [].
    repeat split; [constructor | discriminate].
  - destruct (in_str c trailing_chars) eqn:Hc.
    + intros H. destruct (IH _ H) as (stripped & -> & Hrev & Hall & Hmax).
      exists (stripped ++ [c]). rewrite <- app_assoc. cbn [rev].
      rewrite Hrev, <- app_assoc. repeat split; auto.
      apply Forall_app. auto.
    + intros H; injection H as <- <-. exists [].
      rewrite app_nil_r. repeat split; [constructor|].
      intros c' rest Heq. congruence.
Qed.

Lemma extract_trailing_spec (clean_word core suffix : pystr) :
  extract_trailing clean_word = (core, suffix) ->
  clean_word = core ++ suffix
  /\ Forall (fun c => in_str c trailing_chars = true) suffix
  /\ (forall c front, core = front ++ [c] -> in_str c trailing_chars = false).
Proof.
  unfold extract_trailing.
  destruct (extract_trailing_rev (rev clean_word) []) as [rev_core suffix'] eqn:H.
  intros Heq; injection Heq as <- <-.
  destruct (extract_trailing_rev_spec _ _ _ _ H) as (stripped & -> & Hrev & Hall & Hmax).
  rewrite rev_involutive in Hrev. rewrite app_nil_r.
  repeat split; auto.
  intros c front Heq. apply (Hmax c (rev front)).
  rewrite <- (rev_involutive rev_core), Heq, rev_app_distr. reflexivity.
Qed.

Section Tokens.

Context (db : UnicodeData).

(** The three parts of a token rebuild the lower-cased word; the prefix and
    the suffix are made of the stripped characters and are maximal. *)
Lemma tokenize_spec (word : pystr) :
  let t := tokenize db word in
  lower db word = tok_prefix t ++ tok_core t ++ tok_suffix t
  /\ Forall (fun c => in_str c leading_chars = true) (tok_prefix t)
  /\ Forall (fun c => in_str c trailing_chars = true) (tok_suffix t)
  /\ (forall c rest, tok_core t ++ tok_suffix t = c :: rest ->
        in_str c leading_chars = false)
  /\ (forall c front, tok_core t = front ++ [c] ->
        in_str c trailing_chars = false).
Proof.
  unfold tokenize.
  destruct (extract_leading [] (lower db word)) as [prefix rest] eqn:Hlead.
  destruct (extract_trailing rest) as [core suffix] eqn:Htrail.
  cbn [tok_prefix tok_core tok_suffix].
  destruct (extract_leading_spec _ _ _ _ Hlead) as (stripped & -> & Hw & Hall & Hmax).
  destruct (extract_trailing_spec _ _ _ Htrail) as (-> & Hall' & Hmax').
  cbn [app]. repeat split; auto.
Qed.

Lemma transliterate_word_empty_core (word : pystr) :
  tok_core (tokenize db word) = [] -> transliterate_word db word = word.
Proof. unfold transliterate_word. now intros ->. Qed.

Lemma transliterate_word_core (word : pystr) :
  tok_core (tokenize db word) <> [] ->
  transliterate_word db word
  = tok_prefix (tokenize db word)
    ++ match dict_get (tok_core (tokenize db word)) eng_to_dev_map with
       | Some mapped => mapped
       | None => _transliterate_word_advanced db (tok_core (tokenize db word))
       end
    ++ tok_suffix (tokenize db word).
Proof.
  unfold transliterate_word. destruct (tok_core (tokenize db word)) as [|c core];
    [congruence|]. intros _.
  now destruct (dict_get (c :: core) eng_to_dev_map).
Qed.

End Tokens.

(** C1. Whole-word precedence: a token whose core is a key of the phonetic
    table is emitted as prefix, then the value mapped to that key, then
    suffix, whatever shorter keys the core contains; "the boy" gives
    "द बॉय" and "think" the value of the key "think". *)
Theorem whole_word_precedence (db : UnicodeData) :
  (forall word mapped,
     dict_get (tok_core (tokenize db word)) eng_to_dev_map = Some mapped ->
     transliterate_word db word
     = tok_prefix (tokenize db word) ++ mapped ++ tok_suffix (tokenize db word))
  /\ english_to_devanagari_transliteration db (py "the boy") = py "द बॉय"
  /\ dict_get (py "think") eng_to_dev_map
     = Some (english_to_devanagari_transliteration db (py "think")).
Proof.
  split; [|split; vm_compute; reflexivity].
  intros word mapped Hkey.
  rewrite transliterate_word_core.
  - now rewrite Hkey.
  - intros Hempty. rewrite Hempty in Hkey. discriminate.
Qed.

Lemma whole_word_precedence_witness :
  transliterate_word devanagari_db (dquote :: py "The,")
  = [dquote] ++ py "द" ++ py ",".
Proof.
  apply (proj1 (whole_word_precedence devanagari_db) (dquote :: py "The,") (py "द")).
  vm_compute. reflexivity.
Defined.

(** C2. Greedy longest match: at a position [i] of the word, the loop of
    [_transliterate_word_advanced] takes the longest substring of length at
    most [min(8, len(word) - i)] that is a key of the table, appends the
    value mapped to it and moves [i] past it; so "the" gives the value of
    the key "the", not the values of "t", "h" and "e" one after the other. *)
Theorem greedy_longest_match (db : UnicodeData) (word : pystr) (i len : nat)
        (mapped : pystr) :
  (i < List.length word)%nat ->
  (1 <= len <= Nat.min 8 (List.length word - i))%nat ->
  dict_get (slice word i (i + len)) eng_to_dev_map = Some mapped ->
  (forall l, (len < l <= Nat.min 8 (List.length word - i))%nat ->
     dict_mem (slice word i (i + l)) eng_to_dev_map = false) ->
  iteration db word i = (Matched len, mapped, len)
  /\ (forall fuel result trace,
        (List.length word - i <= fuel)%nat ->
        while_loop db fuel word i result trace
        = while_loop db fuel word (i + len) (result ++ mapped)
                     (trace ++ [Matched len]))
  /\ dict_get (py "the") eng_to_dev_map
     = Some (_transliterate_word_advanced db (py "the"))
  /\ transliterate_word db (py "the")
     = _transliterate_word_advanced db (py "the")
  /\ (forall t h e,
        dict_get (py "t") eng_to_dev_map = Some t ->
        dict_get (py "h") eng_to_dev_map = Some h ->
        dict_get (py "e") eng_to_dev_map = Some e ->
        _transliterate_word_advanced db (py "the") <> t ++ h ++ e).
Proof.
  intros Hi Hlen Hmap Hmax.
  assert (Hit : iteration db word i = (Matched len, mapped, len)).
  { unfold iteration.
    rewrite (try_lengths_longest word i _ len mapped);
      [reflexivity | lia | lia | assumption |].
    intros l Hl Hfit. specialize (Hmax l Hl). unfold dict_mem in Hmax.
    now destruct (dict_get (slice word i (i + l)) eng_to_dev_map). }
  split; [assumption|]. split; [|split; [|split]].
  - intros fuel result trace Hfuel.
    rewrite while_loop_turn by assumption. now rewrite Hit.
  - vm_compute. reflexivity.
  - vm_compute. reflexivity.
  - intros t h e Ht Hh He.
    vm_compute in Ht, Hh, He. injection Ht as <-. injection Hh as <-.
    injection He as <-. vm_compute. discriminate.
Qed.

Lemma greedy_longest_match_witness :
  iteration devanagari_db (py "the") 0 = (Matched 3, py "द", 3%nat).
Proof.
  apply (greedy_longest_match devanagari_db (py "the") 0 3 (py "द")).
  - vm_compute. lia.
  - vm_compute. lia.
  - vm_compute. reflexivity.
  - intros l Hl. vm_compute in Hl. lia.
Defined.

(** C3. Punctuation round trip: the lower-cased word is prefix, core and
    suffix in this order, where the prefix is the longest run of leading
    characters among the double quote, the apostrophe and the opening
    parenthesis and the suffix the longest run of trailing punctuation, each
    in the order of the word; a word with an empty core is emitted as it is,
    any other as prefix, transliterated core, suffix; the word made of a
    double quote, "hello" and "!" gives the double quote, the transliterated
    "hello" and "!". *)
Theorem punctuation_round_trip (db : UnicodeData) (word : pystr) :
  let t := tokenize db word in
  lower db word = tok_prefix t ++ tok_core t ++ tok_suffix t
  /\ Forall (fun c => In c leading_chars) (tok_prefix t)
  /\ Forall (fun c => In c trailing_chars) (tok_suffix t)
  /\ (forall c rest, tok_core t ++ tok_suffix t = c :: rest ->
        ~ In c leading_chars)
  /\ (forall c front, tok_core t = front ++ [c] -> ~ In c trailing_chars)
  /\ (tok_core t = [] -> transliterate_word db word = word)
  /\ (tok_core t <> [] ->
      transliterate_word db word
      = tok_prefix t
        ++ match dict_get (tok_core t) eng_to_dev_map with
           | Some mapped => mapped
           | None => _transliterate_word_advanced db (tok_core t)
           end
        ++ tok_suffix t)
  /\ dict_get (py "hello") eng_to_dev_map = None
  /\ english_to_devanagari_transliteration db (dquote :: py "hello!")
     = [dquote] ++ _transliterate_word_advanced db (py "hello") ++ py "!".
Proof.
  intros t.
  destruct (tokenize_spec db word) as (Hword & Hpre & Hsuf & Hmaxp & Hmaxs).
  fold t in Hword, Hpre, Hsuf, Hmaxp, Hmaxs.
  split; [assumption|].
  split; [eapply Forall_impl; [|exact Hpre]; intros c; apply in_str_In|].
  split; [eapply Forall_impl; [|exact Hsuf]; intros c; apply in_str_In|].
  split.
  { intros c rest Heq Hin. apply in_str_In in Hin.
    rewrite (Hmaxp c rest Heq) in Hin. discriminate. }
  split.
  { intros c front Heq Hin. apply in_str_In in Hin.
    rewrite (Hmaxs c front Heq) in Hin. discriminate. }
  split; [apply transliterate_word_empty_core|].
  split; [apply transliterate_word_core|].
  split; vm_compute; reflexivity.
Qed.

Lemma punctuation_round_trip_witness :
  transliterate_word devanagari_db (py "(!)") = py "(!)".
Proof.
  destruct (punctuation_round_trip devanagari_db (py "(!)"))
    as (_ & _ & _ & _ & _ & Hverbatim & _).
  apply Hverbatim. vm_compute. reflexivity.
Defined.

(** ** Lower-case ASCII cores *)

Lemma lower_letters_in_table_check :
  forallb (fun c => dict_mem [N.of_nat c] eng_to_dev_map) (seq 97 26) = true.
Proof. vm_compute. reflexivity. Qed.

Lemma lower_letter_in_table (c : N) :
  ascii_lower_letter c = true -> dict_mem [c] eng_to_dev_map = true.
Proof.
  unfold ascii_lower_letter. intros H.
  apply andb_true_iff in H as [Hlo Hhi].
  apply N.leb_le in Hlo, Hhi.
  pose proof lower_letters_in_table_check as Hall.
  rewrite forallb_forall in Hall.
  specialize (Hall (N.to_nat c)). rewrite N2Nat.id in Hall.
  apply Hall. apply in_seq. lia.
Qed.

Section LowerCaseCores.

Context (db : UnicodeData) (core : pystr).
Hypothesis core_lower : Forall (fun c => ascii_lower_letter c = true) core.

Lemma core_nth_lower (i : nat) :
  (i < List.length core)%nat -> ascii_lower_letter (nth i core 0) = true.
Proof.
  intros Hi. rewrite Forall_forall in core_lower.
  apply core_lower. now apply nth_In.
Qed.

Lemma iteration_matches (i : nat) :
  (i < List.length core)%nat ->
  exists len mapped, iteration db core i = (Matched len, mapped, len).
Proof.
  intros Hi. unfold iteration.
  destruct (try_lengths core i (Nat.min 8 (List.length core - i)))
    as [[len mapped]|] eqn:Htry.
  - now exists len, mapped.
  - exfalso.
    pose proof (try_lengths_none _ _ _ Htry 1%nat) as Hnone.
    rewrite slice_one in Hnone by assumption.
    pose proof (lower_letter_in_table _ (core_nth_lower i Hi)) as Hmem.
    unfold dict_mem in Hmem. rewrite Hnone in Hmem; [discriminate|lia|lia].
Qed.

Lemma while_loop_matched (fuel i : nat) (result : pystr) (trace : list branch) :
  Forall is_matched trace ->
  Forall is_matched (snd (while_loop db fuel core i result trace)).
Proof.
  revert i result trace.
  induction fuel as [|fuel IH]; intros i result trace Htrace;
    cbn [while_loop]; [assumption|].
  destruct (Nat.ltb_spec i (List.length core)) as [Hi|Hi]; [|assumption].
  destruct (iteration_matches i Hi) as (len & mapped & ->).
  apply IH. apply Forall_app. split; [assumption|].
  constructor; [now exists len | constructor].
Qed.

End LowerCaseCores.

(** C10. Every lower-case ASCII letter is a key of the phonetic table; so
    on a core made of such letters every iteration of the loop of
    [_transliterate_word_advanced] finds a substring in the table, and the
    rules for 'y', for 'w', for a single character of the table and the two
    pass-through branches are never taken. *)
Theorem heuristics_unreachable_for_ascii_letters (db : UnicodeData) :
  (forall c, ascii_lower_letter c = true -> dict_mem [c] eng_to_dev_map = true)
  /\ forall core,
       Forall (fun c => ascii_lower_letter c = true) core ->
       (forall i, (i < List.length core)%nat ->
          exists len mapped, iteration db core i = (Matched len, mapped, len))
       /\ Forall (fun b => b <> YRule /\ b <> WRule /\ b <> SingleChar
                           /\ b <> PassAlpha /\ b <> PassOther)
                 (branches_taken db core).
Proof.
  split; [exact lower_letter_in_table|].
  intros core Hcore. split; [now apply iteration_matches|].
  unfold branches_taken, run_word.
  eapply Forall_impl;
    [|apply (while_loop_matched db core Hcore); constructor].
  intros b [len ->]. repeat split; discriminate.
Qed.

Lemma heuristics_unreachable_for_ascii_letters_witness :
  Forall (fun b => b <> YRule /\ b <> WRule /\ b <> SingleChar
                   /\ b <> PassAlpha /\ b <> PassOther)
         (branches_taken devanagari_db (py "yellow")).
Proof.
  apply (proj2 (heuristics_unreachable_for_ascii_letters devanagari_db)
               (py "yellow")).
  repeat constructor.
Defined.

(** ** The romanization paths *)

Section RomanizationPaths.

Context (db : UnicodeData).

Lemma manual_loop_acc (hindi_text result : pystr) :
  fold_left (fun result char => result ++ romanize_char db char) hindi_text result
  = result ++ flat_map (romanize_char db) hindi_text.
Proof.
  revert result; induction hindi_text as [|c text IH]; intros result; simpl.
  - now rewrite app_nil_r.
  - now rewrite IH, app_assoc.
Qed.

Lemma manual_loop_flat_map (hindi_text : pystr) :
  manual_loop db hindi_text = flat_map (romanize_char db) hindi_text.
Proof. unfold manual_loop. now rewrite manual_loop_acc. Qed.

Lemma romanize_char_unmapped (c : N) :
  dict_mem [c] enhanced_map = false -> romanize_char db c = [c].
Proof.
  unfold dict_mem, romanize_char.
  destruct (dict_get [c] enhanced_map); [discriminate|].
  now destruct (isspace c || negb (isalpha db c)).
Qed.

Lemma manual_loop_app (a b : pystr) :
  manual_loop db (a ++ b) = manual_loop db a ++ manual_loop db b.
Proof. rewrite !manual_loop_flat_map. apply flat_map_app. Qed.

Lemma manual_loop_unmapped (hindi_text : pystr) :
  Forall (fun c => dict_mem [c] enhanced_map = false) hindi_text ->
  manual_loop db hindi_text = hindi_text.
Proof.
  rewrite manual_loop_flat_map.
  induction 1 as [|c text Hc _ IH]; simpl; [reflexivity|].
  now rewrite romanize_char_unmapped, IH.
Qed.

End RomanizationPaths.

(** C6. Graceful degradation: when the primary romanization step raises,
    [hindi_to_roman_transliteration] reports the error, calls the fallback
    once, with the text it was given, and returns the string the fallback
    returns; when the step returns, its cleaned result is returned and the
    fallback is not called; in both cases a string is returned, nothing is
    raised. *)
Theorem graceful_degradation (db : UnicodeData)
        (transliterate : pystr -> outcome pystr) (hindi_text : pystr)
        (log : list event) :
  (forall e,
     transliterate hindi_text = Raised e ->
     hindi_to_roman_transliteration db transliterate hindi_text log
     = (Returned (_enhanced_manual_hindi_to_roman db hindi_text),
        log ++ [PrimaryCalled hindi_text;
                ErrorReported (py "Romanization error: " ++ e);
                FallbackCalled hindi_text]))
  /\ (forall roman_text,
        transliterate hindi_text = Returned roman_text ->
        hindi_to_roman_transliteration db transliterate hindi_text log
        = (Returned (_clean_romanization db roman_text),
           log ++ [PrimaryCalled hindi_text]))
  /\ exists roman log',
       hindi_to_roman_transliteration db transliterate hindi_text log
       = (Returned roman, log').
Proof.
  assert (Hraise : forall e,
     transliterate hindi_text = Raised e ->
     hindi_to_roman_transliteration db transliterate hindi_text log
     = (Returned (_enhanced_manual_hindi_to_roman db hindi_text),
        log ++ [PrimaryCalled hindi_text;
                ErrorReported (py "Romanization error: " ++ e);
                FallbackCalled hindi_text])).
  { intros e He.
    unfold hindi_to_roman_transliteration, try_except, call_transliterate,
      call_fallback, bind, emit, ret.
    rewrite He. now rewrite <- !app_assoc. }
  assert (Hreturn : forall roman_text,
        transliterate hindi_text = Returned roman_text ->
        hindi_to_roman_transliteration db transliterate hindi_text log
        = (Returned (_clean_romanization db roman_text),
           log ++ [PrimaryCalled hindi_text])).
  { intros roman_text Hr.
    unfold hindi_to_roman_transliteration, try_except, call_transliterate,
      bind, emit, ret.
    now rewrite Hr. }
  split; [assumption|]. split; [assumption|].
  destruct (transliterate hindi_text) as [roman_text|e] eqn:Hprimary.
  - eexists _, _. now apply Hreturn.
  - eexists _, _. now apply Hraise.
Qed.

Lemma graceful_degradation_witness :
  hindi_to_roman_transliteration devanagari_db (fun _ => Raised (py "failed"))
                                 (py "नमस्ते") []
  = (Returned (_enhanced_manual_hindi_to_roman devanagari_db (py "नमस्ते")),
     [PrimaryCalled (py "नमस्ते");
      ErrorReported (py "Romanization error: " ++ py "failed");
      FallbackCalled (py "नमस्ते")]).
Proof.
  apply (proj1 (graceful_degradation devanagari_db
                  (fun _ => Raised (py "failed")) (py "नमस्ते") [])
               (py "failed")).
  reflexivity.
Defined.

(** Against C7 as stated: the tilde is not a key of the fallback table, yet
    the fallback path does not pass it into its result, the cleanup pass
    removes it. *)
Lemma fallback_drops_tilde :
  dict_mem (py "~") enhanced_map = false
  /\ _enhanced_manual_hindi_to_roman devanagari_db (py "~") = [].
Proof. split; vm_compute; reflexivity. Qed.

(** C7 (amended). The fallback path is total.  Its loop passes every
    character that is not a key of the fallback table unchanged, and in
    place, into the intermediate result; the string returned is the cleanup
    pass applied to that intermediate result.  On a string with no key of
    the table the fallback is the cleanup pass applied to the string itself,
    and on the empty string it returns the empty string. *)
Theorem fallback_pass_through (db : UnicodeData) :
  (forall before c after,
     dict_mem [c] enhanced_map = false ->
     manual_loop db (before ++ c :: after)
     = manual_loop db before ++ c :: manual_loop db after)
  /\ (forall hindi_text,
        _enhanced_manual_hindi_to_roman db hindi_text
        = _clean_romanization db (manual_loop db hindi_text))
  /\ (forall hindi_text,
        Forall (fun c => dict_mem [c] enhanced_map = false) hindi_text ->
        manual_loop db hindi_text = hindi_text
        /\ _enhanced_manual_hindi_to_roman db hindi_text
           = _clean_romanization db hindi_text)
  /\ _enhanced_manual_hindi_to_roman db [] = [].
Proof.
  split; [|split; [|split]].
  - intros before c after Hc.
    rewrite manual_loop_app.
    change (c :: after) with ([c] ++ after).
    rewrite (manual_loop_app db [c] after), (manual_loop_unmapped db [c]);
      [reflexivity | now constructor].
  - reflexivity.
  - intros hindi_text Hall. split.
    + now apply manual_loop_unmapped.
    + unfold _enhanced_manual_hindi_to_roman.
      now rewrite manual_loop_unmapped.
  - vm_compute. reflexivity.
Qed.

Lemma fallback_pass_through_witness :
  manual_loop devanagari_db (py "?!…") = py "?!…".
Proof.
  apply (proj1 (proj2 (proj2 (fallback_pass_through devanagari_db))) (py "?!…")).
  repeat constructor.
Defined.

(** ** Prefixes, [split] and [join] *)

Lemma is_prefix_iff (p s : pystr) :
  is_prefix p s = true <-> exists t, s = p ++ t.
Proof.
  revert s; induction p as [|x p IH]; intros s; cbn [is_prefix].
  - split; [intros _; now exists s | reflexivity].
  - destruct s as [|y s].
    + split; [discriminate | intros [t Ht]; discriminate].
    + split.
      * intros H. apply andb_true_iff in H as [Hx Hp].
        apply N.eqb_eq in Hx. apply IH in Hp as [t ->]. subst. now exists t.
      * intros [t Ht]. injection Ht as -> ->.
        apply andb_true_iff. split; [apply N.eqb_refl|].
        apply IH. now exists t.
Qed.

Lemma is_prefix_app (p s t : pystr) :
  is_prefix p s = true -> is_prefix p (s ++ t) = true.
Proof.
  intros H. apply is_prefix_iff in H as [u ->].
  apply is_prefix_iff. exists (u ++ t). now rewrite app_assoc.
Qed.

Lemma is_prefix_nil (p : pystr) : p <> [] -> is_prefix p [] = false.
Proof. destruct p; [congruence | reflexivity]. Qed.

Lemma split_aux_skip (sep : pystr) (k : nat) (cur s : pystr) :
  split_aux sep k cur s = split_aux sep 0 cur (skipn k s).
Proof.
  revert k; induction s as [|c s IH]; intros [|k]; try reflexivity.
  cbn [split_aux skipn]. apply IH.
Qed.

Lemma split_aux_match (sep cur rest : pystr) :
  sep <> [] ->
  split_aux sep 0 cur (sep ++ rest) = rev cur :: split_aux sep 0 [] rest.
Proof.
  destruct sep as [|x sep]; [congruence|]. intros _.
  cbn [app split_aux].
  assert (Hp : is_prefix (x :: sep) (x :: sep ++ rest) = true).
  { apply is_prefix_iff. now exists rest. }
  rewrite Hp, split_aux_skip.
  replace (List.length (x :: sep) - 1)%nat with (List.length sep)
    by (simpl; lia).
  rewrite skipn_app, skipn_all, Nat.sub_diag. reflexivity.
Qed.

Lemma split_aux_free_prefix (sep l tail cur : pystr) :
  (forall p, (p < List.length l)%nat ->
     is_prefix sep (skipn p (l ++ tail)) = false) ->
  split_aux sep 0 cur (l ++ tail) = split_aux sep 0 (rev l ++ cur) tail.
Proof.
  revert cur; induction l as [|c l IH]; intros cur Hfree; [reflexivity|].
  cbn [app split_aux].
  assert (H0 : is_prefix sep (c :: l ++ tail) = false)
    by (apply (Hfree 0%nat); simpl; lia).
  rewrite H0, IH.
  - cbn [rev]. now rewrite <- app_assoc.
  - intros p Hp. apply (Hfree (S p)). simpl. lia.
Qed.

Lemma split_join (sep : pystr) (parts : list pystr) :
  sep <> [] -> parts <> [] ->
  (forall l tail p, In l parts -> follows sep tail ->
     (p < List.length l)%nat -> is_prefix sep (skipn p (l ++ tail)) = false) ->
  split sep (join sep parts) = parts.
Proof.
  intros Hsep Hne Hfree. unfold split.
  induction parts as [|l parts IH]; [congruence|].
  destruct parts as [|l' parts].
  - cbn [join]. rewrite <- (app_nil_r l) at 1.
    rewrite split_aux_free_prefix.
    + cbn [split_aux]. now rewrite app_nil_r, rev_involutive.
    + intros p Hp. apply Hfree; [now left | now left | assumption].
  - change (join sep (l :: l' :: parts))
      with (l ++ sep ++ join sep (l' :: parts)).
    rewrite split_aux_free_prefix.
    + rewrite split_aux_match by assumption.
      rewrite app_nil_r, rev_involutive. f_equal.
      apply IH; [discriminate|].
      intros l0 tail p Hin. apply Hfree. now right.
    + intros p Hp. apply Hfree; [now left | | assumption].
      right. apply is_prefix_iff. now eexists.
Qed.

Lemma split_nonempty (sep s : pystr) : split sep s <> [].
Proof.
  unfold split. generalize (@nil N) as cur. generalize 0%nat as k.
  induction s as [|c s IH]; intros k cur; cbn [split_aux]; [discriminate|].
  destruct k; [|apply IH].
  destruct (is_prefix sep (c :: s)); [discriminate | apply IH].
Qed.

Lemma skipn_app_le (p : nat) (a b : pystr) :
  (p <= List.length a)%nat -> skipn p (a ++ b) = skipn p a ++ b.
Proof.
  intros H. rewrite skipn_app.
  replace (p - List.length a)%nat with 0%nat by lia. reflexivity.
Qed.

(** The pieces [split] returns do not contain the separator. *)
Lemma split_aux_pieces_free (sep : pystr) (n : nat) :
  sep <> [] ->
  forall s cur,
    (List.length s <= n)%nat ->
    (forall p, (p < List.length cur)%nat ->
       is_prefix sep (skipn p (rev cur ++ s)) = false) ->
    forall piece, In piece (split_aux sep 0 cur s) -> sep_free sep piece.
Proof.
  intros Hsep. induction n as [|n IH]; intros s cur Hlen Hcur piece Hin.
  - destruct s; [|simpl in Hlen; lia]. cbn [split_aux] in Hin.
    destruct Hin as [<-|[]]. intros p.
    destruct (Nat.lt_ge_cases p (List.length cur)) as [Hp|Hp].
    + specialize (Hcur p Hp). now rewrite app_nil_r in Hcur.
    + rewrite skipn_all2 by (rewrite length_rev; lia).
      now apply is_prefix_nil.
  - destruct s as [|c s].
    { apply (IH [] cur); [simpl; lia | assumption | assumption]. }
    cbn [split_aux] in Hin.
    destruct (is_prefix sep (c :: s)) eqn:Hmatch.
    + destruct Hin as [<-|Hin].
      * intros p.
        destruct (is_prefix sep (skipn p (rev cur))) eqn:Hocc; [|reflexivity].
        destruct (Nat.lt_ge_cases p (List.length cur)) as [Hp|Hp].
        -- specialize (Hcur p Hp).
           rewrite skipn_app_le in Hcur by (rewrite length_rev; lia).
           now rewrite (is_prefix_app _ _ _ Hocc) in Hcur.
        -- rewrite skipn_all2 in Hocc by (rewrite length_rev; lia).
           now rewrite is_prefix_nil in Hocc.
      * rewrite split_aux_skip in Hin.
        apply (IH (skipn (List.length sep - 1) s) []); try assumption.
        -- rewrite length_skipn. simpl in Hlen. lia.
        -- intros p Hp. simpl in Hp. lia.
    + apply (IH s (c :: cur)); try assumption.
      * simpl in Hlen. lia.
      * intros p Hp. cbn [rev]. rewrite <- app_assoc. cbn [app].
        simpl in Hp.
        destruct (Nat.eq_dec p (List.length cur)) as [->|Hne].
        -- rewrite <- (length_rev cur), skipn_app, skipn_all, Nat.sub_diag.
           exact Hmatch.
        -- apply Hcur. lia.
Qed.

Lemma split_pieces_free (sep s piece : pystr) :
  sep <> [] -> In piece (split sep s) -> sep_free sep piece.
Proof.
  intros Hsep Hin.
  apply (split_aux_pieces_free sep (List.length s) Hsep s []);
    [lia | simpl; intros; lia | exact Hin].
Qed.

Lemma sep_free_block (sep a m b : pystr) :
  sep_free sep (a ++ m ++ b) -> sep_free sep m.
Proof.
  intros Hfree p.
  destruct (is_prefix sep (skipn p m)) eqn:Hocc; [|reflexivity].
  destruct (Nat.le_gt_cases p (List.length m)) as [Hp|Hp].
  - specialize (Hfree (List.length a + p)%nat).
    rewrite skipn_app, skipn_all2 in Hfree by lia.
    replace (List.length a + p - List.length a)%nat with p in Hfree by lia.
    cbn [app] in Hfree. rewrite skipn_app_le in Hfree by assumption.
    now rewrite (is_prefix_app _ _ _ Hocc) in Hfree.
  - rewrite skipn_all2 in Hocc by lia.
    destruct sep; [|discriminate]. exact (Hfree 0%nat).
Qed.

(** A one-character separator: a part without it meets no separator. *)
Lemma single_sep_free (c : N) (l tail : pystr) (p : nat) :
  ~ In c l -> (p < List.length l)%nat ->
  is_prefix [c] (skipn p (l ++ tail)) = false.
Proof.
  intros Hnot Hp. rewrite skipn_app_le by lia.
  destruct (skipn p l) as [|d rest] eqn:Hskip.
  - apply (f_equal (@List.length N)) in Hskip.
    rewrite length_skipn in Hskip. simpl in Hskip. lia.
  - cbn [app is_prefix]. destruct (N.eqb_spec c d) as [->|Hne]; [|reflexivity].
    exfalso. apply Hnot. rewrite <- (firstn_skipn p l), Hskip.
    apply in_or_app. right. now left.
Qed.

(** The sentence separator: a part that does not contain it meets none
    before its end, whatever follows in a joined string. *)
Lemma sentence_sep_free (l tail : pystr) (p : nat) :
  sep_free sentence_sep l -> follows sentence_sep tail ->
  (p < List.length l)%nat ->
  is_prefix sentence_sep (skipn p (l ++ tail)) = false.
Proof.
  intros Hfree Htail Hp. specialize (Hfree p).
  rewrite skipn_app_le by lia.
  destruct (skipn p l) as [|d rest] eqn:Hskip.
  - apply (f_equal (@List.length N)) in Hskip.
    rewrite length_skipn in Hskip. simpl in Hskip. lia.
  - change sentence_sep with [46; 32] in *. cbn [app is_prefix] in *.
    destruct (46 =? d); [|reflexivity]. cbn [andb] in *.
    destruct rest as [|e rest]; [|exact Hfree].
    cbn [app]. destruct Htail as [->|Htail]; [reflexivity|].
    destruct tail as [|t tail]; [reflexivity|].
    cbn [is_prefix] in Htail. apply andb_true_iff in Htail as [Ht _].
    apply N.eqb_eq in Ht. subst t. reflexivity.
Qed.

(** ** Whitespace, [strip] and [split()] *)

Lemma isspace_true (c : N) :
  isspace c = true <->
  (9 <= c <= 13) \/ (28 <= c <= 32) \/ c = 133 \/ c = 160 \/ c = 5760
  \/ (8192 <= c <= 8202) \/ c = 8232 \/ c = 8233 \/ c = 8239 \/ c = 8287
  \/ c = 12288.
Proof.
  unfold isspace.
  rewrite !orb_true_iff, !andb_true_iff, !N.leb_le, !N.eqb_eq. tauto.
Qed.

Lemma isspace_false (c : N) :
  isspace c = false <->
  ~ ((9 <= c <= 13) \/ (28 <= c <= 32) \/ c = 133 \/ c = 160 \/ c = 5760
     \/ (8192 <= c <= 8202) \/ c = 8232 \/ c = 8233 \/ c = 8239 \/ c = 8287
     \/ c = 12288).
Proof.
  rewrite <- isspace_true. destruct (isspace c); split; congruence.
Qed.

Lemma drop_while_spec (f : N -> bool) (s : pystr) :
  exists dropped,
    s = dropped ++ drop_while f s
    /\ Forall (fun c => f c = true) dropped
    /\ (forall c rest, drop_while f s = c :: rest -> f c = false).
Proof.
  induction s as [|c s (dropped & Hs & Hall & Hhead)]; cbn [drop_while].
  - exists []. repeat split; [constructor | discriminate].
  - destruct (f c) eqn:Hc.
    + exists (c :: dropped). cbn [app]. rewrite <- Hs. repeat split; auto.
    + exists []. repeat split; [constructor|].
      intros c' rest Heq. congruence.
Qed.

Lemma drop_while_id (f : N -> bool) (s : pystr) :
  (forall c rest, s = c :: rest -> f c = false) -> drop_while f s = s.
Proof.
  destruct s as [|c s]; [reflexivity|]. intros H. cbn [drop_while].
  now rewrite (H c s eq_refl).
Qed.

(** [strip] keeps a block of the string, between two runs of whitespace,
    that neither starts nor ends with whitespace. *)
Lemma strip_spec (s : pystr) :
  exists a b,
    s = a ++ strip s ++ b
    /\ Forall (fun c => isspace c = true) a
    /\ Forall (fun c => isspace c = true) b
    /\ (forall c rest, strip s = c :: rest -> isspace c = false)
    /\ (forall c front, strip s = front ++ [c] -> isspace c = false).
Proof.
  unfold strip, rstrip, lstrip.
  destruct (drop_while_spec isspace s) as (a & Hs & Ha & Hhead).
  destruct (drop_while_spec isspace (rev (drop_while isspace s)))
    as (b & Hr & Hb & Hlast).
  set (m := drop_while isspace s) in *.
  set (r := drop_while isspace (rev m)) in *.
  assert (Hm : m = rev r ++ rev b).
  { rewrite <- rev_app_distr, <- Hr. now rewrite rev_involutive. }
  exists a, (rev b). repeat split.
  - now rewrite <- Hm.
  - assumption.
  - now apply Forall_rev.
  - intros c rest Heq.
    apply (Hhead c (rest ++ rev b)). now rewrite Hm, Heq.
  - intros c front Heq. apply (Hlast c (rev front)).
    rewrite <- (rev_involutive r), Heq, rev_app_distr. reflexivity.
Qed.

Lemma strip_id (s : pystr) :
  (forall c rest, s = c :: rest -> isspace c = false) ->
  (forall c front, s = front ++ [c] -> isspace c = false) ->
  strip s = s.
Proof.
  intros Hhead Hlast. unfold strip, rstrip, lstrip.
  rewrite (drop_while_id isspace s Hhead), drop_while_id.
  - apply rev_involutive.
  - intros c rest Heq. apply (Hlast c (rev rest)).
    rewrite <- (rev_involutive s), Heq. reflexivity.
Qed.

Lemma strip_all_space (s : pystr) :
  Forall (fun c => isspace c = true) s -> strip s = [].
Proof.
  intros Hall.
  destruct (strip_spec s) as (a & b & Hs & _ & _ & Hhead & _).
  destruct (strip s) as [|c rest]; [reflexivity|].
  rewrite Forall_forall in Hall.
  specialize (Hhead c rest eq_refl).
  rewrite (Hall c) in Hhead; [discriminate|].
  rewrite Hs. apply in_or_app. right. now left.
Qed.

Lemma split_ws_aux_tokens (cur s : pystr) :
  Forall (fun c => isspace c = false) cur ->
  Forall (fun tok => tok <> [] /\ Forall (fun c => isspace c = false) tok)
         (split_ws_aux cur s).
Proof.
  revert cur; induction s as [|c s IH]; intros cur Hcur; cbn [split_ws_aux].
  - destruct cur as [|d cur]; constructor; [|constructor].
    split; [|now apply Forall_rev].
    intros Hrev. apply (f_equal (@List.length N)) in Hrev.
    rewrite length_rev in Hrev. discriminate.
  - destruct (isspace c) eqn:Hc.
    + destruct cur as [|d cur]; [apply IH; constructor|].
      constructor; [|apply IH; constructor].
      split; [|now apply Forall_rev].
      intros Hrev. apply (f_equal (@List.length N)) in Hrev.
      rewrite length_rev in Hrev. discriminate.
    + apply IH. now constructor.
Qed.

Lemma split_ws_tokens (s : pystr) :
  Forall (fun tok => tok <> [] /\ Forall (fun c => isspace c = false) tok)
         (split_ws s).
Proof. apply split_ws_aux_tokens. constructor. Qed.

Lemma join_forall (P : N -> Prop) (sep : pystr) (parts : list pystr) :
  Forall P sep -> Forall (Forall P) parts -> Forall P (join sep parts).
Proof.
  intros Hsep. induction 1 as [|l parts Hl Hparts IH]; [constructor|].
  destruct parts as [|l' parts]; [exact Hl|].
  change (join sep (l :: l' :: parts)) with (l ++ sep ++ join sep (l' :: parts)).
  rewrite !Forall_app. auto.
Qed.

(** ** Characters of the transliteration *)

Lemma dict_get_In (k v : pystr) (d : dict) :
  dict_get k d = Some v -> exists k', In (k', v) d.
Proof.
  unfold dict_get.
  assert (H : forall found,
             fold_left (fun found kv =>
                          if str_eqb k (fst kv) then Some (snd kv) else found)
                       d found = Some v ->
             found = Some v \/ exists k', In (k', v) d).
  { induction d as [|[k0 v0] d IH]; intros found; cbn [fold_left fst snd].
    - now left.
    - intros Hf. destruct (IH _ Hf) as [Hhere|[k' Hin]].
      + destruct (str_eqb k k0).
        * injection Hhere as <-. right. exists k0. now left.
        * now left.
      + right. exists k'. now right. }
  intros Hget. destruct (H None Hget) as [Hnone|Hin]; [discriminate|assumption].
Qed.

Lemma eng_to_dev_values_check :
  forallb (fun kv => forallb (fun c => negb (isspace c)) (snd kv))
          eng_to_dev_map = true.
Proof. vm_compute. reflexivity. Qed.

Lemma eng_to_dev_values_nospace (k v : pystr) :
  dict_get k eng_to_dev_map = Some v -> Forall (fun c => isspace c = false) v.
Proof.
  intros Hget. destruct (dict_get_In _ _ _ Hget) as [k' Hin].
  pose proof eng_to_dev_values_check as Hall.
  rewrite forallb_forall in Hall. specialize (Hall _ Hin). cbn [snd] in Hall.
  rewrite forallb_forall in Hall. apply Forall_forall.
  intros c Hc. specialize (Hall c Hc). now destruct (isspace c).
Qed.

Section OutputCharacters.

Context (db : UnicodeData).

Lemma iteration_nospace (word : pystr) (i : nat) :
  (i < List.length word)%nat ->
  Forall (fun c => isspace c = false) word ->
  Forall (fun c => isspace c = false) (snd (fst (iteration db word i))).
Proof.
  intros Hi Hword.
  assert (Hchar : Forall (fun c => isspace c = false) [nth i word 0]).
  { constructor; [|constructor].
    rewrite Forall_forall in Hword. apply Hword. now apply nth_In. }
  unfold iteration.
  destruct (try_lengths word i (Nat.min 8 (List.length word - i)))
    as [[len mapped]|] eqn:Htry.
  - apply try_lengths_some in Htry as (_ & _ & Hget & _).
    cbn [fst snd]. now apply eng_to_dev_values_nospace in Hget.
  - destruct (isalpha db (nth i word 0)); [|exact Hchar].
    destruct ((nth i word 0 =? 121) && (0 <? i)%nat);
      [cbn [fst snd]; repeat constructor|].
    destruct ((nth i word 0 =? 119) && (i <? List.length word - 1)%nat
              && in_str (nth (i + 1) word 0) (py "aeiou"));
      [cbn [fst snd]; repeat constructor|].
    destruct (dict_get [nth i word 0] eng_to_dev_map) as [mapped|] eqn:Hget;
      [|exact Hchar].
    cbn [fst snd]. now apply eng_to_dev_values_nospace in Hget.
Qed.

Lemma while_loop_nospace (word : pystr) (fuel i : nat) (result : pystr)
      (trace : list branch) :
  Forall (fun c => isspace c = false) word ->
  Forall (fun c => isspace c = false) result ->
  Forall (fun c => isspace c = false)
         (fst (while_loop db fuel word i result trace)).
Proof.
  intros Hword. revert i result trace.
  induction fuel as [|fuel IH]; intros i result trace Hresult;
    cbn [while_loop]; [assumption|].
  destruct (Nat.ltb_spec i (List.length word)) as [Hi|Hi]; [|assumption].
  pose proof (iteration_nospace word i Hi Hword) as Hout.
  destruct (iteration db word i) as [[b out] step]. cbn [fst snd] in Hout.
  apply IH. apply Forall_app. now split.
Qed.

Lemma transliterate_word_advanced_nospace (word : pystr) :
  Forall (fun c => isspace c = false) word ->
  Forall (fun c => isspace c = false) (_transliterate_word_advanced db word).
Proof.
  intros Hword. apply while_loop_nospace; [assumption | constructor].
Qed.

Hypothesis db_sound : lower_sound db.

Lemma to_lower_full_nospace (c : N) :
  isspace c = false ->
  Forall (fun d => isspace d = false) (to_lower_full db c).
Proof.
  intros Hc. unfold to_lower_full.
  destruct (is_ascii c) eqn:Hascii.
  - constructor; [|constructor].
    unfold ascii_upper_letter.
    destruct (N.leb_spec 65 c); [|assumption].
    destruct (N.leb_spec c 90); [|assumption].
    cbn [andb]. apply isspace_false. lia.
  - apply Forall_forall. intros d Hd.
    now apply (lower_nospace db db_sound c d).
Qed.

Lemma lower_ucs4_nospace (before : pystr) (c : N) (after : pystr) :
  isspace c = false ->
  Forall (fun d => isspace d = false) (lower_ucs4 db before c after).
Proof.
  intros Hc. unfold lower_ucs4, handle_capital_sigma.
  destruct (c =? capital_sigma); [|now apply to_lower_full_nospace].
  destruct (cased_before db before && uncased_after db after);
    repeat constructor.
Qed.

Lemma lower_ctx_nospace (before s after : pystr) :
  Forall (fun c => isspace c = false) s ->
  Forall (fun c => isspace c = false) (lower_ctx db before s after).
Proof.
  intros Hs. revert before.
  induction Hs as [|c s Hc Hs IH]; intros before; cbn [lower_ctx];
    [constructor|].
  apply Forall_app. split; [now apply lower_ucs4_nospace | apply IH].
Qed.

Lemma transliterate_word_nospace (word : pystr) :
  Forall (fun c => isspace c = false) word ->
  Forall (fun c => isspace c = false) (transliterate_word db word).
Proof.
  intros Hword.
  pose proof (lower_ctx_nospace [] word [] Hword) as Hlower.
  fold (lower db word) in Hlower.
  destruct (tokenize_spec db word) as (Hparts & _).
  rewrite Hparts, !Forall_app in Hlower.
  destruct Hlower as (Hprefix & Hcore & Hsuffix).
  unfold transliterate_word.
  destruct (tok_core (tokenize db word)) as [|c core] eqn:Hc; [assumption|].
  destruct (dict_get (c :: core) eng_to_dev_map) as [mapped|] eqn:Hget;
    rewrite !Forall_app.
  - repeat split; try assumption.
    now apply eng_to_dev_values_nospace in Hget.
  - repeat split; try assumption.
    now apply transliterate_word_advanced_nospace.
Qed.

Lemma transliterate_line_no_newline (line : pystr) :
  ~ In 10 (transliterate_line db line).
Proof.
  assert (H : Forall (fun c => c <> 10) (transliterate_line db line)).
  { unfold transliterate_line. destruct (strip line); [constructor|].
    apply join_forall; [repeat constructor; discriminate|].
    apply Forall_forall. intros out Hout.
    apply in_map_iff in Hout as (word & <- & Hword).
    pose proof (split_ws_tokens line) as Htok.
    rewrite Forall_forall in Htok. destruct (Htok _ Hword) as [_ Hns].
    eapply Forall_impl; [|apply (transliterate_word_nospace word Hns)].
    intros c Hc ->. discriminate. }
  rewrite Forall_forall in H. intros Hin. now apply (H 10 Hin).
Qed.

Lemma transliteration_lines (text : pystr) :
  split newline (english_to_devanagari_transliteration db text)
  = map (transliterate_line db) (split newline text).
Proof.
  unfold english_to_devanagari_transliteration, newline.
  apply split_join.
  - discriminate.
  - pose proof (split_nonempty [10] text).
    destruct (split [10] text); [congruence | discriminate].
  - intros l tail p Hin _ Hp.
    apply in_map_iff in Hin as (line & <- & _).
    apply single_sep_free; [apply transliterate_line_no_newline | assumption].
Qed.

End OutputCharacters.

Lemma devanagari_db_lower_sound : lower_sound devanagari_db.
Proof.
  constructor; cbn [devanagari_db ToLowerFull IsCased IsCaseIgnorable].
  - discriminate.
  - reflexivity.
  - intros c d _ Hc [<-|[]]. assumption.
  - intros c d Hascii Hsigma [<-|[]]. split; [assumption|].
    unfold to_lower_full. now rewrite Hascii.
  - split; reflexivity.
  - reflexivity.
  - intros c Hascii Hspace. split; [reflexivity|].
    unfold devanagari_ignorable. apply isspace_true in Hspace.
    repeat (apply orb_false_iff; split);
      rewrite ?andb_false_iff, ?N.leb_gt, ?N.eqb_neq; lia.
Qed.

(** C4. Structural preservation: the lines of the transliteration are the
    transliterations of the lines of the text, one for one, so a text of k
    lines gives k lines; a line that is empty or blank gives an empty line;
    the empty text gives the empty text. *)
Theorem structural_preservation (db : UnicodeData) (text : pystr) :
  lower_sound db ->
  split newline (english_to_devanagari_transliteration db text)
  = map (transliterate_line db) (split newline text)
  /\ List.length (split newline (english_to_devanagari_transliteration db text))
     = List.length (split newline text)
  /\ (forall i line,
        nth_error (split newline text) i = Some line ->
        strip line = [] ->
        nth_error (split newline (english_to_devanagari_transliteration db text)) i
        = Some [])
  /\ transliterate_line db [] = []
  /\ english_to_devanagari_transliteration db [] = [].
Proof.
  intros Hdb. pose proof (transliteration_lines db Hdb text) as Hlines.
  split; [assumption|]. split; [|split; [|split; reflexivity]].
  - now rewrite Hlines, length_map.
  - intros i line Hnth Hblank. rewrite Hlines, nth_error_map, Hnth.
    cbn [option_map]. unfold transliterate_line. now rewrite Hblank.
Qed.

Lemma structural_preservation_witness :
  split newline (english_to_devanagari_transliteration devanagari_db
                (py "the boy" ++ newline ++ newline ++ py "  Think!"))
  = map (transliterate_line devanagari_db)
        (split newline (py "the boy" ++ newline ++ newline ++ py "  Think!")).
Proof.
  apply (structural_preservation devanagari_db
           (py "the boy" ++ newline ++ newline ++ py "  Think!")).
  exact devanagari_db_lower_sound.
Defined.

(** ** Capitalization *)

Lemma filter_idem (f : N -> bool) (s : pystr) :
  filter f (filter f s) = filter f s.
Proof.
  induction s as [|c s IH]; [reflexivity|]. cbn [filter].
  destruct (f c) eqn:Hc; [|assumption].
  cbn [filter]. now rewrite Hc, IH.
Qed.

(** Replacing a one-character string by the empty string removes the
    character. *)
Lemma replace_char_empty (c : N) (s : pystr) :
  replace [c] [] s = filter (fun x => negb (c =? x)) s.
Proof.
  unfold replace.
  induction s as [|x s IH]; [reflexivity|].
  cbn [replace_aux is_prefix filter List.length Nat.sub app].
  rewrite andb_true_r. destruct (c =? x); cbn [negb]; [assumption|].
  now rewrite IH.
Qed.

Lemma remove_symbols_filter (text : pystr) :
  remove_symbols text = filter (fun x => negb (is_symbol x)) text.
Proof.
  unfold remove_symbols, is_symbol.
  change (py "^") with [94]. change (py "|") with [124].
  change (py "~") with [126].
  rewrite !replace_char_empty.
  induction text as [|x text IH]; [reflexivity|]. cbn [filter].
  destruct (126 =? x) eqn:H1; cbn [negb filter];
    destruct (124 =? x) eqn:H2; cbn [negb filter];
    destruct (94 =? x) eqn:H3; cbn [negb orb filter];
    rewrite ?H1, ?H2, ?H3; cbn [negb orb filter]; rewrite ?H3;
    cbn [negb]; now rewrite IH.
Qed.

Lemma remove_symbols_idem (text : pystr) :
  remove_symbols (remove_symbols text) = remove_symbols text.
Proof. rewrite !remove_symbols_filter. apply filter_idem. Qed.



(** What [replace] returns is made of characters of the string and of the
    replacement. *)
Lemma replace_aux_forall (P : N -> Prop) (old new : pystr) (k : nat)
      (s : pystr) :
  Forall P new -> Forall P s -> Forall P (replace_aux old new k s).
Proof.
  intros Hnew Hs. revert k.
  induction Hs as [|c s Hc Hs IH]; intros k; cbn [replace_aux];
    [constructor|].
  destruct k; [|apply IH].
  destruct (is_prefix old (c :: s)).
  - apply Forall_app. split; [assumption | apply IH].
  - constructor; [assumption | apply IH].
Qed.

Lemma replace_forall (P : N -> Prop) (old new s : pystr) :
  Forall P new -> Forall P s -> Forall P (replace old new s).
Proof.
  intros Hnew Hs. unfold replace. destruct old as [|x old].
  - apply Forall_app. split; [assumption|].
    induction Hs as [|c s Hc Hs IH]; [constructor|].
    cbn [flat_map]. constructor; [assumption|].
    apply Forall_app. now split.
  - now apply replace_aux_forall.
Qed.





Section Capitalization.

Context (db : UnicodeData).

Lemma capitalize_sentence_eq (sentence : pystr) :
  capitalize_sentence db sentence
  = match strip sentence with
    | [] => []
    | c :: rest => to_upper_full db c ++ rest
    end.
Proof.
  unfold capitalize_sentence. destruct sentence as [|x sentence];
    [reflexivity|].
  destruct (strip (x :: sentence)) as [|c rest]; [reflexivity|].
  unfold upper. destruct rest as [|c' rest].
  - cbn [List.length Nat.ltb Nat.leb flat_map]. reflexivity.
  - cbn [List.length Nat.ltb Nat.leb flat_map]. now rewrite app_nil_r.
Qed.

Hypothesis db_sound : upper_sound db.

Lemma to_upper_full_nonempty (c : N) : to_upper_full db c <> [].
Proof.
  unfold to_upper_full. destruct (is_ascii c) eqn:Hascii; [discriminate|].
  now apply (upper_nonempty db db_sound).
Qed.

Lemma to_upper_full_nospace (c : N) :
  isspace c = false -> Forall (fun d => isspace d = false) (to_upper_full db c).
Proof.
  intros Hc. unfold to_upper_full.
  destruct (is_ascii c) eqn:Hascii.
  - constructor; [|constructor].
    unfold ascii_lower_letter.
    destruct (N.leb_spec 97 c); [|assumption].
    destruct (N.leb_spec c 122); [|assumption].
    cbn [andb]. apply isspace_false. lia.
  - apply Forall_forall. intros d Hd.
    now apply (upper_nospace db db_sound c d).
Qed.

Lemma to_upper_full_nodot (c : N) :
  c <> 46 -> Forall (fun d => d <> 46) (to_upper_full db c).
Proof.
  intros Hc. unfold to_upper_full.
  destruct (is_ascii c) eqn:Hascii.
  - constructor; [|constructor].
    unfold ascii_lower_letter.
    destruct (N.leb_spec 97 c); [|assumption].
    destruct (N.leb_spec c 122); [|assumption].
    cbn [andb]. lia.
  - apply Forall_forall. intros d Hd.
    now apply (upper_nodot db db_sound c d).
Qed.

Lemma to_upper_full_head_stable (c d : N) (rest : pystr) :
  to_upper_full db c = d :: rest -> to_upper_full db d = [d].
Proof.
  unfold to_upper_full at 1.
  destruct (is_ascii c) eqn:Hascii.
  - intros H. injection H as <- <-. unfold to_upper_full.
    unfold is_ascii, ascii_lower_letter in *. apply N.ltb_lt in Hascii.
    destruct (N.leb_spec 97 c); destruct (N.leb_spec c 122); cbn [andb];
      code_point_cases; try reflexivity; lia.
  - intros H. now apply (upper_stable db db_sound c d rest).
Qed.

Lemma capitalize_sentence_free (sentence : pystr) :
  sep_free sentence_sep sentence ->
  sep_free sentence_sep (capitalize_sentence db sentence).
Proof.
  intros Hfree. rewrite capitalize_sentence_eq.
  destruct (strip_spec sentence) as (a & b & Hs & _).
  rewrite Hs in Hfree. apply sep_free_block in Hfree.
  destruct (strip sentence) as [|c rest]; [assumption|].
  destruct (N.eq_dec c 46) as [->|Hc].
  - assert (Hdot : to_upper_full db 46 = [46]) by reflexivity.
    now rewrite Hdot.
  - pose proof (to_upper_full_nodot c Hc) as Hnodot.
    intros p.
    destruct (Nat.lt_ge_cases p (List.length (to_upper_full db c))) as [Hp|Hp].
    + rewrite skipn_app_le by lia.
      destruct (skipn p (to_upper_full db c)) as [|d u] eqn:Hskip.
      * apply (f_equal (@List.length N)) in Hskip.
        rewrite length_skipn in Hskip. simpl in Hskip. lia.
      * change sentence_sep with [46; 32]. cbn [app is_prefix].
        destruct (N.eqb_spec 46 d) as [<-|Hne]; [|reflexivity].
        exfalso. rewrite Forall_forall in Hnodot. apply (Hnodot 46); [|reflexivity].
        rewrite <- (firstn_skipn p (to_upper_full db c)), Hskip.
        apply in_or_app. right. now left.
    + rewrite skipn_app, skipn_all2 by assumption. cbn [app].
      exact (Hfree (S (p - List.length (to_upper_full db c)))).
Qed.


(** The first character of the joined sentences has no other upper-case
    form, so the last step of the cleanup leaves the string as it is. *)
Lemma capitalized_head_stable (sentences : list pystr) (d : N) (rest : pystr) :
  join sentence_sep (map (capitalize_sentence db) sentences) = d :: rest ->
  to_upper_full db d = [d].
Proof.
  destruct sentences as [|s sentences]; [discriminate|].
  cbn [map].
  assert (Hfirst : forall tail,
             capitalize_sentence db s ++ tail = d :: rest ->
             (capitalize_sentence db s = [] -> tail = d :: rest ->
              to_upper_full db d = [d]) ->
             to_upper_full db d = [d]).
  { intros tail Heq Hempty. rewrite capitalize_sentence_eq in *.
    destruct (strip s) as [|c r]; [now apply Hempty|].
    pose proof (to_upper_full_nonempty c) as Hne.
    destruct (to_upper_full db c) as [|d' u] eqn:Hu; [congruence|].
    injection Heq as <- _. now apply (to_upper_full_head_stable c d' u). }
  destruct sentences as [|s' sentences].
  - cbn [map join]. intros Heq. apply (Hfirst []).
    + now rewrite app_nil_r.
    + intros _ Hnil. discriminate.
  - change (join sentence_sep
              (capitalize_sentence db s :: map (capitalize_sentence db) (s' :: sentences)))
      with (capitalize_sentence db s ++ sentence_sep
            ++ join sentence_sep (map (capitalize_sentence db) (s' :: sentences))).
    intros Heq. apply (Hfirst _ Heq).
    intros _ Htail. change sentence_sep with [46; 32] in Htail.
    injection Htail as <- _. reflexivity.
Qed.

Lemma ensure_first_upper_id (result : pystr) :
  (forall d rest, result = d :: rest -> to_upper_full db d = [d]) ->
  ensure_first_upper db result = result.
Proof.
  intros Hstable. destruct result as [|d rest]; [reflexivity|].
  cbn [ensure_first_upper]. destruct (islower db d); [|reflexivity].
  unfold upper. cbn [flat_map]. now rewrite (Hstable d rest eq_refl).
Qed.

Lemma capitalize_join (text : pystr) :
  capitalize db text
  = join sentence_sep (map (capitalize_sentence db) (split sentence_sep text)).
Proof.
  unfold capitalize. apply ensure_first_upper_id.
  intros d rest. apply capitalized_head_stable.
Qed.

Lemma capitalize_sentences (text : pystr) :
  split sentence_sep (capitalize db text)
  = map (capitalize_sentence db) (split sentence_sep text).
Proof.
  rewrite capitalize_join. apply split_join.
  - discriminate.
  - pose proof (split_nonempty sentence_sep text).
    destruct (split sentence_sep text); [congruence | discriminate].
  - intros l tail p Hin Htail Hp.
    apply in_map_iff in Hin as (sentence & <- & Hin).
    apply sentence_sep_free; try assumption.
    apply capitalize_sentence_free.
    apply (split_pieces_free sentence_sep text); [discriminate | assumption].
Qed.


Lemma ascii_stable_upper (c : N) :
  to_upper_full db c = [c] -> ascii_letter c = true -> isupper db c = true.
Proof.
  unfold to_upper_full, isupper, ascii_letter, ascii_lower_letter,
    ascii_upper_letter, is_ascii.
  destruct (N.ltb_spec c 128).
  - destruct (N.leb_spec 97 c); destruct (N.leb_spec c 122); cbn [andb];
      intros Heq Hletter; try (injection Heq as Heq; lia);
      now rewrite orb_false_r in Hletter.
  - destruct (N.leb_spec 65 c); destruct (N.leb_spec c 90);
      destruct (N.leb_spec 97 c); destruct (N.leb_spec c 122);
      cbn [andb orb]; intros _ Hletter; try discriminate; lia.
Qed.





End Capitalization.

Lemma devanagari_db_upper_sound : upper_sound devanagari_db.
Proof.
  constructor; cbn [devanagari_db ToUpperFull].
  - discriminate.
  - intros c d _ Hc [<-|[]]. assumption.
  - intros c d Hascii [<-|[]]. unfold is_ascii in Hascii.
    apply N.ltb_ge in Hascii. lia.
  - intros c d Hascii [<-|[]]. unfold is_ascii in Hascii.
    apply N.ltb_ge in Hascii. unfold is_symbol.
    repeat (apply orb_false_iff; split); apply N.eqb_neq; lia.
  - intros c d rest Hascii H. injection H as <- <-.
    unfold to_upper_full. now rewrite Hascii.
Qed.

(** Against C8 as stated: the cleanup pass leaves a Devanagari letter at the
    start of its result; the character is alphabetic and is not
    upper-case. *)
Lemma caseless_first_letter :
  _clean_romanization devanagari_db (py "क") = py "क"
  /\ py "क" = [2325]
  /\ isalpha devanagari_db 2325 = true
  /\ isupper devanagari_db 2325 = false.
Proof. repeat split; vm_compute; reflexivity. Qed.

(** C8 (amended). Capitalization: the first character of the cleaned
    result has no other upper-case form, and is an upper-case letter when
    it is an ASCII letter; the sentences of the cleaned result, with
    boundaries at ". ", are the sentences of the text after the
    substitutions, each trimmed and with its first character replaced by
    its upper-case mapping, rejoined with ". ". *)
Theorem capitalization (db : UnicodeData) (text : pystr) :
  upper_sound db ->
  (forall c rest,
     _clean_romanization db text = c :: rest ->
     to_upper_full db c = [c]
     /\ (ascii_letter c = true -> isupper db c = true))
  /\ split sentence_sep (_clean_romanization db text)
     = map (capitalize_sentence db)
           (split sentence_sep (apply_replacements (remove_symbols text)))
  /\ _clean_romanization db text
     = join sentence_sep
            (map (capitalize_sentence db)
                 (split sentence_sep (apply_replacements (remove_symbols text))))
  /\ (forall sentence,
        capitalize_sentence db sentence
        = match strip sentence with
          | [] => []
          | c :: rest => to_upper_full db c ++ rest
          end).
Proof.
  intros Hdb. unfold _clean_romanization.
  split; [|split; [|split]].
  - intros c rest Heq. rewrite capitalize_join in Heq by assumption.
    pose proof (capitalized_head_stable db Hdb _ c rest Heq) as Hstable.
    split; [assumption | now apply ascii_stable_upper].
  - now apply capitalize_sentences.
  - now apply capitalize_join.
  - apply capitalize_sentence_eq.
Qed.

Lemma capitalization_witness :
  split sentence_sep (_clean_romanization devanagari_db (py "namaste. aap kaise hain"))
  = map (capitalize_sentence devanagari_db)
        (split sentence_sep
               (apply_replacements (remove_symbols (py "namaste. aap kaise hain")))).
Proof.
  apply (capitalization devanagari_db (py "namaste. aap kaise hain")).
  exact devanagari_db_upper_sound.
Defined.




(** ** Lower-casing and the structure of the text *)

Lemma join_split_aux (sep : pystr) (n : nat) :
  sep <> [] ->
  forall s cur,
    (List.length s <= n)%nat ->
    join sep (split_aux sep 0 cur s) = rev cur ++ s.
Proof.
  intros Hsep. induction n as [|n IH]; intros s cur Hlen.
  - destruct s; [|simpl in Hlen; lia]. cbn [split_aux join].
    now rewrite app_nil_r.
  - destruct s as [|c s]; [cbn [split_aux join]; now rewrite app_nil_r|].
    cbn [split_aux]. destruct (is_prefix sep (c :: s)) eqn:Hmatch.
    + rewrite split_aux_skip.
      pose proof (split_nonempty sep (skipn (List.length sep - 1) s)) as Hne.
      unfold split in Hne.
      destruct (split_aux sep 0 [] (skipn (List.length sep - 1) s))
        as [|piece pieces] eqn:Hpieces; [congruence|].
      change (join sep (rev cur :: piece :: pieces))
        with (rev cur ++ sep ++ join sep (piece :: pieces)).
      rewrite <- Hpieces, IH by (rewrite length_skipn; simpl in Hlen; lia).
      cbn [rev app]. f_equal.
      apply is_prefix_iff in Hmatch as [t Ht].
      destruct sep as [|x sep]; [congruence|].
      injection Ht as -> ->.
      replace (List.length (x :: sep) - 1)%nat with (List.length sep)
        by (simpl; lia).
      rewrite skipn_app, skipn_all, Nat.sub_diag. reflexivity.
    + rewrite IH by (simpl in Hlen; lia).
      cbn [rev]. now rewrite <- app_assoc.
Qed.

Lemma join_split (sep s : pystr) : sep <> [] -> join sep (split sep s) = s.
Proof.
  intros Hsep. unfold split.
  now rewrite (join_split_aux sep (List.length s) Hsep s []).
Qed.

Lemma newline_free (s : pystr) : sep_free newline s -> ~ In 10 s.
Proof.
  unfold newline. intros Hfree Hin. apply in_split in Hin as (a & b & ->).
  specialize (Hfree (List.length a)).
  rewrite skipn_app, skipn_all, Nat.sub_diag in Hfree.
  cbn [app skipn is_prefix] in Hfree. discriminate.
Qed.

Lemma strip_nil_iff (s : pystr) :
  strip s = [] <-> Forall (fun c => isspace c = true) s.
Proof.
  split; [|apply strip_all_space].
  intros Hnil. destruct (strip_spec s) as (a & b & Hs & Ha & Hb & _).
  rewrite Hs, Hnil. apply Forall_app. now split.
Qed.

Lemma split_ws_aux_run (t acc s : pystr) :
  Forall (fun c => isspace c = false) t ->
  split_ws_aux acc (t ++ s) = split_ws_aux (rev t ++ acc) s.
Proof.
  intros Ht. revert acc. induction Ht as [|c t Hc Ht IH]; intros acc;
    [reflexivity|].
  cbn [app split_ws_aux]. rewrite Hc, IH. cbn [rev].
  now rewrite <- app_assoc.
Qed.

Section LowerCasing.

Context (db : UnicodeData).
Hypothesis db_sound : lower_sound db.

Lemma space_not_ignorable (w : N) :
  isspace w = true -> is_case_ignorable db w = false /\ is_cased db w = false.
Proof.
  intros Hw. unfold is_case_ignorable, is_cased.
  destruct (is_ascii w) eqn:Hascii.
  - apply isspace_true in Hw. unfold is_ascii in Hascii.
    apply N.ltb_lt in Hascii. unfold ascii_letter, ascii_upper_letter,
      ascii_lower_letter.
    split.
    + repeat (apply orb_false_iff; split); apply N.eqb_neq; lia.
    + apply orb_false_iff; split; apply andb_false_iff;
        rewrite !N.leb_gt; lia.
  - destruct (space_uncased db db_sound w Hascii Hw). now split.
Qed.

Lemma cased_before_space (w : N) (before : pystr) :
  isspace w = true -> cased_before db (w :: before) = false.
Proof.
  intros Hw. destruct (space_not_ignorable w Hw) as [Hign Hcased].
  unfold cased_before. cbn [drop_while]. now rewrite Hign.
Qed.

Lemma uncased_after_space (w : N) (after : pystr) :
  isspace w = true -> uncased_after db (w :: after) = true.
Proof.
  intros Hw. destruct (space_not_ignorable w Hw) as [Hign Hcased].
  unfold uncased_after. cbn [drop_while]. now rewrite Hign, Hcased.
Qed.

Lemma cased_before_cons (c : N) (b b' : pystr) :
  cased_before db b = cased_before db b' ->
  cased_before db (c :: b) = cased_before db (c :: b').
Proof.
  unfold cased_before. cbn [drop_while].
  now destruct (is_case_ignorable db c).
Qed.

Lemma uncased_after_app (s a a' : pystr) :
  uncased_after db a = uncased_after db a' ->
  uncased_after db (s ++ a) = uncased_after db (s ++ a').
Proof.
  intros H. induction s as [|c s IH]; [assumption|].
  unfold uncased_after in *. cbn [app drop_while].
  now destruct (is_case_ignorable db c).
Qed.

(** The context matters only through the two tests of
    [handle_capital_sigma]. *)
Lemma lower_ctx_context (s b b' a a' : pystr) :
  cased_before db b = cased_before db b' ->
  uncased_after db a = uncased_after db a' ->
  lower_ctx db b s a = lower_ctx db b' s a'.
Proof.
  revert b b'. induction s as [|c s IH]; intros b b' Hb Ha; [reflexivity|].
  cbn [lower_ctx]. rewrite (IH (c :: b) (c :: b'));
    [|now apply cased_before_cons | assumption].
  f_equal. unfold lower_ucs4, handle_capital_sigma.
  now rewrite Hb, (uncased_after_app s a a' Ha).
Qed.

Lemma lower_ctx_app (x y b a : pystr) :
  lower_ctx db b (x ++ y) a
  = lower_ctx db b x (y ++ a) ++ lower_ctx db (rev x ++ b) y a.
Proof.
  revert b. induction x as [|c x IH]; intros b; [reflexivity|].
  cbn [app lower_ctx rev]. rewrite IH, <- !app_assoc. reflexivity.
Qed.

Lemma space_not_sigma (w : N) : isspace w = true -> (w =? capital_sigma) = false.
Proof.
  intros Hw. apply isspace_true in Hw. apply N.eqb_neq.
  unfold capital_sigma. lia.
Qed.

Lemma lower_ucs4_space (b : pystr) (w : N) (a : pystr) :
  isspace w = true -> lower_ucs4 db b w a = [w].
Proof.
  intros Hw. unfold lower_ucs4. rewrite (space_not_sigma w Hw).
  unfold to_lower_full. destruct (is_ascii w) eqn:Hascii.
  - apply isspace_true in Hw. unfold ascii_upper_letter.
    destruct (N.leb_spec 65 w); destruct (N.leb_spec w 90); cbn [andb];
      try reflexivity. lia.
  - now apply (lower_space db db_sound).
Qed.

Lemma lower_ucs4_nonempty (b : pystr) (c : N) (a : pystr) :
  lower_ucs4 db b c a <> [].
Proof.
  unfold lower_ucs4. destruct (c =? capital_sigma); [discriminate|].
  unfold to_lower_full. destruct (is_ascii c) eqn:Hascii; [discriminate|].
  now apply (lower_nonempty db db_sound).
Qed.

Lemma lower_ctx_nil_iff (b s a : pystr) : lower_ctx db b s a = [] <-> s = [].
Proof.
  split; [|now intros ->].
  destruct s as [|c s]; [reflexivity|]. cbn [lower_ctx]. intros H.
  apply app_eq_nil in H as [H _]. now apply lower_ucs4_nonempty in H.
Qed.

Lemma lower_ctx_all_space (b s a : pystr) :
  Forall (fun c => isspace c = true) s -> lower_ctx db b s a = s.
Proof.
  intros Hs. revert b. induction Hs as [|w s Hw Hs IH]; intros b;
    [reflexivity|].
  cbn [lower_ctx]. now rewrite (lower_ucs4_space b w _ Hw), IH.
Qed.

Lemma lower_ctx_space_inv (b s a : pystr) :
  Forall (fun c => isspace c = true) (lower_ctx db b s a) ->
  Forall (fun c => isspace c = true) s.
Proof.
  revert b. induction s as [|c s IH]; intros b; [constructor|].
  cbn [lower_ctx]. intros H. apply Forall_app in H as [Hc Hs].
  constructor; [|now apply (IH (c :: b))].
  destruct (isspace c) eqn:Hspace; [reflexivity|].
  pose proof (lower_ucs4_nospace db db_sound b c (s ++ a) Hspace) as Hns.
  pose proof (lower_ucs4_nonempty b c (s ++ a)) as Hne.
  destruct (lower_ucs4 db b c (s ++ a)) as [|d u]; [congruence|].
  inversion Hc; inversion Hns; congruence.
Qed.

Lemma strip_lower_nil_iff (line : pystr) :
  strip (lower db line) = [] <-> strip line = [].
Proof.
  rewrite !strip_nil_iff. unfold lower. split.
  - apply lower_ctx_space_inv.
  - intros H. now rewrite lower_ctx_all_space.
Qed.

(** *** Lines *)

Lemma lower_ctx_standalone (s b a : pystr) :
  cased_before db b = false -> uncased_after db a = true ->
  lower_ctx db b s a = lower db s.
Proof. intros Hb Ha. now apply lower_ctx_context. Qed.

Lemma lower_ctx_join (lines : list pystr) (b a : pystr) :
  lines <> [] ->
  cased_before db b = false -> uncased_after db a = true ->
  lower_ctx db b (join newline lines) a = join newline (map (lower db) lines).
Proof.
  unfold newline.
  intros Hne. revert b. induction lines as [|l lines IH]; intros b Hb Ha;
    [congruence|].
  destruct lines as [|l' lines].
  - cbn [join map]. now apply lower_ctx_standalone.
  - change (join [10] (l :: l' :: lines))
      with (l ++ [10] ++ join [10] (l' :: lines)).
    change (join [10] (map (lower db) (l :: l' :: lines)))
      with (lower db l ++ [10] ++ join [10] (map (lower db) (l' :: lines))).
    rewrite lower_ctx_app.
    rewrite (lower_ctx_standalone l b) by
      (try assumption; now apply uncased_after_space).
    f_equal. cbn [app lower_ctx].
    rewrite (lower_ucs4_space _ 10) by reflexivity.
    cbn [app]. f_equal. apply IH; [discriminate | | assumption].
    now apply cased_before_space.
Qed.

Lemma lower_ucs4_newline (b : pystr) (c : N) (a : pystr) :
  In 10 (lower_ucs4 db b c a) -> c = 10.
Proof.
  intros Hin. destruct (isspace c) eqn:Hc.
  - rewrite (lower_ucs4_space b c a Hc) in Hin. destruct Hin as [->|[]].
    reflexivity.
  - pose proof (lower_ucs4_nospace db db_sound b c a Hc) as Hns.
    rewrite Forall_forall in Hns. specialize (Hns 10 Hin). discriminate.
Qed.

Lemma lower_ctx_no_newline (b s a : pystr) :
  ~ In 10 s -> ~ In 10 (lower_ctx db b s a).
Proof.
  revert b. induction s as [|c s IH]; intros b Hs; [exact Hs|].
  cbn [lower_ctx]. intros Hin. apply in_app_or in Hin as [Hin|Hin].
  - apply lower_ucs4_newline in Hin. apply Hs. now left.
  - apply (IH (c :: b)); [|exact Hin]. intros H. apply Hs. now right.
Qed.

Lemma split_lines_lower (text : pystr) :
  split newline (lower db text) = map (lower db) (split newline text).
Proof.
  assert (Hsep : newline <> []) by discriminate.
  pose proof (split_nonempty newline text) as Hne.
  pose proof (join_split newline text Hsep) as Hjoin.
  unfold lower at 1. rewrite <- Hjoin at 1.
  rewrite lower_ctx_join by (try assumption; reflexivity).
  apply split_join.
  - assumption.
  - destruct (split newline text); [congruence | discriminate].
  - intros l tail p Hin _ Hp.
    apply in_map_iff in Hin as (line & <- & Hline).
    apply (single_sep_free 10); [|assumption].
    apply lower_ctx_no_newline, newline_free.
    now apply (split_pieces_free [10] text).
Qed.

(** *** Words *)

Lemma split_ws_lower_aux (s cur b a : pystr) :
  Forall (fun c => isspace c = false) cur ->
  cased_before db b = false -> uncased_after db a = true ->
  split_ws_aux (rev (lower_ctx db b (rev cur) (s ++ a)))
               (lower_ctx db (cur ++ b) s a)
  = map (lower db) (split_ws_aux cur s).
Proof.
  revert cur b. induction s as [|c s IH]; intros cur b Hcur Hb Ha.
  - cbn [app lower_ctx split_ws_aux].
    rewrite (lower_ctx_standalone (rev cur) b a Hb Ha).
    destruct cur as [|d cur]; [reflexivity|].
    destruct (rev (lower db (rev (d :: cur)))) as [|e r] eqn:Hrev.
    + apply (f_equal (@rev N)) in Hrev. rewrite rev_involutive in Hrev.
      apply lower_ctx_nil_iff in Hrev.
      apply (f_equal (@List.length N)) in Hrev.
      rewrite length_rev in Hrev. discriminate.
    + rewrite <- Hrev, rev_involutive. reflexivity.
  - cbn [lower_ctx split_ws_aux]. destruct (isspace c) eqn:Hc.
    + rewrite (lower_ucs4_space _ c _ Hc). cbn [app split_ws_aux].
      rewrite Hc.
      rewrite (lower_ctx_standalone (rev cur) b (c :: s ++ a) Hb)
        by now apply uncased_after_space.
      specialize (IH [] (c :: cur ++ b) (Forall_nil _)
                     (cased_before_space c _ Hc) Ha).
      cbn [rev lower_ctx app] in IH.
      destruct cur as [|d cur].
      * exact IH.
      * destruct (rev (lower db (rev (d :: cur)))) as [|e r] eqn:Hrev.
        -- apply (f_equal (@rev N)) in Hrev. rewrite rev_involutive in Hrev.
           apply lower_ctx_nil_iff in Hrev.
           apply (f_equal (@List.length N)) in Hrev.
           rewrite length_rev in Hrev. discriminate.
        -- rewrite <- Hrev, rev_involutive. cbn [map]. now rewrite IH.
    + pose proof (lower_ucs4_nospace db db_sound (cur ++ b) c (s ++ a) Hc)
        as Hns.
      rewrite (split_ws_aux_run _ _ _ Hns).
      specialize (IH (c :: cur) b (Forall_cons _ Hc Hcur) Hb Ha).
      cbn [rev] in IH. rewrite lower_ctx_app in IH.
      cbn [lower_ctx] in IH. rewrite rev_involutive, app_nil_r in IH.
      rewrite rev_app_distr in IH. cbn [app] in IH. exact IH.
Qed.

Lemma split_ws_lower (line : pystr) :
  split_ws (lower db line) = map (lower db) (split_ws line).
Proof.
  unfold split_ws, lower at 1.
  pose proof (split_ws_lower_aux line [] [] [] (Forall_nil _) eq_refl eq_refl)
    as H.
  cbn [rev lower_ctx app] in H. exact H.
Qed.

(** *** Lower-casing twice *)

Lemma lower_ucs4_lowered (b : pystr) (c : N) (a : pystr) :
  Forall (lowered db) (lower_ucs4 db b c a).
Proof.
  unfold lower_ucs4, handle_capital_sigma.
  destruct (N.eqb_spec c capital_sigma) as [->|Hsigma].
  - destruct (sigma_stable db db_sound) as [Hfinal Hsmall].
    destruct (cased_before db b && uncased_after db a);
      (constructor; [|constructor]); (split; [discriminate|]);
      unfold to_lower_full; assumption.
  - unfold to_lower_full at 1. destruct (is_ascii c) eqn:Hascii.
    + constructor; [|constructor]. unfold lowered, to_lower_full.
      unfold is_ascii, ascii_upper_letter, capital_sigma in *.
      apply N.ltb_lt in Hascii.
      destruct (N.leb_spec 65 c); destruct (N.leb_spec c 90); cbn [andb];
        (split; [lia|]); code_point_cases; try reflexivity; lia.
    + apply Forall_forall. intros d Hd.
      now apply (lower_stable db db_sound c d).
Qed.

Lemma lower_ctx_lowered (b s a : pystr) : Forall (lowered db) (lower_ctx db b s a).
Proof.
  revert b. induction s as [|c s IH]; intros b; [constructor|].
  cbn [lower_ctx]. apply Forall_app. split;
    [apply lower_ucs4_lowered | apply IH].
Qed.

Lemma lower_ctx_fixed (b s a : pystr) :
  Forall (lowered db) s -> lower_ctx db b s a = s.
Proof.
  intros Hs. revert b. induction Hs as [|d s [Hsigma Hd] Hs IH]; intros b;
    [reflexivity|].
  cbn [lower_ctx]. rewrite IH. unfold lower_ucs4.
  apply N.eqb_neq in Hsigma. now rewrite Hsigma, Hd.
Qed.

Lemma lower_idem (s : pystr) : lower db (lower db s) = lower db s.
Proof. apply lower_ctx_fixed, lower_ctx_lowered. Qed.

(** *** Words emitted as they are *)

Lemma stripped_char_cases (d : N) :
  stripped_char d ->
  d = 34 \/ d = 39 \/ d = 40 \/ d = 46 \/ d = 44 \/ d = 33 \/ d = 63
  \/ d = 59 \/ d = 58 \/ d = 41 \/ d = 8230.
Proof.
  unfold stripped_char.
  change (leading_chars ++ trailing_chars)
    with [34; 39; 40; 46; 44; 33; 63; 59; 58; 41; 39; 34; 8230].
  cbn [In]. intuition.
Qed.

Lemma lower_ucs4_stripped (b : pystr) (c : N) (a : pystr) :
  Forall stripped_char (lower_ucs4 db b c a) -> lower_ucs4 db b c a = [c].
Proof.
  unfold lower_ucs4, handle_capital_sigma.
  destruct (N.eqb_spec c capital_sigma) as [->|Hsigma].
  - intros H. exfalso. inversion H as [|d l Hd _ Heq]; subst.
    apply stripped_char_cases in Hd.
    destruct (cased_before db b && uncased_after db a);
      unfold final_small_sigma, small_sigma in Hd; lia.
  - unfold to_lower_full. destruct (is_ascii c) eqn:Hascii.
    + intros H. inversion H as [|d l Hd _ Heq]; subst.
      apply stripped_char_cases in Hd. unfold ascii_upper_letter in *.
      destruct (N.leb_spec 65 c); destruct (N.leb_spec c 90);
        cbn [andb] in *; try reflexivity. lia.
    + intros H. now apply (lower_punct db db_sound c Hascii).
Qed.

Lemma lower_ctx_stripped (b s a : pystr) :
  Forall stripped_char (lower_ctx db b s a) -> lower_ctx db b s a = s.
Proof.
  revert b. induction s as [|c s IH]; intros b; [reflexivity|].
  cbn [lower_ctx]. intros H. apply Forall_app in H as [Hc Hs].
  now rewrite (lower_ucs4_stripped b c _ Hc), (IH _ Hs).
Qed.

Lemma empty_core_lower (word : pystr) :
  tok_core (tokenize db word) = [] -> lower db word = word.
Proof.
  intros Hcore.
  destruct (tokenize_spec db word) as (Hparts & Hprefix & Hsuffix & _).
  rewrite Hcore in Hparts. cbn [app] in Hparts.
  apply lower_ctx_stripped. fold (lower db word). rewrite Hparts.
  apply Forall_app. split.
  - eapply Forall_impl; [|exact Hprefix]. intros d Hd.
    apply in_or_app. left. now apply in_str_In.
  - eapply Forall_impl; [|exact Hsuffix]. intros d Hd.
    apply in_or_app. right. now apply in_str_In.
Qed.

Lemma tokenize_lower (word : pystr) :
  tokenize db (lower db word) = tokenize db word.
Proof. unfold tokenize. now rewrite lower_idem. Qed.

Lemma transliterate_word_lower (word : pystr) :
  transliterate_word db (lower db word) = transliterate_word db word.
Proof.
  unfold transliterate_word. rewrite tokenize_lower.
  destruct (tok_core (tokenize db word)) eqn:Hcore; [|reflexivity].
  now apply empty_core_lower.
Qed.

Lemma transliterate_line_lower (line : pystr) :
  transliterate_line db (lower db line) = transliterate_line db line.
Proof.
  unfold transliterate_line.
  destruct (strip line) as [|c rest] eqn:Hstrip.
  - now rewrite (proj2 (strip_lower_nil_iff line) Hstrip).
  - destruct (strip (lower db line)) as [|c' rest'] eqn:Hlow.
    + apply (proj1 (strip_lower_nil_iff line)) in Hlow. congruence.
    + rewrite split_ws_lower, map_map. f_equal.
      apply map_ext. apply transliterate_word_lower.
Qed.

End LowerCasing.

(** C9. Case-insensitivity: the transliteration of a text is the
    transliteration of the lower-cased text. *)
Theorem case_insensitive (db : UnicodeData) (text : pystr) :
  lower_sound db ->
  english_to_devanagari_transliteration db text
  = english_to_devanagari_transliteration db (lower db text).
Proof.
  intros Hdb. unfold english_to_devanagari_transliteration.
  rewrite (split_lines_lower db Hdb), map_map. f_equal.
  apply map_ext. intros line. symmetry.
  now apply transliterate_line_lower.
Qed.

Lemma case_insensitive_witness :
  english_to_devanagari_transliteration devanagari_db
    (dquote :: py "The BOY," ++ newline ++ py " " ++ newline ++ py "THINK (Hello)!")
  = english_to_devanagari_transliteration devanagari_db
      (lower devanagari_db
         (dquote :: py "The BOY," ++ newline ++ py " " ++ newline ++ py "THINK (Hello)!")).
Proof.
  apply (case_insensitive devanagari_db).
  exact devanagari_db_lower_sound.
Defined.

(** * Further properties of the transliteration engine *)

Lemma dict_get_key_In (k v : pystr) (d : dict) :
  dict_get k d = Some v -> In (k, v) d.
Proof.
  unfold dict_get.
  assert (H : forall found,
             fold_left (fun found kv =>
                          if str_eqb k (fst kv) then Some (snd kv) else found)
                       d found = Some v ->
             found = Some v \/ In (k, v) d).
  { induction d as [|[k0 v0] d IH]; intros found; cbn [fold_left fst snd].
    - now left.
    - intros Hf. destruct (IH _ Hf) as [Hhere|Hin]; [|right; now right].
      destruct (str_eqb k k0) eqn:Hk; [|now left].
      apply str_eqb_eq in Hk. injection Hhere as <-. subst k0.
      right. now left. }
  intros Hget. destruct (H None Hget) as [Hnone|Hin]; [discriminate|assumption].
Qed.

Lemma eng_to_dev_entries_check : forallb entry_ok eng_to_dev_map = true.
Proof. vm_compute. reflexivity. Qed.

Lemma eng_to_dev_entry (k v : pystr) :
  dict_get k eng_to_dev_map = Some v ->
  (1 <= List.length k <= 8)%nat
  /\ (exists c rest, k = c :: rest /\ ascii_lower_letter c = true)
  /\ v <> []
  /\ Forall (fun c => in_devanagari_block c = true) v.
Proof.
  intros Hget. apply dict_get_key_In in Hget.
  pose proof eng_to_dev_entries_check as Hall.
  rewrite forallb_forall in Hall. specialize (Hall _ Hget).
  unfold entry_ok in Hall. cbn [fst snd] in Hall.
  apply andb_true_iff in Hall as [Hall Hblock].
  apply andb_true_iff in Hall as [Hall Hvalue].
  apply andb_true_iff in Hall as [Hall Hfirst].
  apply andb_true_iff in Hall as [Hmin Hmax].
  apply Nat.leb_le in Hmin, Hmax.
  split; [lia|]. split; [|split].
  - destruct k as [|c rest]; [discriminate|]. now exists c, rest.
  - destruct v; [discriminate | discriminate].
  - apply Forall_forall. rewrite forallb_forall in Hblock. exact Hblock.
Qed.

Lemma slice_head (word : pystr) (i l : nat) :
  (1 <= l)%nat -> (i + l <= List.length word)%nat ->
  exists rest, slice word i (i + l) = nth i word 0 :: rest.
Proof.
  intros Hl Hfit. unfold slice. replace (i + l - i)%nat with l by lia.
  revert i Hfit. induction word as [|c word IH]; intros i Hfit;
    [simpl in Hfit; lia|].
  destruct i as [|i].
  - destruct l as [|l]; [lia|]. cbn [skipn firstn nth]. now eexists.
  - cbn [skipn nth]. apply IH. simpl in Hfit. lia.
Qed.

Lemma firstn_slice (word : pystr) (i l : nat) :
  firstn (i + l) word = firstn i word ++ slice word i (i + l).
Proof.
  unfold slice. replace (i + l - i)%nat with l by lia.
  revert i. induction word as [|c word IH]; intros i.
  - now rewrite !firstn_nil, skipn_nil, firstn_nil.
  - destruct i as [|i]; [reflexivity|].
    cbn [Nat.add firstn skipn app]. now rewrite IH.
Qed.

Section LoopShape.

Context (db : UnicodeData).

(** An iteration either finds a key at [i] or keeps the character at [i],
    which is then no key of the table. *)
Lemma iteration_cases (word : pystr) (i : nat) :
  (i < List.length word)%nat ->
  (exists len mapped,
      iteration db word i = (Matched len, mapped, len)
      /\ (1 <= len <= 8)%nat /\ (i + len <= List.length word)%nat
      /\ dict_get (slice word i (i + len)) eng_to_dev_map = Some mapped)
  \/ (dict_get [nth i word 0] eng_to_dev_map = None
      /\ (iteration db word i = (PassAlpha, [nth i word 0], 1%nat)
          \/ iteration db word i = (PassOther, [nth i word 0], 1%nat))).
Proof.
  intros Hi. unfold iteration.
  destruct (try_lengths word i (Nat.min 8 (List.length word - i)))
    as [[len mapped]|] eqn:Htry.
  - left. exists len, mapped.
    apply try_lengths_some in Htry as (Hlen & Hfit & Hget & _).
    repeat split; try assumption; lia.
  - right.
    assert (Hnone : dict_get [nth i word 0] eng_to_dev_map = None).
    { rewrite <- slice_one by assumption.
      apply (try_lengths_none _ _ _ Htry); lia. }
    split; [assumption|].
    destruct (isalpha db (nth i word 0)); [|now right].
    destruct (N.eqb_spec (nth i word 0) 121) as [Hy|_].
    { rewrite Hy in Hnone. vm_compute in Hnone. discriminate. }
    destruct (N.eqb_spec (nth i word 0) 119) as [Hw|_].
    { rewrite Hw in Hnone. vm_compute in Hnone. discriminate. }
    cbn [andb]. rewrite Hnone. now left.
Qed.

Lemma while_loop_live_branches (word : pystr) (fuel i : nat) (result : pystr)
      (trace : list branch) :
  Forall (fun b => b <> YRule /\ b <> WRule /\ b <> SingleChar) trace ->
  Forall (fun b => b <> YRule /\ b <> WRule /\ b <> SingleChar)
         (snd (while_loop db fuel word i result trace)).
Proof.
  revert i result trace.
  induction fuel as [|fuel IH]; intros i result trace Htrace;
    cbn [while_loop]; [assumption|].
  destruct (Nat.ltb_spec i (List.length word)) as [Hi|Hi]; [|assumption].
  destruct (iteration_cases word i Hi)
    as [(len & mapped & -> & _)|[_ [-> | ->]]];
    apply IH; apply Forall_app; (split; [assumption|]);
    repeat constructor; discriminate.
Qed.

Lemma while_loop_pieces (word : pystr) (fuel i : nat) (result : pystr)
      (trace : list branch) (pieces : list piece) :
  (i <= List.length word)%nat -> (List.length word - i <= fuel)%nat ->
  concat (map piece_source pieces) = firstn i word ->
  concat (map piece_output pieces) = result ->
  Forall piece_valid pieces ->
  exists pieces',
    concat (map piece_source pieces') = word
    /\ concat (map piece_output pieces')
       = fst (while_loop db fuel word i result trace)
    /\ Forall piece_valid pieces'.
Proof.
  revert i result trace pieces.
  induction fuel as [|fuel IH]; intros i result trace pieces Hi Hfuel
                                       Hsrc Hout Hvalid.
  - exists pieces. cbn [while_loop fst].
    rewrite firstn_all2 in Hsrc by lia. now repeat split.
  - cbn [while_loop].
    destruct (Nat.ltb_spec i (List.length word)) as [Hlt|Hge].
    + destruct (iteration_cases word i Hlt)
        as [(len & mapped & -> & Hlen & Hfit & Hget)|[Hnone [-> | ->]]].
      * apply (IH _ _ _ (pieces ++ [KeyPiece (slice word i (i + len)) mapped]));
          try lia.
        -- rewrite map_app, concat_app, Hsrc. cbn [map concat piece_source].
           now rewrite app_nil_r, firstn_slice.
        -- rewrite map_app, concat_app, Hout. cbn [map concat piece_output].
           now rewrite app_nil_r.
        -- apply Forall_app. split; [assumption|].
           constructor; [|constructor]. split; [assumption|].
           rewrite slice_length by assumption. lia.
      * apply (IH _ _ _ (pieces ++ [CharPiece (nth i word 0)])); try lia.
        -- rewrite map_app, concat_app, Hsrc. cbn [map concat piece_source].
           now rewrite app_nil_r, firstn_slice, slice_one.
        -- rewrite map_app, concat_app, Hout. cbn [map concat piece_output].
           now rewrite app_nil_r.
        -- apply Forall_app. split; [assumption|]. now repeat constructor.
      * apply (IH _ _ _ (pieces ++ [CharPiece (nth i word 0)])); try lia.
        -- rewrite map_app, concat_app, Hsrc. cbn [map concat piece_source].
           now rewrite app_nil_r, firstn_slice, slice_one.
        -- rewrite map_app, concat_app, Hout. cbn [map concat piece_output].
           now rewrite app_nil_r.
        -- apply Forall_app. split; [assumption|]. now repeat constructor.
    + exists pieces. cbn [fst].
      rewrite firstn_all2 in Hsrc by lia. now repeat split.
Qed.

Lemma word_pieces (word : pystr) :
  exists pieces,
    concat (map piece_source pieces) = word
    /\ concat (map piece_output pieces) = _transliterate_word_advanced db word
    /\ Forall piece_valid pieces.
Proof.
  apply (while_loop_pieces word (List.length word) 0 [] [] []);
    try reflexivity; try lia. constructor.
Qed.

(** What the loop appends comes from a value of the table or is a character
    of the word that is no key. *)
Lemma transliterate_word_advanced_forall (P : N -> Prop) (word : pystr) :
  (forall k v, dict_get k eng_to_dev_map = Some v -> Forall P v) ->
  (forall c, In c word -> dict_get [c] eng_to_dev_map = None -> P c) ->
  Forall P (_transliterate_word_advanced db word).
Proof.
  intros Hvalue Hchar.
  destruct (word_pieces word) as (pieces & Hsrc & <- & Hvalid).
  subst word. induction Hvalid as [|p pieces Hp Hvalid IH]; [constructor|].
  cbn [map concat] in *. apply Forall_app. split.
  - destruct p as [key mapped|char]; cbn [piece_output].
    + destruct Hp as [Hget _]. now apply (Hvalue key).
    + constructor; [|constructor]. apply Hchar; [|exact Hp].
      apply in_or_app. left. now left.
  - apply IH. intros c Hc. apply Hchar. apply in_or_app. now right.
Qed.

Lemma transliterate_word_advanced_nonempty (word : pystr) :
  word <> [] -> _transliterate_word_advanced db word <> [].
Proof.
  intros Hne Hempty.
  destruct (word_pieces word) as (pieces & Hsrc & Hout & Hvalid).
  rewrite Hempty in Hout. destruct pieces as [|p pieces].
  - cbn [map concat] in Hsrc. congruence.
  - cbn [map concat] in Hout. apply app_eq_nil in Hout as [Hp _].
    inversion Hvalid as [|? ? Hpv _]; subst.
    destruct p as [key mapped|char]; cbn [piece_output] in Hp; [|discriminate].
    destruct Hpv as [Hget _]. apply eng_to_dev_entry in Hget.
    now destruct Hget as (_ & _ & Hv & _).
Qed.

End LoopShape.

(** X1. The rule for 'y', the rule for 'w' and the lookup of the single
    character are never reached, whatever the word: a character for which
    the search over the lengths 8 down to 1 fails is no key of the table. *)
Theorem special_cases_unreachable (db : UnicodeData) (word : pystr) :
  Forall (fun b => b <> YRule /\ b <> WRule /\ b <> SingleChar)
         (branches_taken db word).
Proof. apply while_loop_live_branches. constructor. Qed.

(** X2. The loop reads the word from left to right without skipping or
    repeating a character: the word is a sequence of pieces, each a key of
    one to eight characters or a character that is no key, and the result
    is the sequence of the values of the keys and of the characters
    kept. *)
Theorem word_segmentation (db : UnicodeData) (word : pystr) :
  exists pieces,
    concat (map piece_source pieces) = word
    /\ concat (map piece_output pieces) = _transliterate_word_advanced db word
    /\ Forall piece_valid pieces.
Proof. apply word_pieces. Qed.

Lemma slice_all (word : pystr) : slice word 0 (0 + List.length word) = word.
Proof.
  unfold slice. cbn [Nat.add skipn]. rewrite Nat.sub_0_r. apply firstn_all.
Qed.

Section FastPath.

Context (db : UnicodeData).

Lemma key_transliterated_whole (key mapped : pystr) :
  dict_get key eng_to_dev_map = Some mapped ->
  _transliterate_word_advanced db key = mapped.
Proof.
  intros Hget. destruct (eng_to_dev_entry key mapped Hget) as (Hlen & _).
  unfold _transliterate_word_advanced, run_word.
  rewrite while_loop_turn by lia.
  assert (Hit : iteration db key 0
                = (Matched (List.length key), mapped, List.length key)).
  { unfold iteration.
    rewrite (try_lengths_longest key 0 _ (List.length key) mapped);
      [reflexivity | lia | lia | now rewrite slice_all | lia]. }
  rewrite Hit, while_loop_exit by lia. reflexivity.
Qed.

Lemma pieces_without_letters (pieces : list piece) :
  Forall piece_valid pieces ->
  Forall (fun c => ascii_lower_letter c = false)
         (concat (map piece_source pieces)) ->
  concat (map piece_output pieces) = concat (map piece_source pieces).
Proof.
  induction 1 as [|p pieces Hp Hvalid IH]; [reflexivity|].
  cbn [map concat]. intros Hall. apply Forall_app in Hall as [Hsrc Hrest].
  rewrite (IH Hrest). f_equal.
  destruct p as [key mapped|char]; [|reflexivity].
  destruct Hp as [Hget _].
  destruct (eng_to_dev_entry key mapped Hget) as (_ & (c & rest & -> & Hc) & _).
  cbn [piece_source] in Hsrc. inversion Hsrc; subst. congruence.
Qed.

Lemma no_letter_unchanged (word : pystr) :
  Forall (fun c => ascii_lower_letter c = false) word ->
  _transliterate_word_advanced db word = word.
Proof.
  intros Hword.
  destruct (word_pieces db word) as (pieces & Hsrc & Hout & Hvalid).
  rewrite <- Hout. rewrite <- Hsrc in Hword |- *.
  now apply pieces_without_letters.
Qed.

Lemma no_letter_no_key (word : pystr) :
  Forall (fun c => ascii_lower_letter c = false) word ->
  dict_get word eng_to_dev_map = None.
Proof.
  intros Hword.
  destruct (dict_get word eng_to_dev_map) as [mapped|] eqn:Hget;
    [|reflexivity].
  destruct (eng_to_dev_entry word mapped Hget) as (_ & (c & rest & -> & Hc) & _).
  inversion Hword; subst. congruence.
Qed.

End FastPath.

(** X3. The whole-word lookup changes no result: on a key of the table
    [_transliterate_word_advanced] returns the value mapped to the key (no
    key is longer than the eight characters the loop tries), so every word
    with a non-empty core is emitted as prefix, then the result of
    [_transliterate_word_advanced] on the core, then suffix. *)
Theorem whole_word_lookup_redundant (db : UnicodeData) :
  (forall key mapped,
     dict_get key eng_to_dev_map = Some mapped ->
     _transliterate_word_advanced db key = mapped)
  /\ (forall word,
        tok_core (tokenize db word) <> [] ->
        transliterate_word db word
        = tok_prefix (tokenize db word)
          ++ _transliterate_word_advanced db (tok_core (tokenize db word))
          ++ tok_suffix (tokenize db word)).
Proof.
  split; [apply key_transliterated_whole|].
  intros word Hcore. rewrite transliterate_word_core by assumption.
  destruct (dict_get (tok_core (tokenize db word)) eng_to_dev_map)
    as [mapped|] eqn:Hget; [|reflexivity].
  now rewrite (key_transliterated_whole db _ _ Hget).
Qed.

Lemma whole_word_lookup_redundant_witness :
  _transliterate_word_advanced devanagari_db (py "remember") = py "रिमेम्बर".
Proof.
  apply (proj1 (whole_word_lookup_redundant devanagari_db)).
  vm_compute. reflexivity.
Defined.

(** X4. A word without lower-case ASCII letters is returned unchanged by
    [_transliterate_word_advanced], and is no key of the table; so a word
    whose lower-cased form has no such letter (digits, Devanagari text,
    symbols) is emitted lower-cased and otherwise unchanged. *)
Theorem no_letter_pass_through (db : UnicodeData) :
  (forall word,
     Forall (fun c => ascii_lower_letter c = false) word ->
     _transliterate_word_advanced db word = word)
  /\ (lower_sound db ->
      forall word,
        Forall (fun c => ascii_lower_letter c = false) (lower db word) ->
        transliterate_word db word = lower db word).
Proof.
  split; [apply no_letter_unchanged|].
  intros Hdb word Hword.
  destruct (tokenize_spec db word) as (Hparts & _).
  destruct (tok_core (tokenize db word)) as [|c core] eqn:Hcore.
  - rewrite transliterate_word_empty_core by assumption.
    symmetry. now apply empty_core_lower.
  - rewrite transliterate_word_core by (rewrite Hcore; discriminate).
    rewrite Hcore in *. rewrite Hparts in Hword.
    apply Forall_app in Hword as [_ Hword].
    apply Forall_app in Hword as [Hword _].
    now rewrite no_letter_no_key, no_letter_unchanged, Hparts.
Qed.

Lemma no_letter_pass_through_witness :
  transliterate_word devanagari_db (py "(2024)") = lower devanagari_db (py "(2024)").
Proof.
  apply (proj2 (no_letter_pass_through devanagari_db)
               devanagari_db_lower_sound).
  vm_compute. repeat constructor.
Defined.

(** ** Words and whitespace of a line *)

Lemma split_ws_aux_all_space (s : pystr) :
  Forall (fun c => isspace c = true) s -> split_ws_aux [] s = [].
Proof.
  induction 1 as [|c s Hc _ IH]; [reflexivity|].
  cbn [split_ws_aux]. now rewrite Hc.
Qed.

Lemma split_ws_blank (line : pystr) : strip line = [] -> split_ws line = [].
Proof. intros H. apply split_ws_aux_all_space. now apply strip_nil_iff. Qed.

Lemma split_ws_token (tok rest : pystr) :
  tok <> [] -> Forall (fun c => isspace c = false) tok ->
  split_ws (tok ++ py " " ++ rest) = tok :: split_ws rest.
Proof.
  intros Hne Hns. unfold split_ws.
  rewrite (split_ws_aux_run tok [] _ Hns), app_nil_r.
  change (py " " ++ rest) with (32 :: rest). cbn [split_ws_aux].
  change (isspace 32) with true. cbn iota.
  destruct (rev tok) as [|c r] eqn:Hrev.
  - apply (f_equal (@List.length N)) in Hrev. rewrite length_rev in Hrev.
    destruct tok; [congruence | discriminate].
  - now rewrite <- Hrev, rev_involutive.
Qed.

Lemma split_ws_join (toks : list pystr) :
  Forall (fun tok => tok <> [] /\ Forall (fun c => isspace c = false) tok) toks ->
  split_ws (join (py " ") toks) = toks.
Proof.
  induction 1 as [|tok toks [Hne Hns] Htoks IH]; [reflexivity|].
  destruct toks as [|tok' toks].
  - cbn [join]. unfold split_ws.
    rewrite <- (app_nil_r tok) at 1.
    rewrite (split_ws_aux_run tok [] [] Hns), app_nil_r. cbn [split_ws_aux].
    destruct (rev tok) as [|c r] eqn:Hrev.
    + apply (f_equal (@List.length N)) in Hrev. rewrite length_rev in Hrev.
      destruct tok; [congruence | discriminate].
    + now rewrite <- Hrev, rev_involutive.
  - change (join (py " ") (tok :: tok' :: toks))
      with (tok ++ py " " ++ join (py " ") (tok' :: toks)).
    now rewrite split_ws_token, IH.
Qed.

Section LineWords.

Context (db : UnicodeData).

Lemma transliterate_line_words (line : pystr) :
  transliterate_line db line
  = join (py " ") (map (transliterate_word db) (split_ws line)).
Proof.
  unfold transliterate_line. destruct (strip line) eqn:Hstrip; [|reflexivity].
  now rewrite (split_ws_blank line Hstrip).
Qed.

Lemma transliterate_word_nonempty (word : pystr) :
  word <> [] -> transliterate_word db word <> [].
Proof.
  intros Hne. unfold transliterate_word.
  destruct (tok_core (tokenize db word)) as [|c core] eqn:Hcore; [assumption|].
  destruct (dict_get (c :: core) eng_to_dev_map) as [mapped|] eqn:Hget;
    intros Hempty; apply app_eq_nil in Hempty as [_ Hempty];
    apply app_eq_nil in Hempty as [Hempty _].
  - destruct (eng_to_dev_entry _ _ Hget) as (_ & _ & Hv & _). congruence.
  - apply transliterate_word_advanced_nonempty in Hempty; [assumption|].
    discriminate.
Qed.

End LineWords.

Lemma split_ws_transliterate_line (db : UnicodeData) (line : pystr) :
  lower_sound db ->
  split_ws (transliterate_line db line)
  = map (transliterate_word db) (split_ws line).
Proof.
  intros Hdb. rewrite transliterate_line_words. apply split_ws_join.
  apply Forall_forall. intros out Hout.
  apply in_map_iff in Hout as (word & <- & Hword).
  pose proof (split_ws_tokens line) as Htok.
  rewrite Forall_forall in Htok. destruct (Htok _ Hword) as [Hne Hns].
  split; [now apply transliterate_word_nonempty|].
  now apply transliterate_word_nospace.
Qed.

(** X5. The words of a transliterated line are the transliterated words of
    the line, one for one and in order: no word is dropped, split or
    merged. *)
Theorem words_preserved (db : UnicodeData) (line : pystr) :
  lower_sound db ->
  split_ws (transliterate_line db line)
  = map (transliterate_word db) (split_ws line).
Proof. apply split_ws_transliterate_line. Qed.

Lemma words_preserved_witness :
  split_ws (transliterate_line devanagari_db (py "  the   (boy) said: 42 "))
  = map (transliterate_word devanagari_db)
        (split_ws (py "  the   (boy) said: 42 ")).
Proof.
  apply (words_preserved devanagari_db (py "  the   (boy) said: 42 ")).
  exact devanagari_db_lower_sound.
Defined.

(** X6. Only the words of a line count: two lines with the same words, in
    the same order, have the same transliteration, whatever whitespace
    separates the words or surrounds them. *)
Theorem whitespace_insensitive (db : UnicodeData) (line1 line2 : pystr) :
  split_ws line1 = split_ws line2 ->
  transliterate_line db line1 = transliterate_line db line2.
Proof. intros H. now rewrite !transliterate_line_words, H. Qed.

Lemma whitespace_insensitive_witness :
  transliterate_line devanagari_db (py "  the   boy ")
  = transliterate_line devanagari_db (py "the boy").
Proof.
  apply (whitespace_insensitive devanagari_db).
  vm_compute. reflexivity.
Defined.

(** ** Texts of several lines *)

Lemma join_app (sep : pystr) (la lb : list pystr) :
  la <> [] -> lb <> [] ->
  join sep (la ++ lb) = join sep la ++ sep ++ join sep lb.
Proof.
  intros Ha Hb. induction la as [|l la IH]; [congruence|].
  destruct la as [|l' la].
  - destruct lb as [|l' lb]; [congruence | reflexivity].
  - change (join sep ((l :: l' :: la) ++ lb))
      with (l ++ sep ++ join sep ((l' :: la) ++ lb)).
    rewrite IH by discriminate.
    change (join sep (l :: l' :: la)) with (l ++ sep ++ join sep (l' :: la)).
    now rewrite <- !app_assoc.
Qed.

Lemma split_newline_app (a b : pystr) :
  split newline (a ++ newline ++ b) = split newline a ++ split newline b.
Proof.
  assert (Hsep : newline <> []) by discriminate.
  pose proof (split_nonempty newline a) as Ha.
  pose proof (split_nonempty newline b) as Hb.
  rewrite <- (join_split newline a Hsep) at 1.
  rewrite <- (join_split newline b Hsep) at 1.
  rewrite <- join_app by assumption.
  apply split_join.
  - assumption.
  - destruct (split newline a); [congruence | discriminate].
  - intros l tail p Hin _ Hp.
    apply (single_sep_free 10); [|assumption].
    apply newline_free.
    apply in_app_or in Hin as [Hin|Hin];
      [apply (split_pieces_free newline a) | apply (split_pieces_free newline b)];
      assumption.
Qed.

(** X7. The transliteration works line by line: the transliteration of two
    texts put together with a line break between them is the
    transliteration of the first, a line break, and the transliteration of
    the second. *)
Theorem transliteration_of_lines (db : UnicodeData) (a b : pystr) :
  english_to_devanagari_transliteration db (a ++ newline ++ b)
  = english_to_devanagari_transliteration db a ++ newline
    ++ english_to_devanagari_transliteration db b.
Proof.
  unfold english_to_devanagari_transliteration.
  rewrite split_newline_app, map_app. apply join_app.
  - pose proof (split_nonempty newline a).
    destruct (split newline a); [congruence | discriminate].
  - pose proof (split_nonempty newline b).
    destruct (split newline b); [congruence | discriminate].
Qed.

(** ** What the transliteration leaves of the Latin alphabet *)

Lemma stripped_not_letter (d : N) : stripped_char d -> ascii_letter d = false.
Proof.
  intros Hd. apply stripped_char_cases in Hd.
  unfold ascii_letter, ascii_upper_letter, ascii_lower_letter.
  code_point_cases; try reflexivity; lia.
Qed.

Lemma devanagari_not_letter (c : N) :
  in_devanagari_block c = true -> ascii_letter c = false.
Proof.
  unfold in_devanagari_block. intros H.
  apply andb_true_iff in H as [Hlo Hhi]. apply N.leb_le in Hlo, Hhi.
  unfold ascii_letter, ascii_upper_letter, ascii_lower_letter.
  code_point_cases; try reflexivity; lia.
Qed.

Lemma lowered_not_upper (db : UnicodeData) (d : N) :
  lowered db d -> ascii_upper_letter d = false.
Proof.
  intros [_ Hd]. unfold to_lower_full, is_ascii, ascii_upper_letter in *.
  destruct (N.ltb_spec d 128).
  - destruct (N.leb_spec 65 d); destruct (N.leb_spec d 90); cbn [andb] in *;
      try reflexivity. injection Hd as Hd. lia.
  - destruct (N.leb_spec 65 d); destruct (N.leb_spec d 90); cbn [andb];
      try reflexivity. lia.
Qed.

Lemma not_key_not_lower_letter (c : N) :
  dict_get [c] eng_to_dev_map = None -> ascii_lower_letter c = false.
Proof.
  intros Hnone. destruct (ascii_lower_letter c) eqn:Hc; [|reflexivity].
  apply lower_letter_in_table in Hc. unfold dict_mem in Hc.
  now rewrite Hnone in Hc.
Qed.

Section NoLatinLetter.

Context (db : UnicodeData).
Hypothesis db_sound : lower_sound db.

Lemma token_parts_lowered (word : pystr) :
  Forall (lowered db) (tok_prefix (tokenize db word))
  /\ Forall (lowered db) (tok_core (tokenize db word))
  /\ Forall (lowered db) (tok_suffix (tokenize db word)).
Proof.
  pose proof (lower_ctx_lowered db db_sound [] word []) as Hlow.
  fold (lower db word) in Hlow.
  destruct (tokenize_spec db word) as (Hparts & _).
  rewrite Hparts, !Forall_app in Hlow. exact Hlow.
Qed.

Lemma core_transliterated_no_letter (word : pystr) :
  Forall (fun c => ascii_letter c = false)
         (_transliterate_word_advanced db (tok_core (tokenize db word))).
Proof.
  destruct (token_parts_lowered word) as (_ & Hcore & _).
  apply transliterate_word_advanced_forall.
  - intros k v Hget. destruct (eng_to_dev_entry k v Hget) as (_ & _ & _ & Hv).
    eapply Forall_impl; [|exact Hv]. apply devanagari_not_letter.
  - intros c Hc Hnone. rewrite Forall_forall in Hcore.
    unfold ascii_letter.
    now rewrite (lowered_not_upper db c (Hcore c Hc)),
      (not_key_not_lower_letter c Hnone).
Qed.

Lemma transliterate_word_no_letter (word : pystr) :
  Forall (fun c => ascii_letter c = false) (transliterate_word db word).
Proof.
  destruct (tokenize_spec db word) as (Hparts & Hprefix & Hsuffix & _).
  assert (Hp : Forall (fun c => ascii_letter c = false)
                      (tok_prefix (tokenize db word))).
  { eapply Forall_impl; [|exact Hprefix]. intros d Hd.
    apply stripped_not_letter, in_or_app. left. now apply in_str_In. }
  assert (Hs : Forall (fun c => ascii_letter c = false)
                      (tok_suffix (tokenize db word))).
  { eapply Forall_impl; [|exact Hsuffix]. intros d Hd.
    apply stripped_not_letter, in_or_app. right. now apply in_str_In. }
  destruct (tok_core (tokenize db word)) as [|c core] eqn:Hcore.
  - rewrite transliterate_word_empty_core by assumption.
    rewrite <- (empty_core_lower db db_sound word Hcore), Hparts.
    cbn [app]. apply Forall_app. now split.
  - rewrite transliterate_word_core by (rewrite Hcore; discriminate).
    rewrite !Forall_app. repeat split; try assumption.
    destruct (dict_get (tok_core (tokenize db word)) eng_to_dev_map)
      as [mapped|] eqn:Hget.
    + destruct (eng_to_dev_entry _ _ Hget) as (_ & _ & _ & Hv).
      eapply Forall_impl; [|exact Hv]. apply devanagari_not_letter.
    + apply core_transliterated_no_letter.
Qed.

Lemma transliteration_no_letter (text : pystr) :
  Forall (fun c => ascii_letter c = false)
         (english_to_devanagari_transliteration db text).
Proof.
  unfold english_to_devanagari_transliteration.
  apply join_forall; [repeat constructor|].
  apply Forall_forall. intros out Hout.
  apply in_map_iff in Hout as (line & <- & _).
  rewrite transliterate_line_words.
  apply join_forall; [repeat constructor|].
  apply Forall_forall. intros out Hout.
  apply in_map_iff in Hout as (word & <- & _).
  apply transliterate_word_no_letter.
Qed.

End NoLatinLetter.

(** X8. No ASCII letter is left in a transliteration: every letter a-z of
    the lower-cased text lies in a piece the table maps to Devanagari, and
    what is kept of the text is no letter A-Z or a-z. *)
Theorem no_ascii_letter_left (db : UnicodeData) (text : pystr) :
  lower_sound db ->
  Forall (fun c => ascii_letter c = false)
         (english_to_devanagari_transliteration db text).
Proof. intros Hdb. now apply transliteration_no_letter. Qed.

Lemma no_ascii_letter_left_witness :
  Forall (fun c => ascii_letter c = false)
         (english_to_devanagari_transliteration devanagari_db
            (py "Hello, World! (xyz) 42")).
Proof.
  apply (no_ascii_letter_left devanagari_db).
  exact devanagari_db_lower_sound.
Defined.

(** ** Transliterating twice *)

Lemma extract_leading_exact (acc prefix rest : pystr) :
  Forall (fun c => in_str c leading_chars = true) prefix ->
  (forall c r, rest = c :: r -> in_str c leading_chars = false) ->
  extract_leading acc (prefix ++ rest) = (acc ++ prefix, rest).
Proof.
  intros Hprefix Hrest. revert acc.
  induction Hprefix as [|c prefix Hc _ IH]; intros acc.
  - cbn [app]. rewrite app_nil_r. destruct rest as [|c r]; [reflexivity|].
    cbn [extract_leading]. now rewrite (Hrest c r eq_refl).
  - cbn [app extract_leading]. rewrite Hc, IH, <- app_assoc. reflexivity.
Qed.

Lemma extract_trailing_rev_exact (stripped rest acc : pystr) :
  Forall (fun c => in_str c trailing_chars = true) stripped ->
  (forall c r, rest = c :: r -> in_str c trailing_chars = false) ->
  extract_trailing_rev (stripped ++ rest) acc = (rest, rev stripped ++ acc).
Proof.
  intros Hstripped Hrest. revert acc.
  induction Hstripped as [|c stripped Hc _ IH]; intros acc.
  - cbn [app rev]. destruct rest as [|c r]; [reflexivity|].
    cbn [extract_trailing_rev]. now rewrite (Hrest c r eq_refl).
  - cbn [app extract_trailing_rev rev]. rewrite Hc, IH, <- app_assoc.
    reflexivity.
Qed.

Lemma extract_trailing_exact (core suffix : pystr) :
  Forall (fun c => in_str c trailing_chars = true) suffix ->
  (forall c front, core = front ++ [c] -> in_str c trailing_chars = false) ->
  extract_trailing (core ++ suffix) = (core, suffix).
Proof.
  intros Hsuffix Hcore. unfold extract_trailing.
  rewrite rev_app_distr, (extract_trailing_rev_exact (rev suffix) (rev core) []).
  - now rewrite !rev_involutive, app_nil_r.
  - now apply Forall_rev.
  - intros c r Heq. apply (Hcore c (rev r)).
    rewrite <- (rev_involutive core), Heq. reflexivity.
Qed.

(** The ends of what the loop returns: a character of a value of the table,
    or the character at the same end of the word. *)
Lemma pieces_head (pieces : list piece) (d : N) (rest : pystr) :
  Forall piece_valid pieces ->
  concat (map piece_output pieces) = d :: rest ->
  in_devanagari_block d = true
  \/ exists rest', concat (map piece_source pieces) = d :: rest'.
Proof.
  intros Hvalid. destruct Hvalid as [|p pieces Hp _]; [discriminate|].
  cbn [map concat]. destruct p as [key mapped|char];
    cbn [piece_output piece_source].
  - destruct Hp as [Hget _].
    destruct (eng_to_dev_entry key mapped Hget) as (_ & _ & Hne & Hv).
    destruct mapped as [|m mapped]; [congruence|]. intros Heq.
    injection Heq as <- _. left. now inversion Hv.
  - intros Heq. injection Heq as <- _. right. now eexists.
Qed.

Lemma pieces_last (pieces : list piece) (d : N) (front : pystr) :
  Forall piece_valid pieces ->
  concat (map piece_output pieces) = front ++ [d] ->
  in_devanagari_block d = true
  \/ exists front', concat (map piece_source pieces) = front' ++ [d].
Proof.
  intros Hvalid. revert front.
  induction Hvalid as [|p pieces Hp Hvalid IH]; intros front.
  - intros Heq. symmetry in Heq. now apply app_eq_nil in Heq as [_ Heq].
  - cbn [map concat].
    destruct (concat (map piece_output pieces)) as [|o outs] eqn:Houts.
    + assert (Hsrc : concat (map piece_source pieces) = []).
      { clear IH Hp. destruct Hvalid as [|q pieces Hq _]; [reflexivity|].
        cbn [map concat] in Houts. apply app_eq_nil in Houts as [Hq' _].
        destruct q as [key mapped|char]; cbn [piece_output] in Hq';
          [|discriminate].
        destruct Hq as [Hget _].
        destruct (eng_to_dev_entry key mapped Hget) as (_ & _ & Hne & _).
        congruence. }
      rewrite Hsrc, !app_nil_r.
      destruct p as [key mapped|char]; cbn [piece_output piece_source].
      * destruct Hp as [Hget _].
        destruct (eng_to_dev_entry key mapped Hget) as (_ & _ & _ & Hv).
        intros Heq. left. rewrite Heq in Hv.
        apply Forall_app in Hv as [_ Hv]. now inversion Hv.
      * intros Heq. right. exists [].
        destruct front as [|f front]; [exact Heq|].
        injection Heq as _ Heq. now destruct front.
    + intros Heq.
      destruct (exists_last (l := o :: outs)) as (front' & e & Hlast);
        [discriminate|].
      rewrite Hlast, app_assoc in Heq. apply app_inj_tail in Heq as [_ ->].
      destruct (IH front' Hlast) as [Hblock|[front'' Hsrc]]; [now left|].
      right. exists (piece_source p ++ front'').
      now rewrite Hsrc, app_assoc.
Qed.

Lemma devanagari_not_stripped (d : N) :
  in_devanagari_block d = true ->
  in_str d leading_chars = false /\ in_str d trailing_chars = false.
Proof.
  unfold in_devanagari_block. intros H.
  apply andb_true_iff in H as [Hlo Hhi]. apply N.leb_le in Hlo, Hhi.
  split.
  - destruct (in_str d leading_chars) eqn:Hin; [|reflexivity].
    apply in_str_In in Hin.
    assert (Hs : stripped_char d) by (apply in_or_app; now left).
    apply stripped_char_cases in Hs. lia.
  - destruct (in_str d trailing_chars) eqn:Hin; [|reflexivity].
    apply in_str_In in Hin.
    assert (Hs : stripped_char d) by (apply in_or_app; now right).
    apply stripped_char_cases in Hs. lia.
Qed.

Section TransliteratingTwice.

Context (db : UnicodeData).
Hypothesis db_sound : lower_sound db.
Hypothesis db_caseless : devanagari_caseless db.

Lemma devanagari_lowered (d : N) :
  in_devanagari_block d = true -> lowered db d.
Proof.
  intros Hd. split.
  - unfold in_devanagari_block, capital_sigma in *.
    apply andb_true_iff in Hd as [Hlo Hhi]. apply N.leb_le in Hlo, Hhi. lia.
  - unfold to_lower_full, is_ascii.
    destruct (N.ltb_spec d 128); [|now apply db_caseless].
    unfold in_devanagari_block in Hd.
    apply andb_true_iff in Hd as [Hlo _]. apply N.leb_le in Hlo. lia.
Qed.

(** A word with a non-empty core is emitted as prefix, transliterated core
    and suffix, and this is again the split of the emitted word: the
    transliterated core neither starts nor ends with a stripped character,
    holds no lower-case ASCII letter and is lower-cased already. *)
Lemma whole_word_parts (word : pystr) :
  tok_core (tokenize db word) <> [] ->
  transliterate_word db word
  = tok_prefix (tokenize db word)
    ++ _transliterate_word_advanced db (tok_core (tokenize db word))
    ++ tok_suffix (tokenize db word)
  /\ (forall c r,
        _transliterate_word_advanced db (tok_core (tokenize db word)) = c :: r ->
        in_str c leading_chars = false)
  /\ (forall c front,
        _transliterate_word_advanced db (tok_core (tokenize db word))
        = front ++ [c] ->
        in_str c trailing_chars = false)
  /\ Forall (fun c => ascii_lower_letter c = false)
            (_transliterate_word_advanced db (tok_core (tokenize db word)))
  /\ Forall (lowered db)
            (tok_prefix (tokenize db word)
             ++ _transliterate_word_advanced db (tok_core (tokenize db word))
             ++ tok_suffix (tokenize db word)).
Proof.
  intros Hne.
  destruct (tokenize_spec db word) as (_ & _ & _ & Hmaxp & Hmaxs).
  destruct (token_parts_lowered db db_sound word) as (Hlp & Hlc & Hls).
  destruct (word_pieces db (tok_core (tokenize db word)))
    as (pieces & Hsrc & Hout & Hvalid).
  split; [|split; [|split; [|split]]].
  - rewrite transliterate_word_core by assumption.
    destruct (dict_get (tok_core (tokenize db word)) eng_to_dev_map)
      as [mapped|] eqn:Hget; [|reflexivity].
    now rewrite (key_transliterated_whole db _ _ Hget).
  - intros c r Heq. rewrite <- Hout in Heq.
    destruct (pieces_head pieces c r Hvalid Heq) as [Hblock|[rest' Hcore]].
    + now apply devanagari_not_stripped.
    + apply (Hmaxp c (rest' ++ tok_suffix (tokenize db word))).
      now rewrite <- Hsrc, Hcore.
  - intros c front Heq. rewrite <- Hout in Heq.
    destruct (pieces_last pieces c front Hvalid Heq) as [Hblock|[front' Hcore]].
    + now apply devanagari_not_stripped.
    + apply (Hmaxs c front'). now rewrite <- Hsrc.
  - eapply Forall_impl; [|apply (core_transliterated_no_letter db db_sound)].
    intros c Hc. unfold ascii_letter in Hc.
    now apply orb_false_iff in Hc as [_ Hc].
  - rewrite !Forall_app. repeat split; try assumption.
    apply transliterate_word_advanced_forall.
    + intros k v Hget.
      destruct (eng_to_dev_entry k v Hget) as (_ & _ & _ & Hv).
      eapply Forall_impl; [|exact Hv]. apply devanagari_lowered.
    + intros c Hc _. rewrite Forall_forall in Hlc. now apply Hlc.
Qed.

Lemma transliterate_word_fixed (word : pystr) :
  transliterate_word db (transliterate_word db word)
  = transliterate_word db word.
Proof.
  destruct (tok_core (tokenize db word)) as [|c0 core0] eqn:Hcore.
  { now rewrite !(transliterate_word_empty_core db word Hcore). }
  assert (Hne : tok_core (tokenize db word) <> [])
    by (rewrite Hcore; discriminate).
  destruct (whole_word_parts word Hne) as (Hout & Hlead & Htrail & Hnolet & Hlow).
  set (prefix := tok_prefix (tokenize db word)) in *.
  set (suffix := tok_suffix (tokenize db word)) in *.
  set (X := _transliterate_word_advanced db (tok_core (tokenize db word))) in *.
  rewrite Hout.
  destruct (tokenize_spec db word) as (_ & Hprefix & Hsuffix & _).
  fold prefix suffix in Hprefix, Hsuffix.
  assert (HX : X <> []).
  { apply transliterate_word_advanced_nonempty. exact Hne. }
  assert (Htok : tokenize db (prefix ++ X ++ suffix)
                 = {| tok_prefix := prefix; tok_core := X; tok_suffix := suffix |}).
  { unfold tokenize. unfold lower. rewrite lower_ctx_fixed by assumption.
    rewrite (extract_leading_exact [] prefix (X ++ suffix) Hprefix).
    - rewrite (extract_trailing_exact X suffix Hsuffix Htrail). reflexivity.
    - intros c r Heq. destruct X as [|x X']; [congruence|].
      injection Heq as <- _. now apply (Hlead x X'). }
  unfold transliterate_word. rewrite Htok. cbn [tok_prefix tok_core tok_suffix].
  destruct X as [|x X'] eqn:HXeq; [congruence|]. rewrite <- HXeq in *.
  now rewrite (no_letter_no_key X Hnolet), (no_letter_unchanged db X Hnolet).
Qed.

End TransliteratingTwice.

Lemma transliterate_line_fixed (db : UnicodeData) (line : pystr) :
  lower_sound db -> devanagari_caseless db ->
  transliterate_line db (transliterate_line db line)
  = transliterate_line db line.
Proof.
  intros Hdb Hcaseless.
  rewrite (transliterate_line_words db (transliterate_line db line)).
  rewrite split_ws_transliterate_line by assumption.
  rewrite map_map, (transliterate_line_words db line). f_equal.
  apply map_ext. intros word. now apply transliterate_word_fixed.
Qed.

(** X9. Transliterating a transliteration changes nothing: the first pass
    leaves single spaces between the words and nothing the second pass
    maps. *)
Theorem transliteration_idempotent (db : UnicodeData) (text : pystr) :
  lower_sound db -> devanagari_caseless db ->
  english_to_devanagari_transliteration db
    (english_to_devanagari_transliteration db text)
  = english_to_devanagari_transliteration db text.
Proof.
  intros Hdb Hcaseless.
  unfold english_to_devanagari_transliteration at 1.
  rewrite transliteration_lines by assumption.
  unfold english_to_devanagari_transliteration.
  rewrite map_map. f_equal. apply map_ext. intros line.
  now apply transliterate_line_fixed.
Qed.

Lemma devanagari_db_caseless : devanagari_caseless devanagari_db.
Proof. intros c _. reflexivity. Qed.

Lemma transliteration_idempotent_witness :
  english_to_devanagari_transliteration devanagari_db
    (english_to_devanagari_transliteration devanagari_db
       (py "Don't  think (twice), x2!"))
  = english_to_devanagari_transliteration devanagari_db
      (py "Don't  think (twice), x2!").
Proof.
  apply (transliteration_idempotent devanagari_db).
  - exact devanagari_db_lower_sound.
  - exact devanagari_db_caseless.
Defined.

(** * Further properties of the romanization engine *)

Lemma dict_get_filter (f : pystr * pystr -> bool) (k : pystr) (d : dict) :
  (forall v, In (k, v) d -> f (k, v) = true) ->
  dict_get k (filter f d) = dict_get k d.
Proof.
  unfold dict_get. intros Hkeep. generalize (@None pystr) as found.
  induction d as [|[k0 v0] d IH]; intros found; [reflexivity|].
  cbn [filter fold_left fst snd].
  destruct (f (k0, v0)) eqn:Hf.
  - cbn [fold_left fst snd]. apply IH. intros v Hin. apply Hkeep. now right.
  - destruct (str_eqb k k0) eqn:Hk.
    + apply str_eqb_eq in Hk. subst k0.
      rewrite (Hkeep v0) in Hf by now left. discriminate.
    + apply IH. intros v Hin. apply Hkeep. now right.
Qed.

Lemma enhanced_values_check :
  forallb (fun kv => forallb ascii_lower_letter (snd kv)) enhanced_map = true.
Proof. vm_compute. reflexivity. Qed.

Lemma enhanced_value_letters (k v : pystr) :
  dict_get k enhanced_map = Some v ->
  Forall (fun c => ascii_lower_letter c = true) v.
Proof.
  intros Hget. apply dict_get_key_In in Hget.
  pose proof enhanced_values_check as Hall.
  rewrite forallb_forall in Hall. specialize (Hall _ Hget). cbn [snd] in Hall.
  apply Forall_forall. now rewrite forallb_forall in Hall.
Qed.

Lemma enhanced_keys_check :
  forallb (fun kv => match fst kv with
                     | [] => false
                     | c :: _ => negb (is_ascii c)
                     end) enhanced_map = true.
Proof. vm_compute. reflexivity. Qed.

Lemma ascii_not_mapped (c : N) :
  is_ascii c = true -> dict_mem [c] enhanced_map = false.
Proof.
  intros Hc. unfold dict_mem.
  destruct (dict_get [c] enhanced_map) as [v|] eqn:Hget; [|reflexivity].
  apply dict_get_key_In in Hget.
  pose proof enhanced_keys_check as Hall.
  rewrite forallb_forall in Hall. specialize (Hall _ Hget).
  cbn [fst] in Hall. now rewrite Hc in Hall.
Qed.

Lemma lower_letter_ascii (c : N) :
  ascii_lower_letter c = true -> is_ascii c = true.
Proof.
  unfold ascii_lower_letter, is_ascii. intros H.
  apply andb_true_iff in H as [_ H]. apply N.leb_le in H.
  apply N.ltb_lt. lia.
Qed.

Section FallbackLoop.

Context (db : UnicodeData).

Lemma romanize_char_unmapped_result (c : N) :
  Forall (fun d => dict_mem [d] enhanced_map = false) (romanize_char db c).
Proof.
  unfold romanize_char.
  destruct (dict_get [c] enhanced_map) as [v|] eqn:Hget.
  - eapply Forall_impl; [|apply (enhanced_value_letters _ _ Hget)].
    intros d Hd. now apply ascii_not_mapped, lower_letter_ascii.
  - assert (Hc : dict_mem [c] enhanced_map = false)
      by (unfold dict_mem; now rewrite Hget).
    destruct (isspace c || negb (isalpha db c)); now repeat constructor.
Qed.

Lemma manual_loop_unmapped_result (hindi_text : pystr) :
  Forall (fun d => dict_mem [d] enhanced_map = false)
         (manual_loop db hindi_text).
Proof.
  rewrite manual_loop_flat_map.
  induction hindi_text as [|c text IH]; [constructor|].
  cbn [flat_map]. apply Forall_app. split; [|assumption].
  apply romanize_char_unmapped_result.
Qed.

End FallbackLoop.

(** X10. The loop of the fallback leaves no character the fallback table
    maps: its result holds only characters that are no key of the table,
    and running the loop on its result changes nothing. *)
Theorem fallback_loop_complete (db : UnicodeData) (hindi_text : pystr) :
  Forall (fun c => dict_mem [c] enhanced_map = false)
         (manual_loop db hindi_text)
  /\ manual_loop db (manual_loop db hindi_text) = manual_loop db hindi_text.
Proof.
  split; [apply manual_loop_unmapped_result|].
  apply manual_loop_unmapped, manual_loop_unmapped_result.
Qed.

(** X11. The fallback looks characters up one at a time, so the entries of
    its table whose key has several characters (the conjuncts and the two
    vowels with a nasal or aspirate sign) are never used: each character
    is mapped as by the table without them. *)
Theorem conjunct_entries_unused (db : UnicodeData) (char : N) :
  romanize_char db char
  = match dict_get [char] (single_character_entries enhanced_map) with
    | Some roman => roman
    | None => [char]
    end
  /\ List.length (single_character_entries enhanced_map)
     = (List.length enhanced_map - 5)%nat.
Proof.
  split; [|vm_compute; reflexivity].
  unfold romanize_char, single_character_entries.
  rewrite dict_get_filter by (intros v _; reflexivity).
  destruct (dict_get [char] enhanced_map); [reflexivity|].
  now destruct (isspace char || negb (isalpha db char)).
Qed.

Lemma basic_table_check :
  forallb (fun kv => option_str_eqb (dict_get (fst kv) enhanced_map)
                                    (dict_get (fst kv) hindi_to_roman_map))
          hindi_to_roman_map = true.
Proof. vm_compute. reflexivity. Qed.

Lemma basic_entry_enhanced (k v : pystr) :
  dict_get k hindi_to_roman_map = Some v -> dict_get k enhanced_map = Some v.
Proof.
  intros Hget. pose proof (dict_get_key_In _ _ _ Hget) as Hin.
  pose proof basic_table_check as Hall.
  rewrite forallb_forall in Hall. specialize (Hall _ Hin).
  cbn [fst] in Hall. rewrite Hget in Hall.
  destruct (dict_get k enhanced_map) as [v'|]; [|discriminate].
  cbn [option_str_eqb] in Hall. apply str_eqb_eq in Hall. now subst.
Qed.

Lemma basic_values_check :
  forallb (fun kv => negb (Nat.eqb (List.length (snd kv)) 0)
                     && forallb ascii_lower_letter (snd kv))
          hindi_to_roman_map = true.
Proof. vm_compute. reflexivity. Qed.

Lemma basic_value_letters (k v : pystr) :
  dict_get k hindi_to_roman_map = Some v ->
  v <> [] /\ Forall (fun c => ascii_lower_letter c = true) v.
Proof.
  intros Hget. apply dict_get_key_In in Hget.
  pose proof basic_values_check as Hall.
  rewrite forallb_forall in Hall. specialize (Hall _ Hget). cbn [snd] in Hall.
  apply andb_true_iff in Hall as [Hne Hletters]. split.
  - destruct v; [discriminate | discriminate].
  - apply Forall_forall. now rewrite forallb_forall in Hletters.
Qed.

Section BasicLoop.

Context (db : UnicodeData).

Lemma basic_loop_acc (hindi_text result : pystr) :
  fold_left (fun result char => result ++ romanize_char_basic db char)
            hindi_text result
  = result ++ flat_map (romanize_char_basic db) hindi_text.
Proof.
  revert result; induction hindi_text as [|c text IH]; intros result; simpl.
  - now rewrite app_nil_r.
  - now rewrite IH, app_assoc.
Qed.

Lemma basic_loop_flat_map (hindi_text : pystr) :
  basic_loop db hindi_text = flat_map (romanize_char_basic db) hindi_text.
Proof. unfold basic_loop. now rewrite basic_loop_acc. Qed.

Lemma romanize_char_basic_agrees (c : N) :
  dict_mem [c] enhanced_map = dict_mem [c] hindi_to_roman_map ->
  romanize_char_basic db c = romanize_char db c.
Proof.
  unfold dict_mem, romanize_char_basic, romanize_char.
  destruct (dict_get [c] hindi_to_roman_map) as [v|] eqn:Hbasic.
  - now rewrite (basic_entry_enhanced _ _ Hbasic).
  - destruct (dict_get [c] enhanced_map); [discriminate | reflexivity].
Qed.

Lemma basic_loop_letters (hindi_text : pystr) :
  Forall (fun c => dict_mem [c] hindi_to_roman_map = true) hindi_text ->
  Forall (fun c => ascii_lower_letter c = true) (basic_loop db hindi_text).
Proof.
  rewrite basic_loop_flat_map.
  induction 1 as [|c text Hc _ IH]; [constructor|].
  cbn [flat_map]. apply Forall_app. split; [|assumption].
  unfold dict_mem in Hc. unfold romanize_char_basic.
  destruct (dict_get [c] hindi_to_roman_map) as [v|] eqn:Hget;
    [|discriminate].
  now apply (basic_value_letters [c] v).
Qed.

Context (ToTitleFull : N -> pystr).

Lemma title_after_cased (before s : pystr) :
  Forall (fun c => ascii_lower_letter c = true) s ->
  title_from db ToTitleFull true before s = s.
Proof.
  intros Hs. revert before.
  induction Hs as [|c s Hc _ IH]; intros before; [reflexivity|].
  cbn [title_from].
  assert (Hcased : is_cased db c = true).
  { unfold is_cased, ascii_letter.
    now rewrite (lower_letter_ascii c Hc), Hc, orb_true_r. }
  assert (Hlow : lower_ucs4 db before c s = [c]).
  { unfold lower_ucs4, to_lower_full.
    rewrite (lower_letter_ascii c Hc).
    unfold ascii_lower_letter, ascii_upper_letter, capital_sigma in *.
    apply andb_true_iff in Hc as [Hlo Hhi]. apply N.leb_le in Hlo, Hhi.
    destruct (N.eqb_spec c 931); [lia|].
    code_point_cases; try reflexivity; lia. }
  now rewrite Hcased, Hlow, IH.
Qed.

Lemma title_of_letters (c : N) (rest : pystr) :
  Forall (fun c => ascii_lower_letter c = true) (c :: rest) ->
  title db ToTitleFull (c :: rest) = (c - 32) :: rest.
Proof.
  intros Hs. inversion Hs as [|? ? Hc Hrest]; subst.
  unfold title. cbn [title_from].
  unfold to_title_full. rewrite (lower_letter_ascii c Hc), Hc.
  assert (Hcased : is_cased db c = true).
  { unfold is_cased, ascii_letter.
    now rewrite (lower_letter_ascii c Hc), Hc, orb_true_r. }
  now rewrite Hcased, title_after_cased.
Qed.

End BasicLoop.

(** X12. The table of the enhanced fallback extends the basic table: a key
    of the basic table has the same value in both, and on a text in which
    no character is a key of the enhanced table only (the vowel signs), the
    loop of [_manual_hindi_to_roman] and the loop of
    [_enhanced_manual_hindi_to_roman] give the same result. *)
Theorem enhanced_table_extends_basic (db : UnicodeData) :
  (forall key roman,
     dict_get key hindi_to_roman_map = Some roman ->
     dict_get key enhanced_map = Some roman)
  /\ (forall hindi_text,
        Forall (fun c => dict_mem [c] enhanced_map
                         = dict_mem [c] hindi_to_roman_map) hindi_text ->
        basic_loop db hindi_text = manual_loop db hindi_text).
Proof.
  split; [apply basic_entry_enhanced|].
  intros hindi_text Hall.
  rewrite basic_loop_flat_map, manual_loop_flat_map.
  induction Hall as [|c text Hc _ IH]; [reflexivity|].
  cbn [flat_map]. now rewrite IH, romanize_char_basic_agrees.
Qed.

Lemma enhanced_table_extends_basic_witness :
  basic_loop devanagari_db (py "नमन, भरत!")
  = manual_loop devanagari_db (py "नमन, भरत!").
Proof.
  apply (proj2 (enhanced_table_extends_basic devanagari_db)).
  vm_compute. repeat constructor.
Defined.

(** X13. On a text made of characters the basic table maps,
    [_manual_hindi_to_roman] returns the romanization in lower-case ASCII
    letters with its first letter made upper-case: [title()] meets no
    character without case after which it would start a new word. *)
Theorem manual_romanization_capitalized
        (db : UnicodeData) (ToTitleFull : N -> pystr) (hindi_text : pystr) :
  Forall (fun c => dict_mem [c] hindi_to_roman_map = true) hindi_text ->
  Forall (fun c => ascii_lower_letter c = true) (basic_loop db hindi_text)
  /\ _manual_hindi_to_roman db ToTitleFull hindi_text
     = match basic_loop db hindi_text with
       | [] => []
       | c :: rest => (c - 32) :: rest
       end.
Proof.
  intros Htext. pose proof (basic_loop_letters db hindi_text Htext) as Hletters.
  split; [assumption|]. unfold _manual_hindi_to_roman.
  destruct (basic_loop db hindi_text) as [|c rest]; [reflexivity|].
  now apply title_of_letters.
Qed.

Lemma manual_romanization_capitalized_witness :
  _manual_hindi_to_roman devanagari_db (fun c => [c]) (py "भरत") = py "Bhrt".
Proof.
  apply (manual_romanization_capitalized devanagari_db (fun c => [c]) (py "भरत")).
  vm_compute. repeat constructor.
Defined.

(** ** The stages of the cleanup pass *)

Lemma replace_char_gone (c : N) (new s : pystr) :
  ~ In c new -> ~ In c (replace [c] new s).
Proof.
  intros Hnew. unfold replace.
  induction s as [|x s IH]; [intros []|].
  cbn [replace_aux is_prefix List.length Nat.sub]. rewrite andb_true_r.
  destruct (N.eqb_spec c x) as [->|Hne].
  - intros Hin. apply in_app_or in Hin as [Hin|Hin]; [now apply Hnew | now apply IH].
  - intros [Heq|Hin]; [congruence | now apply IH].
Qed.

Lemma fold_rules_forall (P : N -> Prop) (rules : dict) (text : pystr) :
  (forall kv, In kv rules -> Forall P (snd kv)) ->
  Forall P text ->
  Forall P (fold_left (fun text kv => replace (fst kv) (snd kv) text)
                      rules text).
Proof.
  revert text. induction rules as [|[old new] rules IH]; intros text Hrules Htext;
    [assumption|].
  cbn [fold_left fst snd]. apply IH.
  - intros kv Hin. apply Hrules. now right.
  - apply replace_forall; [|assumption]. apply (Hrules (old, new)). now left.
Qed.

(** A rule that replaces a character is final when no later rule writes
    the character. *)
Lemma rule_removes (c : N) (before after : dict) (new text : pystr) :
  ~ In c new ->
  forallb (fun kv => negb (in_str c (snd kv))) after = true ->
  ~ In c (fold_left (fun text kv => replace (fst kv) (snd kv) text)
                    (before ++ ([c], new) :: after) text).
Proof.
  intros Hnew Hafter. rewrite fold_left_app. cbn [fold_left fst snd].
  set (t := fold_left _ before text).
  assert (H : Forall (fun d => d <> c)
                     (fold_left (fun text kv => replace (fst kv) (snd kv) text)
                                after (replace [c] new t))).
  { apply fold_rules_forall.
    - intros kv Hin. rewrite forallb_forall in Hafter.
      specialize (Hafter kv Hin). apply Forall_forall. intros d Hd ->.
      apply in_str_In in Hd. now rewrite Hd in Hafter.
    - apply Forall_forall. intros d Hd ->.
      now apply (replace_char_gone c new t). }
  rewrite Forall_forall in H. intros Hin. now apply (H c Hin).
Qed.

(** X14. After the substitutions no 'M', no 'H' and no 'ñ' is left in the
    text, whatever the input: each is replaced by its rule, and no later
    rule writes it. *)
Theorem markers_replaced (text : pystr) :
  ~ In 77 (apply_replacements text)
  /\ ~ In 72 (apply_replacements text)
  /\ ~ In 241 (apply_replacements text).
Proof.
  unfold apply_replacements. repeat split.
  - assert (H : replacements
                = firstn 15 replacements
                  ++ ([77], py "m") :: skipn 16 replacements)
      by (vm_compute; reflexivity).
    rewrite H. apply rule_removes; [|vm_compute; reflexivity].
    vm_compute. intuition discriminate.
  - assert (H : replacements
                = firstn 16 replacements
                  ++ ([72], py "h") :: skipn 17 replacements)
      by (vm_compute; reflexivity).
    rewrite H. apply rule_removes; [|vm_compute; reflexivity].
    vm_compute. intuition discriminate.
  - assert (H : replacements
                = firstn 9 replacements
                  ++ ([241], py "ny") :: skipn 10 replacements)
      by (vm_compute; reflexivity).
    rewrite H. apply rule_removes; [|vm_compute; reflexivity].
    vm_compute. intuition discriminate.
Qed.

Section TrimmedSentences.

Context (db : UnicodeData).
Hypothesis db_sound : upper_sound db.

Lemma strip_capitalize_sentence (sentence : pystr) :
  strip (capitalize_sentence db sentence) = capitalize_sentence db sentence.
Proof.
  rewrite capitalize_sentence_eq.
  destruct (strip_spec sentence) as (a & b & _ & _ & _ & Hhead & Hlast).
  destruct (strip sentence) as [|c rest]; [reflexivity|].
  specialize (Hhead c rest eq_refl).
  pose proof (to_upper_full_nospace db db_sound c Hhead) as Hns.
  pose proof (to_upper_full_nonempty db db_sound c) as Hne.
  destruct (to_upper_full db c) as [|d u] eqn:Hu; [congruence|].
  apply strip_id.
  - intros c0 r0 Heq. injection Heq as <- _. now inversion Hns.
  - intros c0 front Heq.
    destruct rest as [|y rest'].
    + rewrite app_nil_r in Heq.
      rewrite Forall_forall in Hns. apply Hns. rewrite Heq.
      apply in_or_app. right. now left.
    + destruct (exists_last (l := y :: rest')) as (r' & z & Hrest);
        [discriminate|].
      rewrite Hrest in *.
      rewrite app_assoc in Heq. apply app_inj_tail in Heq as [_ <-].
      apply (Hlast z (c :: r')). reflexivity.
Qed.

End TrimmedSentences.

(** X15. Every sentence of a cleaned text is trimmed: between two ". ", and
    at the ends of the text, no sentence starts or ends with whitespace. *)
Theorem sentences_trimmed (db : UnicodeData) (text : pystr) :
  upper_sound db ->
  Forall (fun sentence => strip sentence = sentence)
         (split sentence_sep (_clean_romanization db text)).
Proof.
  intros Hdb. unfold _clean_romanization.
  rewrite capitalize_sentences by assumption.
  apply Forall_forall. intros out Hout.
  apply in_map_iff in Hout as (sentence & <- & _).
  now apply strip_capitalize_sentence.
Qed.

Lemma sentences_trimmed_witness :
  Forall (fun sentence => strip sentence = sentence)
         (split sentence_sep
                (_clean_romanization devanagari_db
                   (py "  namaste.   aap kaise hain .  "))).
Proof.
  apply (sentences_trimmed devanagari_db).
  exact devanagari_db_upper_sound.
Defined.

(** * The translation step and the pipeline *)

Section PipelineProperties.

Context (db : UnicodeData).
Context (use_gemini : bool).
Context (generate_content : pystr -> outcome pystr).
Context (translate : pystr -> pystr -> pystr -> outcome pystr).
Context (transliterate : pystr -> outcome pystr).

Lemma translate_with_googletrans_run (text : pystr) (log : list call) :
  _translate_with_googletrans translate text log
  = match translate text (py "en") (py "hi") with
    | Returned translated =>
      (Returned translated, log ++ [TranslatorCalled text (py "en") (py "hi")])
    | Raised e =>
      (Returned (py "Translation failed"),
       log ++ [TranslatorCalled text (py "en") (py "hi");
               ErrorShown (py "Translation error: " ++ e)])
    end.
Proof.
  unfold _translate_with_googletrans, p_try, call_translator, p_bind, p_emit,
    p_ret.
  destruct (translate text (py "en") (py "hi")); [reflexivity|].
  now rewrite <- app_assoc.
Qed.

Lemma english_to_hindi_translation_run (text : pystr) (log : list call) :
  english_to_hindi_translation use_gemini generate_content translate text log
  = if use_gemini then
      match generate_content (prompt_head ++ text ++ prompt_tail) with
      | Returned response_text =>
        (Returned (strip response_text),
         log ++ [GeminiCalled (prompt_head ++ text ++ prompt_tail)])
      | Raised e =>
        _translate_with_googletrans translate text
          (log ++ [GeminiCalled (prompt_head ++ text ++ prompt_tail);
                   ErrorShown (py "Gemini API error: " ++ e)])
      end
    else _translate_with_googletrans translate text log.
Proof.
  unfold english_to_hindi_translation. destruct use_gemini; [|reflexivity].
  unfold p_try, call_gemini, p_bind, p_emit, p_ret.
  destruct (generate_content (prompt_head ++ text ++ prompt_tail));
    [reflexivity|].
  now rewrite <- app_assoc.
Qed.

Lemma english_to_hindi_translation_returns (text : pystr) (log : list call) :
  exists hindi log',
    english_to_hindi_translation use_gemini generate_content translate text log
    = (Returned hindi, log').
Proof.
  rewrite english_to_hindi_translation_run.
  destruct use_gemini;
    [destruct (generate_content (prompt_head ++ text ++ prompt_tail))|];
    try (eexists _, _; reflexivity);
    rewrite translate_with_googletrans_run;
    destruct (translate text (py "en") (py "hi"));
    eexists _, _; reflexivity.
Qed.

Lemma hindi_to_roman_run (hindi_text : pystr) (log : list event) :
  hindi_to_roman_transliteration db transliterate hindi_text log
  = match transliterate hindi_text with
    | Returned roman_text =>
      (Returned (_clean_romanization db roman_text),
       log ++ [PrimaryCalled hindi_text])
    | Raised e =>
      (Returned (_enhanced_manual_hindi_to_roman db hindi_text),
       log ++ [PrimaryCalled hindi_text;
               ErrorReported (py "Romanization error: " ++ e);
               FallbackCalled hindi_text])
    end.
Proof.
  unfold hindi_to_roman_transliteration, try_except, call_transliterate,
    call_fallback, bind, emit, ret.
  destruct (transliterate hindi_text); [reflexivity|].
  now rewrite <- !app_assoc.
Qed.

End PipelineProperties.

(** X16. The translation never raises and asks each service at most once:
    with Gemini in use and answering, the answer is returned trimmed and
    the translator is not called; otherwise the text of the translator is
    returned as it is, or "Translation failed" when the translator raises
    too; without Gemini in use, Gemini is not called. *)
Theorem translation_degrades
        (use_gemini : bool) (generate_content : pystr -> outcome pystr)
        (translate : pystr -> pystr -> pystr -> outcome pystr)
        (text : pystr) (log : list call) :
  let prompt := prompt_head ++ text ++ prompt_tail in
  let run :=
      english_to_hindi_translation use_gemini generate_content translate
                                   text log in
  let asked := TranslatorCalled text (py "en") (py "hi") in
  (forall response_text,
     use_gemini = true -> generate_content prompt = Returned response_text ->
     run = (Returned (strip response_text), log ++ [GeminiCalled prompt]))
  /\ (forall e,
        use_gemini = true -> generate_content prompt = Raised e ->
        run = match translate text (py "en") (py "hi") with
              | Returned translated =>
                (Returned translated,
                 log ++ [GeminiCalled prompt;
                         ErrorShown (py "Gemini API error: " ++ e); asked])
              | Raised e' =>
                (Returned (py "Translation failed"),
                 log ++ [GeminiCalled prompt;
                         ErrorShown (py "Gemini API error: " ++ e); asked;
                         ErrorShown (py "Translation error: " ++ e')])
              end)
  /\ (use_gemini = false ->
      run = match translate text (py "en") (py "hi") with
            | Returned translated => (Returned translated, log ++ [asked])
            | Raised e' =>
              (Returned (py "Translation failed"),
               log ++ [asked; ErrorShown (py "Translation error: " ++ e')])
            end)
  /\ exists hindi log', run = (Returned hindi, log').
Proof.
  intros prompt run asked. subst run.
  split; [|split; [|split]].
  - intros response_text -> Hg.
    rewrite english_to_hindi_translation_run. fold prompt. now rewrite Hg.
  - intros e -> Hg.
    rewrite english_to_hindi_translation_run. fold prompt. rewrite Hg.
    rewrite translate_with_googletrans_run.
    destruct (translate text (py "en") (py "hi")); now rewrite <- app_assoc.
  - intros ->. rewrite english_to_hindi_translation_run.
    apply translate_with_googletrans_run.
  - apply english_to_hindi_translation_returns.
Qed.

Lemma translation_degrades_witness :
  english_to_hindi_translation true (fun _ => Raised (py "quota"))
                               (fun _ _ _ => Raised (py "offline"))
                               (py "hello") []
  = (Returned (py "Translation failed"),
     [] ++ [GeminiCalled (prompt_head ++ py "hello" ++ prompt_tail);
            ErrorShown (py "Gemini API error: " ++ py "quota");
            TranslatorCalled (py "hello") (py "en") (py "hi");
            ErrorShown (py "Translation error: " ++ py "offline")]).
Proof.
  destruct (translation_degrades true (fun _ => Raised (py "quota"))
                                 (fun _ _ _ => Raised (py "offline"))
                                 (py "hello") [])
    as (_ & Hfail & _).
  apply (Hfail (py "quota")); reflexivity.
Defined.

(** X17. [transform_text] always returns its three results: the first is
    the transliteration of the input and depends on no service, the second
    is what the translation of the input returns, and the third is what
    the romanization returns for the second; when every service raises,
    the second and the third are both "Translation failed". *)
Theorem transform_text_composes
        (db : UnicodeData) (use_gemini : bool)
        (generate_content : pystr -> outcome pystr)
        (translate : pystr -> pystr -> pystr -> outcome pystr)
        (transliterate : pystr -> outcome pystr)
        (input_text : pystr) (log : list call) :
  (exists res log',
      transform_text db use_gemini generate_content translate transliterate
                     input_text log = (Returned res, log')
      /\ english_devanagari res
         = english_to_devanagari_transliteration db input_text
      /\ (exists log1,
             english_to_hindi_translation use_gemini generate_content
                                          translate input_text log
             = (Returned (hindi_devanagari res), log1))
      /\ (exists log2,
             hindi_to_roman_transliteration db transliterate
                                            (hindi_devanagari res) []
             = (Returned (hindi_roman res), log2)))
  /\ ((use_gemini = true ->
       exists e, generate_content (prompt_head ++ input_text ++ prompt_tail)
                 = Raised e) ->
      (exists e, translate input_text (py "en") (py "hi") = Raised e) ->
      (exists e, transliterate (py "Translation failed") = Raised e) ->
      exists log',
        transform_text db use_gemini generate_content translate transliterate
                       input_text log
        = (Returned
             {| english_devanagari :=
                  english_to_devanagari_transliteration db input_text;
                hindi_devanagari := py "Translation failed";
                hindi_roman := py "Translation failed" |}, log')).
Proof.
  split.
  - destruct (english_to_hindi_translation_returns
                use_gemini generate_content translate input_text log)
      as (hindi & log1 & Hhindi).
    unfold transform_text, p_bind, lift_romanizer, p_ret. rewrite Hhindi.
    rewrite hindi_to_roman_run.
    destruct (transliterate hindi) as [roman|e] eqn:Hprimary.
    + eexists _, _. split; [reflexivity|]. cbn [english_devanagari
        hindi_devanagari hindi_roman]. split; [reflexivity|].
      split; [now exists log1|].
      rewrite hindi_to_roman_run, Hprimary. now eexists.
    + eexists _, _. split; [reflexivity|]. cbn [english_devanagari
        hindi_devanagari hindi_roman]. split; [reflexivity|].
      split; [now exists log1|].
      rewrite hindi_to_roman_run, Hprimary. now eexists.
  - intros Hgemini [e1 Htranslate] [e2 Hprimary].
    unfold transform_text, p_bind, lift_romanizer, p_ret.
    rewrite english_to_hindi_translation_run.
    assert (Hfallback :
              _enhanced_manual_hindi_to_roman db (py "Translation failed")
              = py "Translation failed") by (vm_compute; reflexivity).
    destruct use_gemini.
    + destruct (Hgemini eq_refl) as [e0 Hg]. rewrite Hg.
      rewrite translate_with_googletrans_run, Htranslate.
      rewrite hindi_to_roman_run, Hprimary, Hfallback. now eexists.
    + rewrite translate_with_googletrans_run, Htranslate.
      rewrite hindi_to_roman_run, Hprimary, Hfallback. now eexists.
Qed.

Lemma transform_text_composes_witness :
  exists log',
    transform_text devanagari_db false (fun _ => Raised [])
                   (fun _ _ _ => Raised (py "offline"))
                   (fun _ => Raised (py "missing"))
                   (py "the boy") []
    = (Returned
         {| english_devanagari :=
              english_to_devanagari_transliteration devanagari_db (py "the boy");
            hindi_devanagari := py "Translation failed";
            hindi_roman := py "Translation failed" |}, log').
Proof.
  apply (proj2 (transform_text_composes devanagari_db false (fun _ => Raised [])
                  (fun _ _ _ => Raised (py "offline"))
                  (fun _ => Raised (py "missing")) (py "the boy") [])).
  - discriminate.
  - now exists (py "offline").
  - now exists (py "missing").
Defined.

(** * The choice of the translation service *)

Section InitProperties.

Context (configure : pystr -> outcome unit).
Context (GenerativeModel : pystr -> outcome unit).
Context (test_model : pystr -> outcome unit).

(** The loop stops at the first model that works and does not build the
    models after it. *)
Lemma try_models_found (earlier : list pystr) (name : pystr)
      (later : list pystr) (model : option pystr) (log : list init_event) :
  Forall (fun n => model_works GenerativeModel test_model n = false) earlier -> model_works GenerativeModel test_model name = true ->
  exists tried,
    try_models GenerativeModel test_model (earlier ++ name :: later) model log
    = (true, Some name, log ++ tried)
    /\ forall n, In (ModelConstructed n) tried -> In n earlier \/ n = name.
Proof.
  intros Hearlier Hname. revert model log.
  induction Hearlier as [|n earlier Hn _ IH]; intros model log.
  - cbn [app try_models]. unfold model_works in Hname.
    destruct (GenerativeModel name); [|discriminate].
    destruct (test_model name); [|discriminate].
    eexists. split; [reflexivity|].
    intros n [Heq|[Heq|[Heq|[]]]]; try discriminate.
    injection Heq as <-. now right.
  - cbn [app try_models]. unfold model_works in Hn.
    destruct (GenerativeModel n) eqn:Hbuild.
    + destruct (test_model n); [discriminate|].
      destruct (IH (Some n) (log ++ [ModelConstructed n; ModelTested n]))
        as (tried & -> & Htried).
      exists ([ModelConstructed n; ModelTested n] ++ tried).
      split; [now rewrite <- app_assoc|].
      intros m Hin. apply in_app_or in Hin as [[Heq|[Heq|[]]]|Hin];
        try discriminate.
      * injection Heq as <-. left. now left.
      * destruct (Htried m Hin); [left; now right | now right].
    + destruct (IH model (log ++ [ModelConstructed n]))
        as (tried & -> & Htried).
      exists ([ModelConstructed n] ++ tried).
      split; [now rewrite <- app_assoc|].
      intros m Hin. apply in_app_or in Hin as [[Heq|[]]|Hin].
      * injection Heq as <-. left. now left.
      * destruct (Htried m Hin); [left; now right | now right].
Qed.

Lemma try_models_none (names : list pystr) (model : option pystr)
      (log : list init_event) :
  Forall (fun n => model_works GenerativeModel test_model n = false) names ->
  fst (fst (try_models GenerativeModel test_model names model log)) = false.
Proof.
  intros Hnames. revert model log.
  induction Hnames as [|n names Hn _ IH]; intros model log; [reflexivity|].
  cbn [try_models]. unfold model_works in Hn.
  destruct (GenerativeModel n); [|apply IH].
  destruct (test_model n); [discriminate | apply IH].
Qed.

Lemma first_working (names : list pystr) :
  Forall (fun n => model_works GenerativeModel test_model n = false) names
  \/ exists earlier name later,
      names = earlier ++ name :: later
      /\ Forall (fun n => model_works GenerativeModel test_model n = false) earlier /\ model_works GenerativeModel test_model name = true.
Proof.
  induction names as [|n names IH]; [left; constructor|].
  destruct (model_works GenerativeModel test_model n) eqn:Hn.
  - right. exists [], n, names. repeat split; [constructor | assumption].
  - destruct IH as [Hall|(earlier & name & later & -> & Hearlier & Hname)].
    + left. now constructor.
    + right. exists (n :: earlier), name, later.
      repeat split; [now constructor | assumption].
Qed.

Lemma nodup_later (earlier later : list pystr) (name n : pystr) :
  NoDup (earlier ++ name :: later) -> In n later ->
  ~ In n earlier /\ n <> name.
Proof.
  intros Hnodup Hn. induction earlier as [|a earlier IH].
  - cbn [app] in Hnodup. inversion Hnodup as [|? ? Hname _]; subst.
    split; [intros []|]. intros ->. now apply Hname.
  - cbn [app] in Hnodup. inversion Hnodup as [|? ? Ha Hrest]; subst.
    destruct (IH Hrest) as [Hearlier Hname]. split; [|assumption].
    intros [->|Hin]; [|now apply Hearlier].
    apply Ha. apply in_or_app. right. now right.
Qed.

Lemma model_names_nodup : NoDup model_names.
Proof.
  unfold model_names.
  repeat (constructor; [cbn [In]; intros H;
                        repeat (destruct H as [H|H]; [discriminate|]);
                        exact H|]).
  constructor.
Qed.

Lemma init_unusable (api_key : option pystr) :
  key_usable api_key = false ->
  self_use_gemini (fst (__init__ configure GenerativeModel test_model api_key))
  = false
  /\ exists message,
      snd (__init__ configure GenerativeModel test_model api_key)
      = [InfoShown message]
      \/ snd (__init__ configure GenerativeModel test_model api_key)
         = [WarningShown message].
Proof.
  intros Hkey. unfold __init__. destruct api_key as [key|].
  - rewrite Hkey. split; [reflexivity|]. cbn [snd].
    destruct key; eexists; [left | right]; reflexivity.
  - split; [reflexivity|]. eexists. left. reflexivity.
Qed.

End InitProperties.

(** X18. [__init__] uses Gemini exactly when the key is usable (not
    missing, not blank, not a placeholder starting with "your_"), the
    library accepts it and one of the four models can be built and answers
    the test; the model kept is then the first of the list that does, and
    the models after it are not built.  With an unusable key no call is
    made to the library and one message is shown. *)
Theorem gemini_model_selection
        (configure GenerativeModel test_model : pystr -> outcome unit)
        (api_key : option pystr) :
  let state := fst (__init__ configure GenerativeModel test_model api_key) in
  let log := snd (__init__ configure GenerativeModel test_model api_key) in
  (self_use_gemini state = true <->
   exists key,
     api_key = Some key /\ key_usable api_key = true
     /\ (exists u, configure key = Returned u)
     /\ exists name,
         In name model_names
         /\ model_works GenerativeModel test_model name = true)
  /\ (self_use_gemini state = true ->
      exists earlier name later,
        model_names = earlier ++ name :: later
        /\ Forall (fun n => model_works GenerativeModel test_model n = false)
                  earlier
        /\ model_works GenerativeModel test_model name = true
        /\ self_model state = Some name
        /\ Forall (fun n => ~ In (ModelConstructed n) log) later)
  /\ (key_usable api_key = false ->
      self_use_gemini state = false
      /\ exists message,
          log = [InfoShown message] \/ log = [WarningShown message]).
Proof.
  intros state log. subst state log.
  split; [|split]; [| |apply init_unusable].
  - unfold __init__. destruct api_key as [key|].
    2:{ cbn [fst self_use_gemini]. split; [discriminate|].
        intros (key & Hkey & _). discriminate. }
    destruct (key_usable (Some key)) eqn:Husable.
    2:{ cbn [fst self_use_gemini]. split; [discriminate|].
        intros (key' & _ & Hk & _). discriminate. }
    destruct (configure key) as [u|e] eqn:Hconf.
    2:{ cbn [fst self_use_gemini]. split; [discriminate|].
        intros (key' & Heq & _ & (u & Hu) & _). injection Heq as <-.
        congruence. }
    destruct (first_working GenerativeModel test_model model_names)
      as [Hnone|(earlier & name & later & Hnames & Hearlier & Hname)].
    + pose proof (try_models_none GenerativeModel test_model model_names None
                                  [ConfigureCalled key] Hnone) as Hflag.
      destruct (try_models GenerativeModel test_model model_names None
                           [ConfigureCalled key]) as [[flag model] log'].
      cbn [fst] in Hflag. subst flag. cbn [fst self_use_gemini].
      split; [discriminate|].
      intros (_ & _ & _ & _ & name & Hin & Hworks).
      rewrite Forall_forall in Hnone. rewrite (Hnone name Hin) in Hworks.
      discriminate.
    + destruct (try_models_found GenerativeModel test_model earlier name later
                                 None [ConfigureCalled key] Hearlier Hname)
        as (tried & Hrun & _).
      rewrite Hnames, Hrun. cbn [fst self_use_gemini].
      split; [|reflexivity]. intros _. exists key.
      repeat split; [now exists u|]. exists name. split; [|assumption].
      apply in_or_app. right. now left.
  - unfold __init__. destruct api_key as [key|]; [|discriminate].
    destruct (key_usable (Some key)); [|discriminate].
    destruct (configure key) as [u|e]; [|discriminate].
    destruct (first_working GenerativeModel test_model model_names)
      as [Hnone|(earlier & name & later & Hnames & Hearlier & Hname)].
    + pose proof (try_models_none GenerativeModel test_model model_names None
                                  [ConfigureCalled key] Hnone) as Hflag.
      destruct (try_models GenerativeModel test_model model_names None
                           [ConfigureCalled key]) as [[flag model] log'].
      cbn [fst] in Hflag. subst flag. discriminate.
    + destruct (try_models_found GenerativeModel test_model earlier name later
                                 None [ConfigureCalled key] Hearlier Hname)
        as (tried & Hrun & Htried).
      pose proof model_names_nodup as Hnodup.
      rewrite Hnames in Hnodup |- *. rewrite Hrun.
      cbn [fst snd self_use_gemini self_model]. intros _.
      exists earlier, name, later. repeat split; try assumption.
      apply Forall_forall. intros n Hlater Hin.
      cbn [app In] in Hin. destruct Hin as [Heq|Hin]; [discriminate|].
      destruct (nodup_later earlier later name n Hnodup Hlater)
        as [Hnot_earlier Hnot_name].
      destruct (Htried n Hin) as [Hearly|Heq]; [now apply Hnot_earlier|].
      now apply Hnot_name.
Qed.

Lemma gemini_model_selection_witness :
  exists earlier name later,
    model_names = earlier ++ name :: later
    /\ Forall (fun n => model_works (fun _ => Returned tt)
                                    (fun n => if str_eqb n (py "gemini-pro")
                                              then Returned tt
                                              else Raised (py "not found"))
                                    n = false) earlier
    /\ model_works (fun _ => Returned tt)
                   (fun n => if str_eqb n (py "gemini-pro")
                             then Returned tt else Raised (py "not found"))
                   name = true
    /\ self_model
         (fst (__init__ (fun _ => Returned tt) (fun _ => Returned tt)
                    (fun n => if str_eqb n (py "gemini-pro")
                              then Returned tt else Raised (py "not found"))
                    (Some (py "AIza-key"))))
       = Some name
    /\ Forall (fun n =>
                 ~ In (ModelConstructed n)
                      (snd (__init__ (fun _ => Returned tt) (fun _ => Returned tt)
                                 (fun n => if str_eqb n (py "gemini-pro")
                                           then Returned tt
                                           else Raised (py "not found"))
                                 (Some (py "AIza-key"))))) later.
Proof.
  apply (gemini_model_selection (fun _ => Returned tt) (fun _ => Returned tt)
           (fun n => if str_eqb n (py "gemini-pro")
                     then Returned tt else Raised (py "not found"))
           (Some (py "AIza-key"))).
  vm_compute. reflexivity.
Defined.
